(** * EEP definition for PARSEC tracks: a shallow embedding of
    [eep/define_eep.py] and the properties of its index bookkeeping.

    Conventions of the embedding.
    - A track's samples ([track.data], a structured array) are a list of
      rows; a column is the list of one field over the rows.
    - Sample values are exact rationals ([Q]); the code only compares them,
      subtracts them and takes absolute values.
    - Indices are [Z], as numpy integers are signed and a negative index
      addresses an array from its end.
    - A Python exception is a [Raise] result; the state reached so far is
      dropped with it, as every [try] block of the module guards a pure
      expression.
    - Integer [/] is floor division, the module being Python 2 code. *)

From Stdlib Require Import ZArith QArith Qabs Qround String Lia Lqa.
From stdpp Require Import base option list strings gmap.

Open Scope Z_scope.

(** ** numpy on lists *)

Module np.

(** [a[i]] for a possibly negative [i]. *)
Definition index {A} (l : list A) (i : Z) : option A :=
  let n := Z.of_nat (length l) in
  if 0 <=? i then l !! Z.to_nat i
  else if - n <=? i then l !! Z.to_nat (n + i)
  else None.

Definition arange (a b : Z) : list Z :=
  (fun k : nat => a + Z.of_nat k) <$> seq 0 (Z.to_nat (b - a)).

(** [a[inds]] for an index array. *)
Definition take {A} (l : list A) (inds : list Z) : option (list A) :=
  mapM (index l) inds.

Fixpoint nonzero_from {A} (p : A -> bool) (i : Z) (l : list A) : list Z :=
  match l with
  | [] => []
  | x :: l' =>
      if p x then i :: nonzero_from p (i + 1) l'
      else nonzero_from p (i + 1) l'
  end.

(** [np.nonzero(cond)[0]]: the positions where the condition holds. *)
Definition nonzero {A} (p : A -> bool) (l : list A) : list Z :=
  nonzero_from p 0 l.

Definition diff (l : list Z) : list Z :=
  zip_with (fun a b => b - a) l (tail l).

Fixpoint arg_from {A} (better : A -> A -> bool)
         (bi : nat) (b : A) (i : nat) (l : list A) : nat :=
  match l with
  | [] => bi
  | x :: l' =>
      if better x b then arg_from better i x (S i) l'
      else arg_from better bi b (S i) l'
  end.

(** First position of an extremal element; [None] on the empty array,
    where numpy raises [ValueError]. *)
Definition arg {A} (better : A -> A -> bool) (l : list A) : option nat :=
  match l with
  | [] => None
  | x :: l' => Some (arg_from better 0%nat x 1%nat l')
  end.

Definition Qltb (x y : Q) : bool := negb (Qle_bool y x).

Definition argmin (l : list Q) : option nat := arg Qltb l.
Definition argmax (l : list Q) : option nat := arg (fun x y => Qltb y x) l.
Definition argminZ (l : list Z) : option nat := arg Z.ltb l.

Definition minZ (l : list Z) : option Z :=
  match l with
  | [] => None
  | x :: l' => Some (foldr Z.min x l')
  end.

Definition linspace (a b : Q) (n : nat) : list Q :=
  (fun k : nat =>
     (a + (inject_Z (Z.of_nat k)) * ((b - a) / inject_Z (Z.of_nat (n - 1))))%Q)
    <$> seq 0 n.

(** [np.round] to no decimals: half-way cases go to the even neighbour. *)
Definition round (x : Q) : Z :=
  let f := Qfloor x in
  let r := (x - inject_Z f)%Q in
  match (r ?= 1 # 2)%Q with
  | Lt => f
  | Gt => f + 1
  | Eq => if Z.even f then f else f + 1
  end.

(** Stable ascending [argsort]. *)
Fixpoint insert_by (v : nat -> Q) (i : nat) (l : list nat) : list nat :=
  match l with
  | [] => [i]
  | j :: l' => if Qltb (v i) (v j) then i :: l else j :: insert_by v i l'
  end.

Definition argsort (l : list Q) : list nat :=
  let v := fun i : nat => default 0%Q (l !! i) in
  foldl (fun acc i => insert_by v i acc) [] (seq 0 (length l)).

End np.

(** ** Names, messages, tracks *)

(** The EEP catalogue.  [YCEN n] is the name [YCEN_0.ddd] whose three
    decimals read [n]; [TPAGB_n i] is [TPAGBi]. *)
Inductive eep : Set :=
| PMS_BEG | PMS_MIN | PMS_END | NEAR_ZAM | MS_BEG | POINT_B | POINT_C
| RG_BASE | MS_TMIN | MS_TO | SG_MAXL | RG_MINL | RG_BMP1 | RG_BMP2
| RG_TIP | HE_BEG | YCEN (thousandths : Z) | AGB_LY1 | AGB_LY2 | TPAGB
| TPAGB_n (i : Z) | Other (name : string).

#[global] Instance eep_eq_dec : EqDecision eep.
Proof. solve_decision. Defined.

(** The columns of [track.data] named in [config]. *)
Inductive column : Set := age | logL | logT | xcen | ycen | LY | LX.

#[global] Instance column_eq_dec : EqDecision column.
Proof. solve_decision. Defined.

Record Row : Set := {
  r_age : Q; r_logL : Q; r_logT : Q; r_xcen : Q; r_ycen : Q;
  r_LY : Q; r_LX : Q; r_MODE : Z; r_step : Z
}.

Definition field (c : column) (r : Row) : Q :=
  match c with
  | age => r_age r | logL => r_logL r | logT => r_logT r
  | xcen => r_xcen r | ycen => r_ycen r | LY => r_LY r | LX => r_LX r
  end.

Inductive marg : Set :=
| ArgQ (q : Q) | ArgZ (z : Z) | ArgName (e : eep) | ArgStr (s : string).

(** A formatted message: the format string and the values it is filled
    with. *)
Record msg : Set := Msg { fmt : string; fargs : list marg }.

Definition Text (s : string) : msg := Msg s [].

Record Track : Set := {
  data : list Row;
  mass : Q;
  Z_ : Q;
  Y_ : Q;
  hb : bool;
  agb : bool;
  sptcri : list Z;
  iptcri : list Z;
  info : list (eep * msg);
  flag : option msg;
  (** the attributes [track.i<name>] set by [add_eep], latest first *)
  attrs : list (eep * Z)
}.

Definition col (c : column) (t : Track) : list Q := field c <$> data t.

Definition assoc {B} (e : eep) (l : list (eep * B)) : option B :=
  snd <$> List.find (fun p => bool_decide (fst p = e)) l.

(** ** The critical-point table and the collaborators outside the module *)

Record critical_point : Set := {
  eep_list : list eep;
  sandro_eeps : list eep;
  please_define : list eep;
  masses : list Q
}.

Record config : Set := {
  low_mass : Q; inte_mass : Q; high_mass : Q; max_age : Q
}.

(** Keyword arguments of [peak_finder], as the dictionaries [pf_kw] hold
    them: an absent key is [None]. *)
Record pf_kw : Set := {
  get_max : option bool;
  sandro : bool;
  more_than_one : string;
  parametric_interp : option bool;
  less_linear_fit : option bool
}.

Inductive endpoint : Set := Named (e : eep) | At (i : Z).

(** A call of [peak_finder] and what it returned. *)
Record pf_call : Set := {
  pf_col : column; pf_start : endpoint; pf_end : endpoint; pf_args : pf_kw;
  pf_result : Z
}.

Record peak_dict : Set := {
  maxima_locations : list Z;
  minima_locations : list Z
}.

Inductive exn : Set :=
| IndexError | ValueError | KeyError | NameError | AttributeError
| RuntimeError.

Inductive result (A : Type) : Type :=
| Ok (a : A)
| Raise (e : exn).
Arguments Ok {A} a.
Arguments Raise {A} e.

Definition expect {A} (e : exn) (o : option A) : result A :=
  match o with Some a => Ok a | None => Raise e end.

(** What the module takes from [utils], [Interpolator], [critical_point],
    scipy and [np.polyfit]: numerics that are not part of this file. *)
Record collaborators : Type := {
  (** the feature search of [peak_finder] over the rows between two raw
      indices, either of which may be missing from its table *)
  pf_search :
    list Row -> column -> option Z -> option Z -> pf_kw -> result Z;
  (** the index range [inds_between_ptcris] builds from two raw indices *)
  between : option Z -> option Z -> result (list Z);
  (** the spline part of [second_derivative]: a position in [inds], or
      nothing when no sign change qualifies *)
  spline_root : list Q -> list Z -> bool -> result (option nat);
  find_peaks : list Q -> peak_dict;
  remove_dupes : list Q -> list Q -> list Z;
  polyfit1 : list Q -> list Q -> Q * Q;
  (** ['M%.3f' % mass] *)
  mass_key : Q -> string;
  (** [ptcri.fix_ptcri], on the reference rows of all masses *)
  fix_ptcri : gmap string (list Z) -> Q -> gmap string (list Z)
}.

(** ** Results and the state monad *)

(** The state a method of [DefineEeps] works on: the track, the per-mass
    reference rows of [self.ptcri.data_dict], and the record of the
    [peak_finder] calls that returned so far (latest last). *)
Record St : Type := {
  track : Track;
  data_dict : gmap string (list Z);
  searches : list pf_call
}.

Definition M (A : Type) : Type := St -> result (A * St).

Definition ret {A} (a : A) : M A := fun s => Ok (a, s).

Definition bind {A B} (m : M A) (k : A -> M B) : M B :=
  fun s => match m s with
           | Ok (a, s') => k a s'
           | Raise e => Raise e
           end.

Definition raise {A} (e : exn) : M A := fun _ => Raise e.

Definition lift {A} (r : result A) : M A :=
  fun s => match r with Ok a => Ok (a, s) | Raise e => Raise e end.

Definition get_track : M Track := fun s => Ok (track s, s).

Definition put_track (t : Track) : M unit :=
  fun s => Ok (tt, {| track := t; data_dict := data_dict s;
                      searches := searches s |}).

Definition log_search (c : pf_call) : M unit :=
  fun s => Ok (tt, {| track := track s; data_dict := data_dict s;
                      searches := searches s ++ [c] |}).

Declare Scope eep_scope.
Delimit Scope eep_scope with eepm.
Notation "'do' x <- m ; k" := (bind m (fun x => k))
  (at level 10, x name, m at level 100, k at level 200) : eep_scope.
Notation "'do' ' p <- m ; k" := (bind m (fun x => match x with p => k end))
  (at level 10, p pattern, m at level 100, k at level 200) : eep_scope.
Notation "'run' m ; k" := (bind m (fun _ => k))
  (at level 10, m at level 100, k at level 200) : eep_scope.
Open Scope eep_scope.

(** [a[i]], raising [IndexError] out of range. *)
Definition at_ {A} (l : list A) (i : Z) : M A :=
  lift (expect IndexError (np.index l i)).

Definition at_nat {A} (l : list A) (i : nat) : M A :=
  lift (expect IndexError (l !! i)).

Definition takes {A} (l : list A) (inds : list Z) : M (list A) :=
  lift (expect IndexError (np.take l inds)).

Fixpoint index_of (e : eep) (l : list eep) : option nat :=
  match l with
  | [] => None
  | x :: l' => if bool_decide (x = e) then Some 0%nat
               else S <$> index_of e l'
  end.

Definition with_iptcri (t : Track) (k : nat) (ind : Z) (e : eep) (m : msg)
  : Track :=
  {| data := data t; mass := mass t; Z_ := Z_ t; Y_ := Y_ t; hb := hb t;
     agb := agb t; sptcri := sptcri t;
     iptcri := <[k := ind]> (iptcri t);
     info := (e, m) :: info t;
     flag := flag t;
     attrs := (e, ind) :: attrs t |}.

Definition with_flag (t : Track) (f : option msg) : Track :=
  {| data := data t; mass := mass t; Z_ := Z_ t; Y_ := Y_ t; hb := hb t;
     agb := agb t; sptcri := sptcri t; iptcri := iptcri t; info := info t;
     flag := f; attrs := attrs t |}.

Definition with_info (t : Track) (i : list (eep * msg)) : Track :=
  {| data := data t; mass := mass t; Z_ := Z_ t; Y_ := Y_ t; hb := hb t;
     agb := agb t; sptcri := sptcri t; iptcri := iptcri t; info := i;
     flag := flag t; attrs := attrs t |}.

Definition with_sptcri (t : Track) (s : list Z) : Track :=
  {| data := data t; mass := mass t; Z_ := Z_ t; Y_ := Y_ t; hb := hb t;
     agb := agb t; sptcri := s; iptcri := iptcri t; info := info t;
     flag := flag t; attrs := attrs t |}.

Definition with_table (t : Track) (i : list Z) : Track :=
  {| data := data t; mass := mass t; Z_ := Z_ t; Y_ := Y_ t; hb := hb t;
     agb := agb t; sptcri := sptcri t; iptcri := i; info := info t;
     flag := flag t; attrs := attrs t |}.

Definition gets {A} (f : Track -> A) : M A := fun s => Ok (f (track s), s).

Definition modify (f : Track -> Track) : M unit :=
  fun s => Ok (tt, {| track := f (track s); data_dict := data_dict s;
                      searches := searches s |}).

Fixpoint for_each {A} (f : A -> M unit) (l : list A) : M unit :=
  match l with
  | [] => ret tt
  | x :: l' => run f x ; for_each f l'
  end.

Definition len {A} (l : list A) : Z := Z.of_nat (length l).

(** [a[:k]] and [a[k:]] for a possibly negative [k]. *)
Definition slice_to {A} (l : list A) (k : Z) : list A :=
  if 0 <=? k then take (Z.to_nat k) l else take (Z.to_nat (len l + k)) l.

Definition slice_from {A} (l : list A) (k : Z) : list A :=
  if 0 <=? k then drop (Z.to_nat k) l else drop (Z.to_nat (len l + k)) l.

(** [num / den > b] and [num / den < b] on floats, where a zero
    denominator gives an infinity of the sign of [num], or a NaN that
    compares false. *)
Definition div_gt (num den b : Q) : bool :=
  if Qeq_bool den 0 then np.Qltb 0 num else np.Qltb b (num / den).

Definition div_lt (num den b : Q) : bool :=
  if Qeq_bool den 0 then np.Qltb num 0 else np.Qltb (num / den) b.

(** Modelled from the spec: [utils.closest_match], which is not part of
    this module; "nearest-value lookup" returning the index and the
    absolute difference, the first index on ties. *)
Definition closest_match (num : Q) (arr : list Q) : result (nat * Q) :=
  let difs := (fun v => Qabs (num - v)) <$> arr in
  match np.argmin difs with
  | Some i => Ok (i, default 0%Q (difs !! i))
  | None => Raise ValueError
  end.

(** [float(name.split('_')[-1])] of the name [YCEN_0.ddd]. *)
Definition cen_value (n : Z) : Q := inject_Z n / 1000.

Definition cens_of (names : list eep) : list Z :=
  omap (fun e => match e with YCEN n => Some n | _ => None end) names.

Definition positive (l : list Z) : list Z := filter (fun i => 0 < i) l.

Definition kw (gm : option bool) (sd : bool) (mto : string)
           (pi lf : option bool) : pf_kw :=
  {| get_max := gm; sandro := sd; more_than_one := mto;
     parametric_interp := pi; less_linear_fit := lf |}.

(** The two calling conventions of [add_quiesscent_he_eep]: raw indices,
    or the names of two EEPs. *)
Inductive he_range : Set :=
| Raw (start ycen1 : Z)
| Names (start ycen1 : eep).

Section DefineEeps.

Variable cfg : config.
Variable ext : collaborators.
Variable ptcri : critical_point.

(** Modelled from the spec: the name to ordinal lookup of the
    critical-point table ([key_dict], [get_ptcri_name]), whose class is
    not part of this module. *)
Definition key_dict (e : eep) : M nat :=
  lift (expect KeyError (index_of e (eep_list ptcri))).

Definition get_ptcri_name (e : eep) (sandro_ : bool) : M nat :=
  lift (expect KeyError
          (index_of e (if sandro_ then sandro_eeps ptcri
                       else eep_list ptcri))).

(** [add_eep]: the index table, the attribute and the note of one EEP. *)
Definition add_eep (eep_name : eep) (ind : Z) (message : msg) : M unit :=
  do k <- key_dict eep_name ;
  do tbl <- gets iptcri ;
  if bool_decide (k < length tbl)%nat
  then modify (fun t => with_iptcri t k ind eep_name message)
  else raise IndexError.

(** [track.iptcri[self.ptcri.get_ptcri_name(name, sandro=False)]] *)
Definition entry (e : eep) : M Z :=
  do k <- get_ptcri_name e false ;
  do tbl <- gets iptcri ;
  at_nat tbl k.

(** The raw index an end point of a search stands for, if it has one:
    the entry of a named EEP in Sandro's indices or in the EEP table. *)
Definition raw_index (p : endpoint) (sandro_ : bool) : M (option Z) :=
  match p with
  | At i => ret (Some i)
  | Named e =>
      do tbl <- gets (if sandro_ then sptcri else iptcri) ;
      ret (k ← index_of e (if sandro_ then sandro_eeps ptcri
                            else eep_list ptcri); tbl !! k)
  end.

(** Modelled from the spec: [Interpolator.peak_finder], which is not
    part of this module; it "restricts to the index range between two
    named EEPs" and searches the feature there.  Each call is
    recorded. *)
Definition peak_finder (c : column) (eep1 eep2 : endpoint) (k : pf_kw)
  : M Z :=
  do i1 <- raw_index eep1 (sandro k) ;
  do i2 <- raw_index eep2 (sandro k) ;
  do rows <- gets data ;
  do r <- lift (pf_search ext rows c i1 i2 k) ;
  run log_search {| pf_col := c; pf_start := eep1; pf_end := eep2;
                    pf_args := k; pf_result := r |} ;
  ret r.

(** Modelled from the spec: [critical_point.inds_between_ptcris], "the
    raw index between named point A and named point B". *)
Definition inds_between_ptcris (name1 name2 : eep) (sandro_ : bool)
  : M (list Z) :=
  do i1 <- raw_index (Named name1) sandro_ ;
  do i2 <- raw_index (Named name2) sandro_ ;
  lift (between ext i1 i2).

(** [second_derivative]: the spline fit is scipy's; the result is the
    element of [inds] it selects, or -1. *)
Definition second_derivative (xdata : list Q) (inds : list Z) (gt : bool)
  : M Z :=
  do r <- lift (spline_root ext xdata inds gt) ;
  match r with
  | None => ret (-1)
  | Some k => at_nat inds k
  end.

Definition check_for_monotonic_increase : M unit :=
  do f <- gets flag ;
  match f with
  | Some _ => ret tt
  | None =>
      do tbl <- gets iptcri ;
      let negatives :=
        np.nonzero (fun d => d <=? 0) (np.diff (positive tbl)) in
      if bool_decide (0 < length negatives)%nat
      then modify (fun t =>
             with_flag t (Some (Text "eeps not monotonically increasing")))
      else ret tt
  end.

Fixpoint cen_loop (tol : Q) (cens : list Z) (inds : list Z)
  : M (list Z) :=
  match cens with
  | [] => ret []
  | cen :: cens' =>
      do y <- gets (col ycen) ;
      do vals <- takes y inds ;
      do ' (ind, dif) <- lift (closest_match (cen_value cen) vals) ;
      do icen0 <- at_nat inds ind ;
      let icen := if np.Qltb tol dif then 0 else icen0 in
      do yi <- at_ y icen ;
      run add_eep (YCEN cen) icen (Msg "YCEN == %.6f" [ArgQ yi]) ;
      do icens <- cen_loop tol cens' (np.arange (icen + 1) (len y)) ;
      ret (icen :: icens)
  end.

(** [add_cen_eeps(track, hb, tol, istart)] *)
Definition add_cen_eeps (hb_ : bool) (tol : Q) (istart : option Z)
  : M (list Z) :=
  do istart <- (if hb_ then ret 0
                else match istart with
                     | Some i => ret i
                     | None => entry RG_TIP
                     end) ;
  do y <- gets (col ycen) ;
  cen_loop tol (cens_of (please_define ptcri)) (np.arange istart (len y)).


(** [track.i<name>], the attribute [add_eep] sets. *)
Definition attr (e : eep) : M Z :=
  do a <- gets attrs ;
  lift (expect AttributeError (assoc e a)).

Definition argmin_ (l : list Q) : M nat :=
  lift (expect ValueError (np.argmin l)).

Definition argmax_ (l : list Q) : M nat :=
  lift (expect ValueError (np.argmax l)).

(** [add_eep_with_age]; the argument [age] of the source hides the
    column name of [config], which the embedding keeps apart. *)
Definition add_eep_with_age (eep_name : eep) (age_ : Q) : M (Z * Q) :=
  do a <- gets (col age) ;
  do iage <- argmin_ ((fun x => Qabs (x - age_)) <$> a) ;
  do ai <- at_nat a iage ;
  run add_eep eep_name (Z.of_nat iage)
      (Msg "By age = %g and is %g" [ArgQ age_; ArgQ ai]) ;
  ret (Z.of_nat iage, ai).

(** [add_ms_beg_eep]; the argument [xcen=0.6] of the source hides the
    column name likewise. *)
Definition add_ms_beg_eep (xcen_ : Q) : M Z :=
  do x <- gets (col xcen) ;
  do imsbeg <- argmin_ ((fun v => Qabs (xcen_ - v)) <$> x) ;
  run (if bool_decide (0 < imsbeg)%nat
       then add_eep MS_BEG (Z.of_nat imsbeg)
              (Msg "overwrote Sandro for closer match to XCEN=%g"
                   [ArgQ xcen_])
       else ret tt) ;
  ret (Z.of_nat imsbeg).

Definition check_pms_beg : M unit :=
  do a <- gets (col age) ;
  do sp <- gets sptcri ;
  do i0 <- at_ sp 0 ;
  do a0 <- at_ a i0 ;
  if Qle_bool a0 (2 # 10) then
    do i <- at_ (np.nonzero (fun x => 2 <? np.round (x * 10)) a) 0 ;
    add_eep PMS_BEG i (Text "overwritten with age > 0.2")
  else ret tt.

Definition add_hb_beg : M Z :=
  do sp <- gets sptcri ;
  do hb_beg <- at_ sp 0 ;
  do ' (hb_beg, m) <-
     (if hb_beg =? 0 then
        do a <- gets (col age) ;
        do i <- at_ (np.nonzero (fun x => np.Qltb (2 # 10) x) a) 0 ;
        ret (i, Text "first point with age > 0.2")
      else ret (hb_beg, Text "Sandros He1")) ;
  run add_eep HE_BEG hb_beg m ;
  ret hb_beg.

Definition enumerate {A} (l : list A) : list (Z * A) :=
  zip (Z.of_nat <$> seq 0 (length l)) l.

(** [add_tpagb_eeps(track, neeps=3)] *)
Definition add_tpagb_eeps : M unit :=
  do rows <- gets data ;
  do tp_start <- match np.nonzero (fun r => r_step r =? 1) rows with
                 | [i] => ret i
                 | _ => raise ValueError
                 end ;
  do a <- gets (col age) ;
  do a0 <- at_ a tp_start ;
  let tpage := (fun x => x - a0)%Q <$> slice_from a tp_start in
  do last <- at_ tpage (-1) ;
  let ages := np.linspace 0 last 3 in
  do args <- lift (expect ValueError
               (mapM (fun a_ => np.argmin ((fun x => Qabs (x - a_)) <$> tpage))
                     ages)) ;
  let itps := (fun i : nat => Z.of_nat i + tp_start) <$> args in
  do itp0 <- at_ itps 0 ;
  run add_eep TPAGB itp0 (Text "TPAGB start") ;
  for_each (fun p : Z * Z =>
              add_eep (TPAGB_n (fst p + 1)) (snd p)
                      (Msg "TPAGB age {}" [ArgZ (fst p + 1)]))
           (enumerate (slice_from itps 1)).

(** [add_quiesscent_he_eep(track, ycen1, start)] *)
Definition add_quiesscent_he_eep (r : he_range) : M Z :=
  do inds <- match r with
             | Raw start ycen1 => ret (np.arange start ycen1)
             | Names start ycen1 => inds_between_ptcris start ycen1 false
             end ;
  if bool_decide (length inds = 0)%nat then
    do m <- gets mass ;
    do z <- gets Z_ ;
    run add_eep HE_BEG 0 (Msg "No HE_BEG M=%.4f Z=%.4f" [ArgQ m; ArgQ z]) ;
    ret 0
  else
    do ly <- gets (col LY) ;
    do lyi <- takes ly inds ;
    do he_min <- argmin_ lyi ;
    do ilast <- at_ inds (-1) ;
    do ifirst <- at_ inds 0 ;
    let npts := ilast - ifirst + 1 in
    let subset := npts / 3 in
    do lys <- takes ly (slice_to inds subset) ;
    do he_max <- argmax_ lys ;
    do imax <- at_nat inds he_max ;
    do lmax <- at_ ly imax ;
    do l0 <- at_ ly ifirst ;
    do he_min <-
       (if bool_decide (he_min = 0)%nat || div_gt lmax l0 10 then
          do lya <- takes ly (slice_from inds (Z.of_nat he_max + 1)) ;
          do amin <- argmin_ lya ;
          ret (he_max + 1 + amin)%nat
        else ret he_min) ;
    do he_beg <- at_nat inds he_min ;
    run add_eep HE_BEG he_beg (Text "Min LY after RG_TIP") ;
    ret he_beg.

(** The two values [np.round(np.linspace(track.iycen_0000,
    track.iptcri[-1], 4))[1:3]]. *)
Definition thirds : M (Z * Z) :=
  do y0 <- attr (YCEN 0) ;
  do tbl <- gets iptcri ;
  do fin <- at_ tbl (-1) ;
  match np.round <$> np.linspace (inject_Z y0) (inject_Z fin) 4 with
  | [_; a; b; _] => ret (a, b)
  | _ => raise ValueError
  end.

Definition no_agb_msg : string :=
  "no eagb linspace between YCEN_0.000 and final track point".

(** [np.sort(ex_inds[np.asarray(mins)[np.argsort(diff_L[mins])[0:2]]])]
    unpacked into two values. *)
Definition two_deepest (ex_inds : list Z) (diff_L : list Q)
           (mins : list Z) : result (Z * Z) :=
  match np.take diff_L mins with
  | None => Raise IndexError
  | Some vals =>
      match mapM (fun i : nat => mins !! i) (take 2 (np.argsort vals)) with
      | None => Raise IndexError
      | Some min_inds =>
          match np.take ex_inds min_inds with
          | Some [a; b] => Ok (Z.min a b, Z.max a b)
          | Some _ => Raise ValueError
          | None => Raise IndexError
          end
      end
  end.

(** One of the two [while] loops of [add_agb_eeps] that drop minima
    lying in a thermal pulse; [i] counts down from 4 and is shared by
    both loops.  The result tells whether the loop ended by [break]. *)
Fixpoint tp_loop (in_tp : Z -> M bool) (second : bool)
         (ex_inds : list Z) (diff_L : list Q)
         (i : nat) (mins : list Z) (ly1 ly2 : Z) (m1 m2 : string)
  : M (nat * list Z * (Z * Z) * (string * string)) :=
  do c <- in_tp (if second then ly2 else ly1) ;
  if c then
    let mins' := slice_to mins (Z.of_nat i) in
    match two_deepest ex_inds diff_L mins' with
    | Raise _ =>
        do ' (a, b) <- thirds ;
        ret (i, mins', (a, b), (no_agb_msg, no_agb_msg))
    | Ok (a, b) =>
        match i with
        | S i' => tp_loop in_tp second ex_inds diff_L i' mins' a b m1 m2
        | O => raise IndexError
        end
    end
  else ret (i, mins, (ly1, ly2), (m1, m2)).

(** [add_agb_eeps]; the diagnostic plot is left out. *)
Definition add_agb_eeps : M (Z * Z) :=
  do ly <- gets (col LY) ;
  do lx <- gets (col LX) ;
  do a <- gets (col age) ;
  do alast <- at_ a (-1) ;
  let norm_gt := fun (k : Z) (b : Q) =>
                   do ak <- at_ a k ; ret (div_gt ak alast b) in
  let norm_lt := fun (k : Z) (b : Q) =>
                   do ak <- at_ a k ; ret (div_lt ak alast b) in
  do y <- gets (col ycen) ;
  let ex_inds := np.nonzero (fun v => Qeq_bool v 0) y in
  do lye <- takes ly ex_inds ;
  do lxe <- takes lx ex_inds ;
  let diff_L := zip_with (fun p q => Qabs (p - q)) lye lxe in
  let mins := slice_to (minima_locations (find_peaks ext diff_L)) 6 in
  do ' (ly1, ly2, (m1, m2)) <-
     (if bool_decide (length mins <= 2)%nat then
        do ' (p, q) <- thirds ;
        ret (p, q, (no_agb_msg, no_agb_msg))
      else
        do ' (ly1, ly2) <- lift (two_deepest ex_inds diff_L mins) ;
        let m1 := "first deepest min when ly == lx after YCEN_0.000" in
        let m2 := "second deepest mins when ly == lx after YCEN_0.000" in
        let adj := " adjusted to be outside of a TP" in
        do m0 <- at_ mins 0 ;
        do e0 <- at_ ex_inds m0 ;
        do young <- norm_lt e0 (89 # 100) ;
        do late1 <- (if young then norm_gt ly1 (98 # 100) else ret false) ;
        do ' (i, mins, (ly1, ly2), (m1, m2), sfx) <-
           (if late1 then
              do r <- tp_loop (fun k => norm_gt k (98 # 100)) false
                              ex_inds diff_L 4 mins ly1 ly2 m1 m2 ;
              ret (r, adj)
            else ret (4%nat, mins, (ly1, ly2), (m1, m2), "")) ;
        do late2 <- norm_gt ly2 (999 # 1000) ;
        do ' (_, _, (ly1, ly2), (m1, m2), sfx) <-
           (if late2 then
              do r <- tp_loop (fun k => norm_gt k (999 # 1000)) true
                              ex_inds diff_L i mins ly1 ly2 m1 m2 ;
              ret (r, adj)
            else ret (i, mins, (ly1, ly2), (m1, m2), sfx)) ;
        ret (ly1, ly2, (m1 +:+ sfx, m2 +:+ sfx))) ;
  do tbl <- gets iptcri ;
  do fin <- at_ tbl (-1) ;
  do ' (ly2, m2) <-
     (if fin <? ly2 then
        do ' (_, q) <- thirds ;
        ret (q, m2 +:+ " was past TPAGB re-adjusted.")
      else ret (ly2, m2)) ;
  do ' (ly1, m1) <-
     (if fin <? ly1 then
        do ' (p, _) <- thirds ;
        ret (p, m1 +:+ " was past TPAGB re-adjusted.")
      else ret (ly1, m1)) ;
  run add_eep AGB_LY1 ly1 (Text m1) ;
  run add_eep AGB_LY2 ly2 (Text m2) ;
  ret (ly1, ly2).


(** [delta_te_eeps], local to [add_ms_eeps] *)
Definition delta_te_eeps (before after : Z) : M Q :=
  do l <- gets (col logL) ;
  do b <- at_ l before ;
  do a <- at_ l after ;
  ret (Qabs (a - b)).

Definition ms_to_search (k : pf_kw) : M Z :=
  peak_finder logT (Named MS_TMIN) (Named RG_BMP1) k.

(** [add_ms_eeps]; the local [xcen = 0.3] of the source hides the column
    name of [config], which the embedding keeps apart. *)
Definition add_ms_eeps : M (Z * Z) :=
  do m <- gets mass ;
  do inds <- inds_between_ptcris MS_BEG POINT_C true ;
  do inds <-
     (if Qle_bool m (9 # 10) && Qle_bool (7 # 10) m
         && bool_decide (length inds = 0)%nat
      then
        do k <- get_ptcri_name MS_BEG true ;
        do sp <- gets sptcri ;
        do ind1 <- at_nat sp k ;
        do l <- gets (col logL) ;
        ret (np.arange ind1 (len l - 1))
      else ret inds) ;
  do ' (ms_tmin, message) <-
     (if bool_decide (length inds = 0)%nat then
        ret (0, Text "No points between MS_BEG and POINT_C")
      else
        do lt <- gets (col logT) ;
        do xdata <- takes lt inds ;
        do k <- argmin_ xdata ;
        do ms_tmin <- at_nat inds k ;
        do i0 <- at_ inds 0 ;
        do delta_te <- delta_te_eeps ms_tmin i0 ;
        if Qle_bool m (low_mass cfg) then
          do x <- gets (col xcen) ;
          do xi <- takes x inds ;
          do k <- argmin_ ((fun v => Qabs (v - (3 # 10))) <$> xi) ;
          do ms_tmin <- at_nat inds k ;
          ret (ms_tmin, Msg "XCEN==%.1f" [ArgQ (3 # 10)])
        else if np.Qltb delta_te (1 # 10) then
          do ms_tmin <- second_derivative xdata inds false ;
          ret (ms_tmin, Text "Min logT by interpolation")
        else ret (ms_tmin, Text "Min logT")) ;
  run add_eep MS_TMIN ms_tmin message ;
  do ' (ms_to, message) <-
     (if ms_tmin =? 0 then ret (0, Text "no MS_TMIN")
      else
        do inds <- inds_between_ptcris MS_TMIN RG_BMP1 false ;
        do lt <- gets (col logT) ;
        let eep2 := if bool_decide (length inds = 0)%nat
                    then "final track point" else "RG_BMP1" in
        let inds := if bool_decide (length inds = 0)%nat
                    then np.arange ms_tmin (len lt) else inds in
        do lti <- takes lt inds ;
        do k <- argmax_ lti ;
        do ms_to <- at_nat inds k ;
        let message :=
          Msg "Max logT between MS_TMIN and either %s" [ArgStr eep2] in
        do delta_te <- delta_te_eeps ms_to ms_tmin ;
        do ' (ms_to, message) <-
           (if Qle_bool m (low_mass cfg) || np.Qltb delta_te (1 # 100) then
              do ms_to <- ms_to_search
                            (kw (Some true) false "max of max" (Some false)
                                None) ;
              let message := Text "Max logT between MS_TMIN and RG_BMP1" in
              do delta_te <- delta_te_eeps ms_to ms_tmin ;
              do ' (ms_to, message) <-
                 (if (ms_to =? -1) || np.Qltb delta_te (1 # 100) then
                    do r <- ms_to_search
                              (kw (Some true) false "max of max"
                                  (Some false) (Some true)) ;
                    ret (r, Text
                      "Max logT between MS_TMIN and RG_BMP1 - linear fit")
                  else ret (ms_to, message)) ;
              if (ms_to =? -1) || np.Qltb delta_te (1 # 100) then
                do r <- ms_to_search
                          (kw (Some true) false "last" (Some false)
                              (Some false)) ;
                ret (r, Text "last logT Max between MS_TMIN and RG_BMP1")
              else ret (ms_to, message)
            else ret (ms_to, message)) ;
        do ' (ms_to, message) <-
           (if ms_to =? -1 then
              do ll <- gets (col logL) ;
              do xdata <- takes ll inds ;
              do ms_to <- second_derivative xdata inds false ;
              if ms_to =? -1 then
                do x <- gets (col xcen) ;
                do xi <- takes x inds ;
                do k <- at_ (np.nonzero (fun v => Qeq_bool v 0) xi) 0 ;
                do ms_to <- at_ inds k ;
                ret (ms_to, Text "XCEN==0 as last resort")
              else
                ret (ms_to, Text
                  "Min logL between MS_TMIN and RG_BMP1 by interpolation")
            else ret (ms_to, message)) ;
        if ms_to =? -1
        then ret (0, Text "No MS_TO found after four methods")
        else ret (ms_to, message)) ;
  run add_eep MS_TO ms_to message ;
  run (if ms_to =? 0 then
         do ms_beg <- entry MS_BEG ;
         do rows <- gets data ;
         let fin := len rows in
         let half_way := ms_beg + (fin - ms_beg) / 2 in
         run add_eep MS_TMIN half_way (Text "Half way from MS_BEG to Fin") ;
         do _ <- add_eep_with_age MS_TO (max_age cfg) ;
         ret tt
       else ret tt) ;
  ret (ms_tmin, ms_to).

(** [add_rg_minl_eep(track, eep1, eep2, more_than_one)] *)
Definition add_rg_minl_eep (eep1 eep2 : eep) (mto : string) : M Z :=
  do m <- gets mass ;
  let search := fun k => peak_finder logL (Named eep1) (Named eep2) k in
  do min_l <- search (kw None false mto None None) ;
  do ' (min_l, fit) <-
     (if (min_l =? -1) || np.Qltb m (low_mass cfg) then
        do r <- search (kw None false mto (Some false) (Some true)) ;
        ret (r, "less linear fit")
      else ret (min_l, "parametric interp")) ;
  do ' (min_l, fit) <-
     (if min_l =? -1 then
        do r <- search (kw None false mto (Some false) (Some false)) ;
        ret (r, "")
      else ret (min_l, fit)) ;
  run add_eep RG_MINL min_l
      (Msg "%s Min logL between %s and %s with %s"
           [ArgStr mto; ArgName eep1; ArgName eep2; ArgStr fit]) ;
  ret min_l.

(** [add_sg_maxl_eep(track, eep2)] *)
Definition add_sg_maxl_eep (eep2 : eep) : M Z :=
  do m <- gets mass ;
  if np.Qltb (inte_mass cfg) m then
    do rg_minl <- entry RG_MINL ;
    do msto <- entry MS_TO ;
    do a <- gets (col age) ;
    do a1 <- at_ a msto ;
    do a2 <- at_ a rg_minl ;
    let mean_age := ((a1 + a2) / 2)%Q in
    do max_l <- argmin_ ((fun x => Qabs (x - mean_age)) <$> a) ;
    run add_eep SG_MAXL (Z.of_nat max_l)
        (Text "Set SG_MAXL to be mean age between MS_TO and RG_MINL") ;
    ret (Z.of_nat max_l)
  else
    let extreme := if bool_decide (eep2 = RG_MINL)
                   then "max of max" else "last" in
    let search := fun lf =>
      peak_finder logL (Named MS_TO) (Named eep2)
                  (kw (Some true) false extreme (Some false) (Some lf)) in
    do max_l <- search false ;
    let message :=
      Msg "%s logL between MS_TO and %s" [ArgStr extreme; ArgName eep2] in
    do rg_minl <- entry RG_MINL ;
    do ' (max_l, message) <-
       (if (max_l =? -1) || (Z.abs (rg_minl - max_l) <? 10) then
          do r <- search true ;
          ret (r, Msg "%s logL MS_TO to %s less_linear_fit"
                      [ArgStr extreme; ArgName eep2])
        else ret (max_l, message)) ;
    do ' (max_l, message) <-
       (if Z.abs (rg_minl - max_l) <? 10 then
          do inds <- inds_between_ptcris MS_TO eep2 false ;
          do lt <- gets (col logT) ;
          do ll <- gets (col logL) ;
          do xs <- takes lt inds ;
          do ys <- takes ll inds ;
          let non_dupes := remove_dupes ext xs ys in
          do xdata <- takes xs non_dupes ;
          do ydata <- takes ys non_dupes ;
          let ' (m_, bb) := polyfit1 ext xdata ydata in
          let resid := zip_with (fun x y => y - (m_ * x + bb))%Q
                                xdata ydata in
          let maxs := maxima_locations (find_peaks ext resid) in
          do xm <- takes xdata maxs ;
          do k <- argmax_ xm ;
          do mk <- at_nat maxs k ;
          do nd <- at_ non_dupes mk ;
          do r <- at_ inds nd ;
          ret (r, Text "Hacked SG_MAXL because it was too close to RG_MINL")
        else ret (max_l, message)) ;
    do msto <- entry MS_TO ;
    do ' (max_l, message) <-
       (if max_l =? msto then
          do x <- gets (col xcen) ;
          do _ <- at_ x msto ;
          ret (-1, Text "SG_MAXL is at MS_TO")
        else ret (max_l, message)) ;
    run add_eep SG_MAXL max_l message ;
    ret max_l.

(** [True in check_minl(imin_l, msto, track)], local to
    [add_sg_rg_eeps] *)
Definition check_minl (imin_l msto : Z) : M bool :=
  do sp <- gets sptcri ;
  do s7 <- at_ sp 7 ;
  do x <- gets (col xcen) ;
  do xi <- at_ x imin_l ;
  ret ((imin_l - msto <? 50) || (imin_l =? -1)
       || (100 <? Z.abs (imin_l - s7)) || (0 <? np.round (xi * 10000))).

(** The first retry loop of [add_sg_rg_eeps]; [policies] is what is left
    of [more_than_ones] from position [i] on, so that [i == 3] is the
    empty list. *)
Fixpoint minl_loop1 (msto : Z) (policies : list string) (imin_l : Z)
  : M (Z * list string) :=
  do c <- check_minl imin_l msto ;
  if c then
    match policies with
    | [] => ret (imin_l, [])
    | p :: ps =>
        do imin_l <- add_rg_minl_eep MS_TO RG_BMP1 p ;
        minl_loop1 msto ps imin_l
    end
  else ret (imin_l, policies).

(** The second retry loop; the statement [i == 0] before it compares and
    assigns nothing, so the loop goes on from where the first ended. *)
Fixpoint minl_loop2 (msto : Z) (policies : list string) (imin_l : Z)
  : M Z :=
  do c <- check_minl imin_l msto ;
  if c then
    match policies with
    | [] => ret imin_l
    | p :: ps =>
        do _ <- add_sg_maxl_eep RG_BMP1 ;
        do imin_l <- add_rg_minl_eep SG_MAXL RG_BMP1 p ;
        minl_loop2 msto ps imin_l
    end
  else ret imin_l.

Definition set_rg_base : M Z :=
  do sp <- gets sptcri ;
  do s7 <- at_ sp 7 ;
  run add_eep RG_MINL s7 (Text "Set RG_MINL to Sandro's RG_BASE") ;
  ret s7.

Definition add_sg_rg_eeps : M unit :=
  do msto <- entry MS_TO ;
  do imin_l <- add_rg_minl_eep MS_TO RG_BMP1 "last" ;
  do ' (imin_l, rest) <-
     minl_loop1 msto ["last"; "first"; "min of min"] imin_l ;
  do imin_l <- minl_loop2 msto rest imin_l ;
  do c <- check_minl imin_l msto ;
  do imin_l <- (if c then set_rg_base else ret imin_l) ;
  do c <- check_minl imin_l msto ;
  do imin_l <- (if negb c then set_rg_base else ret imin_l) ;
  do imax_l <- add_sg_maxl_eep RG_MINL ;
  do imax_l <- (if imax_l <=? 0 then add_sg_maxl_eep RG_BMP1
                else ret imax_l) ;
  if imax_l =? -1 then check_for_monotonic_increase else ret tt.


(** [add_msbeg], local to [add_high_mass_eeps] *)
Definition add_msbeg (start end_ : eep) : M Z :=
  do z <- gets Z_ ;
  run (if np.Qltb z (4 # 1000) then
         do pms_end <- peak_finder logL (Named PMS_MIN) (Named NEAR_ZAM)
                         (kw (Some true) true "last" (Some false) None) ;
         add_eep PMS_END pms_end
           (Text "PMS_END fixed by max L between PMS_MIN and MS_BEG")
       else ret tt) ;
  do ms_beg <- peak_finder logL (Named start) (Named end_)
                 (kw (Some false) false "min of min" None None) ;
  do ' (ms_beg, sfx) <-
     (if ms_beg =? -1 then
        do r <- peak_finder logL (Named start) (Named end_)
                  (kw (Some false) false "min of min" (Some false) None) ;
        ret (r, " without parametric")
      else ret (ms_beg, "")) ;
  run add_eep MS_BEG ms_beg
      (Msg ("Min logL between %s and %s" +:+ sfx)
           [ArgName start; ArgName end_]) ;
  ret ms_beg.

(** [add_mstmin], local to [add_high_mass_eeps] *)
Definition add_mstmin (start end_ : Z) (message : msg) : M Z :=
  do ms_tmin <- peak_finder logT (At start) (At end_)
                  (kw (Some false) false "min of min" (Some false) None) ;
  run add_eep MS_TMIN ms_tmin message ;
  ret ms_tmin.

(** [cens[-1] = v] *)
Definition set_last (l : list Z) (v : Z) : list Z :=
  <[(length l - 1)%nat := v]> l.

(** The first step of [add_high_mass_eeps]: MS_TO, where central
    hydrogen first reads 0. *)
Definition high_mass_ms_to : M Z :=
  do x <- gets (col xcen) ;
  do ms_to <- at_ (np.nonzero (fun v => Qeq_bool v 0) x) 0 ;
  run add_eep MS_TO ms_to (Text "XCEN==0") ;
  ret ms_to.

(** The part of [add_high_mass_eeps] that places MS_BEG and MS_TMIN. *)
Definition high_mass_ms (ms_to : Z) : M (Z * Z) :=
  do z <- gets Z_ ;
  do ' (ms_beg, ms_tmin) <-
     (if np.Qltb (1 # 100) z then
        do sp <- gets sptcri ;
        do pms_end <- at_ sp 2 ;
        do ms_tmin <- add_mstmin pms_end ms_to
                        (Msg "Min logT between %s, %s"
                             [ArgName PMS_END; ArgName MS_TO]) ;
        do ms_beg <- add_msbeg PMS_END MS_TMIN ;
        ret (ms_beg, ms_tmin)
      else
        do ms_beg <- add_msbeg PMS_END MS_TO ;
        do ms_tmin <- add_mstmin ms_beg ms_to
                        (Msg "Min logT between %s, %s"
                             [ArgName MS_BEG; ArgName MS_TO]) ;
        ret (ms_beg, ms_tmin)) ;
  do ms_tmin <-
     (if ms_tmin =? -1 then
        do a <- gets (col age) ;
        do a1 <- at_ a ms_to ;
        do a2 <- at_ a ms_beg ;
        let halfway := ((a1 + a2) / 2)%Q in
        do k <- argmin_ ((fun v => Qabs (v - halfway)) <$> a) ;
        run add_eep MS_TMIN (Z.of_nat k)
            (Text "halfway in age between MS_BEG and MS_TO") ;
        ret (Z.of_nat k)
      else ret ms_tmin) ;
  ret (ms_beg, ms_tmin).

(** The rest of [add_high_mass_eeps]. *)
Definition high_mass_rest (ms_beg ms_tmin ms_to : Z) : M (list Z) :=
  do ll <- gets (col logL) ;
  let fin := len ll - 1 in
  do cens <- add_cen_eeps false (1 # 100) (Some ms_to) ;
  do y <- gets (col ycen) ;
  do c2 <- at_ cens (-2) ;
  do yc <- at_ y c2 ;
  do cens <-
     (if Qeq_bool yc 0 then
        let v := (c2 + fin) / 2 in
        run add_eep (YCEN 0) v
            (Text "Reset between YCEN=0.005 and final point") ;
        ret (set_last cens v)
      else ret cens) ;
  do c0 <- at_ cens 0 ;
  do heb_beg <- add_quiesscent_he_eep (Raw ms_to c0) ;
  run add_eep TPAGB fin (Text "Last track value") ;
  match np.round <$> np.linspace (inject_Z ms_to) (inject_Z heb_beg) 7 with
  | [_; sg_maxl; rg_minl; rg_bmp1; rg_bmp2; rg_tip; _] =>
      let message := Text "linspace between MS_TO, HE_BEG" in
      run add_eep SG_MAXL sg_maxl message ;
      run add_eep RG_MINL rg_minl message ;
      run add_eep RG_BMP1 rg_bmp1 message ;
      run add_eep RG_BMP2 rg_bmp2 message ;
      run add_eep RG_TIP rg_tip message ;
      do _ <- add_agb_eeps ;
      let eeps := [ms_beg; ms_tmin; ms_to; sg_maxl; rg_minl; rg_bmp1;
                   rg_bmp2; rg_tip; heb_beg] ++ cens ++ [fin] in
      let test := np.nonzero (fun d => d <=? 0) (np.diff eeps) in
      run (if bool_decide (0 < length test)%nat
           then check_for_monotonic_increase else ret tt) ;
      do clast <- at_ cens (-1) ;
      do m <- gets mass ;
      run (if fin <=? clast then
             modify (fun t => with_flag t (Some (Msg
               "final point on track is cut before final ycen M=%.3f"
               [ArgQ m])))
           else ret tt) ;
      ret ([ms_beg; ms_tmin; ms_to; heb_beg] ++ cens ++ [fin])
  | _ => raise ValueError
  end.

Definition add_high_mass_eeps : M (list Z) :=
  do ms_to <- high_mass_ms_to ;
  do ' (ms_beg, ms_tmin) <- high_mass_ms ms_to ;
  high_mass_rest ms_beg ms_tmin ms_to.

Definition hb_eeps : M unit :=
  do _ <- add_hb_beg ;
  do _ <- add_cen_eeps true (1 # 100) None ;
  do _ <- add_agb_eeps ;
  ret tt.

(** The test on Sandro's MS_BEG in [define_eep_stages].  The handler of
    its [try] ends in the undefined name [d]. *)
Definition ms_beg_warning : M unit :=
  do sp <- gets sptcri ;
  do x <- gets (col xcen) ;
  do m <- gets mass ;
  do suspicious <-
     (if len sp <=? 4 then ret true
      else do s4 <- at_ sp 4 ;
           do x4 <- at_ x s4 ;
           ret (np.Qltb x4 (6 # 10))) ;
  if suspicious then
    run match s4 ← np.index sp 4; np.index x s4 with
        | Some x4 =>
            modify (fun t => with_info t
              ((MS_BEG, Msg
                 "Sandro's MS_BEG but could be wrong XCEN < 0.6, %.f"
                 [ArgQ x4]) :: info t))
        | None =>
            match np.nonzero (fun v => Qeq_bool v m) (masses ptcri) with
            | [_] => raise NameError
            | _ => raise ValueError
            end
        end ;
    if Qle_bool m (low_mass cfg)
    then do _ <- add_ms_beg_eep (6 # 10) ; ret tt
    else ret tt
  else ret tt.

(** The branch of [define_eep_stages] for tracks without MS_TO; the
    local [age] of the source hides the column name of [config], which
    the embedding keeps apart. *)
Definition low_mass_eeps : M unit :=
  run for_each (fun cp => add_eep cp 0 (Text "No MS_TO"))
               (please_define ptcri) ;
  do ims_beg <- entry MS_BEG ;
  do ' (ims_to, age_) <- add_eep_with_age MS_TO (max_age cfg) ;
  do ' (ims_tmin, _) <- add_eep_with_age MS_TMIN (age_ / 2) ;
  if ims_tmin <=? ims_beg then
    do a <- gets (col age) ;
    do a1 <- at_ a ims_to ;
    do a2 <- at_ a ims_beg ;
    do _ <- add_eep_with_age MS_TMIN ((a1 + a2) / 2) ;
    ret tt
  else ret tt.

(** The branch of [define_eep_stages] for intermediate masses. *)
Definition intermediate_eeps (nsandro_pts : nat) : M unit :=
  do _ <- add_ms_eeps ;
  run add_eep HE_BEG 0 (Text "Initializing") ;
  do cens <- add_cen_eeps false (1 # 100) None ;
  do c0 <- at_ cens 0 ;
  do ihe_beg <-
     (if negb (c0 =? 0) then
        do _ <- add_quiesscent_he_eep (Names RG_TIP (YCEN 550)) ;
        entry HE_BEG
      else ret 0) ;
  run (if (ihe_beg =? 0) || bool_decide (nsandro_pts <= 10)%nat then
         for_each (fun cp => add_eep cp 0 (Text "no He EEPs"))
                  (drop 5 (please_define ptcri))
       else ret tt) ;
  run add_sg_rg_eeps ;
  do _ <- add_agb_eeps ;
  ret tt.

(** What [define_eep_stages] does after the TP-AGB markers. *)
Definition dispatch (hb_ : bool) (nsandro_pts : nat) : M unit :=
  if hb_ then
    run hb_eeps ;
    check_for_monotonic_increase
  else
    run check_pms_beg ;
    run ms_beg_warning ;
    do m <- gets mass ;
    do sp <- gets sptcri ;
    if Qle_bool (high_mass cfg) m then
      do _ <- add_high_mass_eeps ;
      check_for_monotonic_increase
    else if len sp <=? 6 then
      run low_mass_eeps ;
      check_for_monotonic_increase
    else
      run intermediate_eeps nsandro_pts ;
      check_for_monotonic_increase.

(** [define_eep_stages(track, hb)] *)
Definition define_eep_stages (hb_ : bool) : M unit :=
  run modify (fun t => with_info t []) ;
  run for_each (fun cp => add_eep cp 0 (Text "no info"))
               (please_define ptcri) ;
  do sp <- gets sptcri ;
  let nsandro_pts := length (np.nonzero (fun v => negb (v =? 0)) sp) in
  do ag <- gets agb ;
  run (if ag then add_tpagb_eeps else ret tt) ;
  dispatch hb_ nsandro_pts.


Definition get_dict : M (gmap string (list Z)) :=
  fun s => Ok (data_dict s, s).

Definition put_dict (d : gmap string (list Z)) : M unit :=
  fun s => Ok (tt, {| track := track s; data_dict := d;
                      searches := searches s |}).

(** [a[inds] = vals] for arrays of equal length, or a single value. *)
Definition assign (a : list Z) (inds : list nat) (vals : list Z)
  : result (list Z) :=
  if bool_decide (Forall (fun i => i < length a)%nat inds) then
    if bool_decide (length inds = length vals) then
      Ok (foldl (fun acc p => <[fst p := snd p]> acc) a (zip inds vals))
    else match vals with
         | [v] => Ok (foldl (fun acc i => <[i := v]> acc) a inds)
         | _ => Raise ValueError
         end
  else Raise IndexError.

Definition positions_in (l other : list eep) : list nat :=
  fst <$> filter (fun p => snd p ∈ other) (zip (seq 0 (length l)) l).

(** The part of [load_critical_points] that matches Sandro's model
    numbers [mptcri] to the samples and repairs a track cut by one
    sample; it yields [mptcri] as it is afterwards. *)
Definition load_sandro (key : string) (mptcri : list Z) : M (list Z) :=
  do rows <- gets data ;
  do sp <- match mptcri with
           | [] => raise ValueError
           | _ => ret (concat ((fun m =>
                         np.nonzero (fun r => r_MODE r =? m) rows)
                       <$> mptcri))
           end ;
  run modify (fun t => with_sptcri t sp) ;
  let nvalid := len (np.nonzero (fun v => negb (v =? 0)) mptcri) in
  if negb (len sp =? nvalid) then
    if nvalid - len sp =? 1 then
      run modify (fun t => with_sptcri t (sp ++ [len rows - 1])) ;
      let mptcri' := set_last mptcri (len rows + 1) in
      do d <- get_dict ;
      run put_dict (<[key := mptcri']> d) ;
      ret mptcri'
    else
      run modify (fun t => with_flag t (Some (Text
            "ptcri file does not match track, not enough MODEs"))) ;
      do m <- gets mass ;
      match np.nonzero (fun v => Qeq_bool v m) (masses ptcri) with
      | [_] =>
          do d <- get_dict ;
          run put_dict (fix_ptcri ext d m) ;
          ret mptcri
      | _ => raise ValueError
      end
  else ret mptcri.

(** [load_critical_points(track, ptcri, hb)]; the table [ptcri] is the
    one of the section, and has no attributes [Z] and [Y] to compare. *)
Definition load_critical_points (hb_ : bool) : M unit :=
  do f <- gets flag ;
  match f with
  | Some _ => ret tt
  | None =>
      do m <- gets mass ;
      do d <- get_dict ;
      let key := mass_key ext m in
      match d !! key with
      | None => modify (fun t => with_flag t (Some (Text "no ptcri mass")))
      | Some mptcri =>
          do mptcri <- load_sandro key mptcri ;
          if bool_decide (0 < length (please_define ptcri))%nat then
            let tbl := replicate (length (eep_list ptcri)) 0 in
            let pinds := positions_in (eep_list ptcri) (sandro_eeps ptcri) in
            let sinds := positions_in (sandro_eeps ptcri) (eep_list ptcri) in
            do tbl <-
               (if bool_decide (0 < length pinds)%nat
                   && bool_decide (0 < length sinds)%nat then
                  do vals <- lift (expect IndexError
                               (mapM (fun i : nat => mptcri !! i) sinds)) ;
                  lift (assign tbl pinds ((fun v => v - 2) <$> vals))
                else ret tbl) ;
            let tbl := (fun v => if v <? 0 then 0 else v) <$> tbl in
            do rows <- gets data ;
            let tbl := (fun v => if len rows <? v then 0 else v) <$> tbl in
            run modify (fun t => with_table t tbl) ;
            define_eep_stages hb_
          else
            do d <- get_dict ;
            do tbl <- lift (expect KeyError (d !! key)) ;
            modify (fun t => with_table t tbl)
      end
  end.

(** One pass of [check_sandros_eeps]: the EEP to move and its new
    index, or nothing when the pass returns without moving one
    (the indices are spread enough, or the track is flagged).  The
    method stands in the class [InDevelopment] and calls [self.add_eep]
    and [self.ptcri], which are those of [DefineEeps]: it is modelled on
    an object that has both, with the catalogue of [Eep()] being
    [eep_list].  [before = same - 1] is read as numpy reads it, from the
    end of the array when [same] is 0. *)
Definition sandro_move : M (option (eep * Z * eep)) :=
  do tbl <- gets iptcri ;
  let inds := np.nonzero (fun v => 0 <? v) tbl in
  do idefined <- takes tbl inds ;
  do defined <- takes (eep_list ptcri) inds ;
  do mn <- lift (expect ValueError (np.minZ (np.diff idefined))) ;
  if mn <=? 1 then
    do same <- lift (expect ValueError (np.argminZ (np.diff idefined))) ;
    do isame <- at_nat idefined same ;
    let after := Z.of_nat same + 1 in
    do iafter <- at_ idefined after ;
    let before := Z.of_nat same - 1 in
    do ibefore <- at_ idefined before ;
    do dsame <- at_nat defined same ;
    if iafter - ibefore <? 5 then
      do dbefore <- at_ defined before ;
      do kb <- lift (expect ValueError (index_of dbefore (eep_list ptcri))) ;
      do earlier <- at_ (eep_list ptcri) (Z.of_nat kb - 1) ;
      do dafter <- at_ defined after ;
      do ka <- lift (expect ValueError (index_of dafter (eep_list ptcri))) ;
      do later <- at_ (eep_list ptcri) (Z.of_nat ka + 1) ;
      do iearlier <- entry earlier ;
      do ilater <- entry later ;
      if ilater - iearlier <? 9 then
        run modify (fun t => with_flag t (Some (Text
              "Track is unworkable. Check Sandro's eeps"))) ;
        ret None
      else if iafter - isame <? isame - ibefore
      then ret (Some (dafter, iafter + 1, dsame))
      else ret (Some (dbefore, ibefore - 1, dsame))
    else
      if iafter - isame <? isame - ibefore
      then ret (Some (dsame, isame - 1, dsame))
      else ret (Some (dsame, isame + 1, dsame))
  else ret None.

(** [check_sandros_eeps]; [depth] bounds the recursion as the
    interpreter does. *)
Fixpoint check_sandros_eeps (depth : nat) : M unit :=
  match depth with
  | O => raise RuntimeError
  | S depth' =>
      do mv <- sandro_move ;
      match mv with
      | None => ret tt
      | Some (inew_name, inew, dsame) =>
          run add_eep inew_name inew
              (Msg "%s too close, moved this one away" [ArgName dsame]) ;
          do tbl <- gets iptcri ;
          do mn <- lift (expect ValueError (np.minZ (np.diff tbl))) ;
          if mn <=? 1 then check_sandros_eeps depth' else ret tt
      end
  end.

End DefineEeps.

(** * Worked tracks

    A catalogue, plain renditions of the collaborators and a few small
    tracks, on which the definitions above are run. *)

Module Example.

(** The catalogue of the class documentation, Sandro's names in the
    order the module indexes them ([sptcri[2]] is PMS_END, [sptcri[4]]
    MS_BEG, [sptcri[7]] RG_BASE), and the names left to define. *)
Definition catalogue : critical_point :=
  {| eep_list := [PMS_BEG; PMS_MIN; PMS_END; MS_BEG; MS_TMIN; MS_TO;
                  SG_MAXL; RG_MINL; RG_BMP1; RG_BMP2; RG_TIP; HE_BEG;
                  YCEN 550; YCEN 500; YCEN 400; YCEN 200; YCEN 100;
                  YCEN 5; YCEN 0; AGB_LY1; AGB_LY2; TPAGB];
     sandro_eeps := [PMS_BEG; PMS_MIN; PMS_END; NEAR_ZAM; MS_BEG;
                     POINT_B; POINT_C; RG_BASE; RG_BMP1; RG_BMP2;
                     RG_TIP; Other "Loop_A"; Other "Loop_B";
                     Other "Loop_C"; TPAGB];
     please_define := [MS_TMIN; MS_TO; SG_MAXL; RG_MINL; HE_BEG;
                       YCEN 550; YCEN 500; YCEN 400; YCEN 200;
                       YCEN 100; YCEN 5; YCEN 0; AGB_LY1; AGB_LY2];
     masses := [20%Q] |}.

Definition thresholds : config :=
  {| low_mass := 12 # 10; inte_mass := 12; high_mass := 19;
     max_age := 10e10 |}.

(** Local extrema by sign changes of the first difference. *)
Fixpoint extrema_from (i : Z) (l : list Q) : list Z * list Z :=
  match l with
  | a :: l' =>
      match l' with
      | b :: c :: _ =>
          let ' (mx, mn) := extrema_from (i + 1) l' in
          if np.Qltb a b && np.Qltb c b then ((i + 1) :: mx, mn)
          else if np.Qltb b a && np.Qltb b c then (mx, (i + 1) :: mn)
          else (mx, mn)
      | _ => ([], [])
      end
  | [] => ([], [])
  end.

Definition peaks (l : list Q) : peak_dict :=
  let ' (mx, mn) := extrema_from 0 l in
  {| maxima_locations := mx; minima_locations := mn |}.

Definition pick (policy : string) (vals : list Q) (cands : list Z)
  : option Z :=
  let v := fun i : Z => default 0%Q (np.index vals i) in
  if bool_decide (policy = "last") then last cands
  else if bool_decide (policy = "first") then head cands
  else if bool_decide (policy = "min of min") then
    (fun k : nat => default 0 (cands !! k)) <$> np.argmin (v <$> cands)
  else
    (fun k : nat => default 0 (cands !! k)) <$> np.argmax (v <$> cands).

(** An extremum of the column strictly between two raw indices, or -1. *)
Definition search (rows : list Row) (c : column) (i1 i2 : option Z)
           (k : pf_kw) : result Z :=
  match i1, i2 with
  | Some i1, Some i2 =>
      let lo := Z.max 0 i1 in
      let seg := take (Z.to_nat (i2 - lo + 1))
                      (drop (Z.to_nat lo) (field c <$> rows)) in
      let p := peaks seg in
      let cands := if default false (get_max k)
                   then maxima_locations p else minima_locations p in
      match pick (more_than_one k) seg cands with
      | Some j => Ok (lo + j)
      | None => Ok (-1)
      end
  | _, _ => Raise IndexError
  end.

Definition helpers : collaborators :=
  {| pf_search := search;
     between := fun i1 i2 => Ok (np.arange (default 0 i1) (default 0 i2));
     spline_root := fun _ _ _ => Ok None;
     find_peaks := peaks;
     remove_dupes := fun xs _ => np.arange 0 (len xs);
     polyfit1 := fun _ _ => (0%Q, 0%Q);
     mass_key := fun _ => "M20.000";
     fix_ptcri := fun d _ => d |}.

Definition blank : Row :=
  {| r_age := 0; r_logL := 0; r_logT := 0; r_xcen := 0; r_ycen := 0;
     r_LY := 0; r_LX := 0; r_MODE := 0; r_step := 0 |}.

Definition start (rows : list Row) (tbl : list Z) : St :=
  {| track := {| data := rows; mass := 1; Z_ := 1 # 100; Y_ := 25 # 100;
                 hb := false; agb := false; sptcri := []; iptcri := tbl;
                 info := []; flag := None; attrs := [] |};
     data_dict := ∅; searches := [] |}.

(** Central helium falling linearly from 0.6 to 0 over the samples
    0..99. *)
Definition ramp : list Row :=
  (fun i : nat =>
     {| r_age := 0; r_logL := 0; r_logT := 0; r_xcen := 0;
        r_ycen := (6 # 10) * inject_Z (99 - Z.of_nat i) / 99;
        r_LY := 0; r_LX := 0; r_MODE := 0; r_step := 0 |})
    <$> seq 0 100.

Definition of_ycen (ys : list Q) : list Row :=
  (fun y => {| r_age := 0; r_logL := 0; r_logT := 0; r_xcen := 0;
               r_ycen := y; r_LY := 0; r_LX := 0; r_MODE := 0;
               r_step := 0 |}) <$> ys.

(** Central helium that flares up again: 0.55 is met at sample 5, 0.5
    nowhere later, and 0.4 at sample 2. *)
Definition flare : list Row :=
  of_ycen [6 # 10; 6 # 10; 4 # 10; 6 # 10; 6 # 10; 55 # 100; 3 # 10;
           3 # 10].

(** The outcome of a run that is known to return. *)
Definition outcome {A} (r : result (A * St)) (d : A * St) : A * St :=
  match r with Ok x => x | Raise _ => d end.

Definition ramp_start : St := start ramp (replicate 22 0).

Definition ramp_run : list Z * St :=
  outcome (add_cen_eeps catalogue true (1 # 100) None ramp_start)
          ([], ramp_start).

Definition flare_start : St := start flare (replicate 22 0).

Definition flare_run : list Z * St :=
  outcome (add_cen_eeps catalogue true (1 # 100) None flare_start)
          ([], flare_start).

(** A track of 40 samples, of 20 solar masses.  Central hydrogen runs
    out at sample 13 (its values at the samples 10..15 are 0.2, 0.1,
    0.05, 0, 0, 0); the luminosity rises throughout, so that a search for
    an extremum of it finds none; the temperature has its one minimum at
    sample 8; the helium luminosity has its minimum at sample 19; central
    helium falls from sample 21 on and is used up at sample 34. *)
Definition hm_ycen (i : Z) : Q :=
  if i <? 21 then 98 # 100
  else if 34 <=? i then 0
  else default 0%Q
         ([7 # 10; 55 # 100; 52 # 100; 5 # 10; 45 # 100; 4 # 10; 3 # 10;
           2 # 10; 15 # 100; 1 # 10; 5 # 100; 5 # 1000; 2 # 1000]
            !! Z.to_nat (i - 21)).

Definition hm_xcen (i : Z) : Q :=
  if i <? 10 then 7 # 10
  else if i =? 10 then 2 # 10
  else if i =? 11 then 1 # 10
  else if i =? 12 then 5 # 100
  else 0.

Definition hm_row (tp : Z) (i : Z) : Row :=
  {| r_age := inject_Z (i + 1);
     r_logL := inject_Z i / 10;
     r_logT := inject_Z (Z.abs (i - 8)) / 10;
     r_xcen := hm_xcen i;
     r_ycen := hm_ycen i;
     r_LY := inject_Z (Z.abs (i - 19) + 1);
     r_LX := 0;
     r_MODE := i + 2;
     r_step := if i =? tp then 1 else 0 |}.

Definition hm_rows (tp : Z) : list Row :=
  (fun i : nat => hm_row tp (Z.of_nat i)) <$> seq 0 40.

(** Sandro's model numbers for it, in the order of [sandro_eeps]; the
    three loop points are absent. *)
Definition hm_mptcri : list Z :=
  [3; 4; 5; 6; 7; 11; 13; 16; 17; 18; 19; 0; 0; 0; 41].

Definition hm_start (z : Q) (is_agb : bool) (tp : Z) : St :=
  {| track := {| data := hm_rows tp; mass := 20; Z_ := z; Y_ := 25 # 100;
                 hb := false; agb := is_agb; sptcri := []; iptcri := [];
                 info := []; flag := None; attrs := [] |};
     data_dict := {[ "M20.000" := hm_mptcri ]};
     searches := [] |}.

(** The same track as [load_critical_points] hands it to
    [define_eep_stages]: Sandro's indices matched, the table
    initialised. *)
Definition hm_loaded (z : Q) : St :=
  {| track := {| data := hm_rows (-1); mass := 20; Z_ := z; Y_ := 25 # 100;
                 hb := false; agb := false;
                 sptcri := [1; 2; 3; 4; 5; 9; 11; 14; 15; 16; 17; 39];
                 iptcri := [1; 2; 3; 5; 0; 0; 0; 0; 15; 16; 17; 0; 0; 0; 0;
                            0; 0; 0; 0; 0; 0; 39];
                 info := []; flag := None; attrs := [] |};
     data_dict := {[ "M20.000" := hm_mptcri ]};
     searches := [] |}.

(** A track of 2 solar masses over the same samples, but for the
    temperature, which after its minimum at sample 8 rises to a maximum
    at sample 11 and falls from there on. *)
Definition im_rows : list Row :=
  (fun i : nat =>
     let r := hm_row (-1) (Z.of_nat i) in
     {| r_age := r_age r; r_logL := r_logL r;
        r_logT := if Z.of_nat i <=? 11 then r_logT r
                  else (3 # 10) - inject_Z (Z.of_nat i - 11) / 100;
        r_xcen := r_xcen r; r_ycen := r_ycen r; r_LY := r_LY r;
        r_LX := r_LX r; r_MODE := r_MODE r; r_step := r_step r |})
    <$> seq 0 40.

Definition im_loaded : St :=
  {| track := {| data := im_rows; mass := 2; Z_ := 2 # 100; Y_ := 25 # 100;
                 hb := false; agb := false;
                 sptcri := [1; 2; 3; 4; 5; 9; 11; 14; 15; 16; 17; 39];
                 iptcri := [1; 2; 3; 5; 0; 0; 0; 0; 15; 16; 17; 0; 0; 0; 0;
                            0; 0; 0; 0; 0; 0; 39];
                 info := []; flag := None; attrs := [] |};
     data_dict := {[ "M20.000" := hm_mptcri ]};
     searches := [] |}.

Definition im_run : unit * St :=
  outcome (define_eep_stages thresholds helpers catalogue false im_loaded)
          (tt, im_loaded).

(** The catalogue with the two further thermal-pulse markers of an AGB
    track, and the 20 solar mass track with a thermal-pulse phase that
    starts at sample 35. *)
Definition catalogue_agb : critical_point :=
  {| eep_list := eep_list catalogue ++ [TPAGB_n 1; TPAGB_n 2];
     sandro_eeps := sandro_eeps catalogue;
     please_define := please_define catalogue;
     masses := masses catalogue |}.

Definition agb_loaded : St :=
  {| track := {| data := hm_rows 35; mass := 20; Z_ := 2 # 100;
                 Y_ := 25 # 100; hb := false; agb := true;
                 sptcri := [1; 2; 3; 4; 5; 9; 11; 14; 15; 16; 17; 39];
                 iptcri := [1; 2; 3; 5; 0; 0; 0; 0; 15; 16; 17; 0; 0; 0; 0;
                            0; 0; 0; 0; 0; 0; 39; 0; 0];
                 info := []; flag := None; attrs := [] |};
     data_dict := {[ "M20.000" := hm_mptcri ]};
     searches := [] |}.

Definition agb_run : unit * St :=
  outcome (define_eep_stages thresholds helpers catalogue_agb false
             agb_loaded)
          (tt, agb_loaded).

(** The track as the markers alone leave it. *)
Definition agb_marked : unit * St :=
  outcome (add_tpagb_eeps catalogue_agb agb_loaded) (tt, agb_loaded).

(** The subgiant maximum searched for again on the intermediate-mass
    track, once its table is defined. *)
Definition im_sg_maxl : Z * St :=
  outcome (add_sg_maxl_eep thresholds helpers catalogue RG_MINL (snd im_run))
          (0, snd im_run).

(** The 20 solar mass track before Sandro's model numbers [mp] are
    matched to its samples. *)
Definition cut_start (mp : list Z) : St :=
  {| track := {| data := hm_rows (-1); mass := 20; Z_ := 2 # 100;
                 Y_ := 25 # 100; hb := false; agb := false; sptcri := [];
                 iptcri := []; info := []; flag := None; attrs := [] |};
     data_dict := {[ "M20.000" := mp ]};
     searches := [] |}.

(** Model numbers whose last one, 42, lies one past the last model of
    the track; model numbers of which two lie past it. *)
Definition cut_by_one : list Z :=
  [3; 4; 5; 6; 7; 11; 13; 16; 17; 18; 19; 0; 0; 0; 42].

Definition cut_by_two : list Z :=
  [3; 4; 5; 6; 7; 11; 13; 16; 17; 18; 60; 0; 0; 0; 61].

Definition cut_run (mp : list Z) : unit * St :=
  outcome (load_critical_points thresholds helpers catalogue false
             (cut_start mp))
          (tt, cut_start mp).

(** Four samples whose model numbers start at 0, and the outcome of
    matching the model numbers 1, 2 and 0 to them. *)
Definition from_zero : St :=
  {| track := {| data := (fun i : nat =>
                            {| r_age := 0; r_logL := 0; r_logT := 0;
                               r_xcen := 0; r_ycen := 0; r_LY := 0;
                               r_LX := 0; r_MODE := Z.of_nat i;
                               r_step := 0 |}) <$> seq 0 4;
                 mass := 20; Z_ := 2 # 100; Y_ := 25 # 100; hb := false;
                 agb := false; sptcri := []; iptcri := []; info := [];
                 flag := None; attrs := [] |};
     data_dict := {[ "M20.000" := [1; 2; 0] ]};
     searches := [] |}.

Definition from_zero_run : list Z * St :=
  outcome (load_sandro helpers catalogue "M20.000" [1; 2; 0] from_zero)
          ([], from_zero).

(** A table whose first entries are [l], on no samples, and
    [check_sandros_eeps] run on it. *)
Definition close (l : list Z) : St :=
  start [] (l ++ replicate (22 - length l) 0).

Definition close_run (l : list Z) : unit * St :=
  outcome (check_sandros_eeps catalogue 5 (close l)) (tt, close l).

Definition hm_run (z : Q) : unit * St :=
  outcome (define_eep_stages thresholds helpers catalogue false (hm_loaded z))
          (tt, hm_loaded z).

Definition hm_high (z : Q) : list Z * St :=
  outcome (add_high_mass_eeps helpers catalogue (hm_loaded z))
          ([], hm_loaded z).

(** One entry written on the ramp. *)
Definition ramp_written : unit * St :=
  outcome (add_eep catalogue MS_TO 7 (Text "XCEN==0") ramp_start)
          (tt, ramp_start).

(** Eight samples a tenth of a year apart, the first of age 0, with
    [first] as Sandro's first index. *)
Definition young (first : Z) : St :=
  {| track := {| data := (fun i : nat =>
                            {| r_age := inject_Z (Z.of_nat i) / 10;
                               r_logL := 0; r_logT := 0; r_xcen := 0;
                               r_ycen := 0; r_LY := 0; r_LX := 0;
                               r_MODE := 0; r_step := 0 |}) <$> seq 0 8;
                 mass := 1; Z_ := 2 # 100; Y_ := 25 # 100; hb := false;
                 agb := false; sptcri := [first];
                 iptcri := replicate 22 0;
                 info := []; flag := None; attrs := [] |};
     data_dict := ∅; searches := [] |}.

Definition young_pms : unit * St :=
  outcome (check_pms_beg catalogue (young 0)) (tt, young 0).

Definition young_hb : Z * St :=
  outcome (add_hb_beg catalogue (young 0)) (0, young 0).

Definition hm_he_beg : Z * St :=
  outcome (add_quiesscent_he_eep helpers catalogue (Raw 10 30)
             (hm_loaded (2 # 100)))
          (0, hm_loaded (2 # 100)).

(** The subgiant branch and the base of the red giant branch searched
    for on the intermediate-mass track as loaded. *)
Definition im_sg_rg : unit * St :=
  outcome (add_sg_rg_eeps thresholds helpers catalogue im_loaded)
          (tt, im_loaded).

Definition im_minl1 : Z * list string * St :=
  outcome (minl_loop1 thresholds helpers catalogue 0
             ["last"; "first"; "min of min"] (-1) im_loaded)
          (0, [], im_loaded).

Definition im_minl2 : Z * St :=
  outcome (minl_loop2 thresholds helpers catalogue 0
             (snd (fst im_minl1)) (fst (fst im_minl1)) (snd im_minl1))
          (0, snd im_minl1).

(** The 20 solar mass track defined as a horizontal-branch track. *)
Definition hb_run : unit * St :=
  outcome (define_eep_stages thresholds helpers catalogue true
             (hm_loaded (2 # 100)))
          (tt, hm_loaded (2 # 100)).

(** The subgiant maximum and the main sequence of the 20 solar mass
    track. *)
Definition hm_sg_maxl : Z * St :=
  outcome (add_sg_maxl_eep thresholds helpers catalogue RG_MINL
             (snd (hm_run (2 # 100))))
          (0, snd (hm_run (2 # 100))).

Definition hm_ms : Z * Z * St :=
  outcome (high_mass_ms helpers catalogue 13 (hm_loaded (2 # 100)))
          (0, 0, hm_loaded (2 # 100)).

(** The intermediate-mass track with ten of Sandro's indices only. *)
Definition im_few : St :=
  {| track := with_sptcri (track im_loaded)
                [1; 2; 3; 4; 5; 9; 11; 14; 15; 16];
     data_dict := data_dict im_loaded; searches := [] |}.

Definition im_few_run : unit * St :=
  outcome (define_eep_stages thresholds helpers catalogue false im_few)
          (tt, im_few).

(** The AGB markers searched for again on the 20 solar mass track, once
    its table is defined. *)
Definition hm_agb : Z * Z * St :=
  outcome (add_agb_eeps helpers catalogue (snd (hm_run (2 # 100))))
          (0, 0, snd (hm_run (2 # 100))).

(** The catalogue with nothing left to define, and the track cut by
    one sample loaded with it. *)
Definition catalogue_done : critical_point :=
  {| eep_list := eep_list catalogue;
     sandro_eeps := sandro_eeps catalogue;
     please_define := [];
     masses := masses catalogue |}.

Definition copied : unit * St :=
  outcome (load_critical_points thresholds helpers catalogue_done false
             (cut_start cut_by_one))
          (tt, cut_start cut_by_one).

End Example.

(** * Statements

    The predicates the properties below are phrased with. *)

(** What one central-helium crossing [cen] is assigned over the window
    [inds] of the helium column [y]: the window index of the nearest
    sample when that is within [tol] of the target, and 0 otherwise. *)
Inductive crossing (y : list Q) (tol : Q) (inds : list Z) (cen icen : Z)
  : Prop :=
| crossing_found (k : nat) (vals : list Q) (v : Q) :
    np.take y inds = Some vals ->
    inds !! k = Some icen ->
    vals !! k = Some v ->
    np.index y icen = Some v ->
    (forall j w, vals !! j = Some w ->
       Qabs (cen_value cen - v) <= Qabs (cen_value cen - w))%Q ->
    (Qabs (cen_value cen - v) <= tol)%Q ->
    crossing y tol inds cen icen
| crossing_not_found (k : nat) (vals : list Q) (v : Q) :
    np.take y inds = Some vals ->
    vals !! k = Some v ->
    (forall j w, vals !! j = Some w ->
       Qabs (cen_value cen - v) <= Qabs (cen_value cen - w))%Q ->
    (tol < Qabs (cen_value cen - v))%Q ->
    icen = 0 ->
    crossing y tol inds cen icen.

(** The crossings of a list of targets, each window starting one past the
    index assigned before. *)
Fixpoint crossings (y : list Q) (tol : Q) (cens : list Z) (inds : list Z)
         (icens : list Z) : Prop :=
  match cens, icens with
  | [], [] => True
  | cen :: cens', icen :: icens' =>
      crossing y tol inds cen icen
      /\ crossings y tol cens' (np.arange (icen + 1) (len y)) icens'
  | _, _ => False
  end.

(** The table and the notes of a track hold [icen] for [YCEN cen], the
    note quoting the helium fraction of the sample [icen]. *)
Definition recorded (ptcri : critical_point) (t : Track) (cen icen : Z)
  : Prop :=
  exists k yi,
    index_of (YCEN cen) (eep_list ptcri) = Some k
    /\ iptcri t !! k = Some icen
    /\ np.index (col ycen t) icen = Some yi
    /\ assoc (YCEN cen) (info t) = Some (Msg "YCEN == %.6f" [ArgQ yi]).

(** [increasing l]: the values of [l] grow strictly with the position. *)
Definition increasing (l : list Z) : Prop :=
  forall (i j : nat) a b,
    (i < j)%nat -> l !! i = Some a -> l !! j = Some b -> a < b.

Definition nonzero_entries (l : list Z) : list Z :=
  filter (fun i => i <> 0) l.

(** [first_zero l i]: [i] is the first position of [l] holding 0. *)
Definition first_zero (l : list Q) (i : Z) : Prop :=
  0 <= i
  /\ (exists v, l !! Z.to_nat i = Some v /\ Qeq_bool v 0 = true)
  /\ forall (j : nat) w,
       Z.of_nat j < i -> l !! j = Some w -> Qeq_bool w 0 = false.

(** [same_but ptcri W t t']: the track [t'] is [t] but for the table
    entries and attributes of the names in [W], the notes and the flag. *)
Record same_but (ptcri : critical_point) (W : list eep) (t t' : Track)
  : Prop := {
  sb_data : data t' = data t;
  sb_mass : mass t' = mass t;
  sb_Z : Z_ t' = Z_ t;
  sb_hb : hb t' = hb t;
  sb_agb : agb t' = agb t;
  sb_sptcri : sptcri t' = sptcri t;
  sb_length : length (iptcri t') = length (iptcri t);
  sb_table : forall k,
      (forall e, e ∈ W -> index_of e (eep_list ptcri) <> Some k) ->
      iptcri t' !! k = iptcri t !! k;
  sb_attrs : forall e, e ∉ W -> assoc e (attrs t') = assoc e (attrs t)
}.

(** [frame ptcri W m]: a run of [m] that returns changes the track at
    most at the names in [W], and leaves the reference rows alone. *)
Definition frame (ptcri : critical_point) (W : list eep) {A} (m : M A)
  : Prop :=
  forall s a s1, m s = Ok (a, s1) ->
    same_but ptcri W (track s) (track s1) /\ data_dict s1 = data_dict s.

Definition ycens (ptcri : critical_point) : list eep :=
  YCEN <$> cens_of (please_define ptcri).

(** The search for the temperature minimum of the main sequence, and the
    search for its beginning (a minimum of the luminosity). *)
Definition tmin_search (c : pf_call) : bool :=
  bool_decide (pf_col c = logT).

Definition ms_beg_search (c : pf_call) : bool :=
  bool_decide (pf_col c = logL)
  && bool_decide (get_max (pf_args c) = Some false).

Fixpoint first_pos {A} (p : A -> bool) (l : list A) : option nat :=
  match l with
  | [] => None
  | x :: l' => if p x then Some 0%nat else S <$> first_pos p l'
  end.

(** [searched_before p q l]: both kinds of search occur in the record
    [l], and the first [p] comes before the first [q]. *)
Definition searched_before (p q : pf_call -> bool) (l : list pf_call)
  : bool :=
  match first_pos p l, first_pos q l with
  | Some i, Some j => bool_decide (i < j)%nat
  | _, _ => false
  end.

(** [quiet m]: a run of [m] that returns has called no search. *)
Definition quiet {A} (m : M A) : Prop :=
  forall s a s1, m s = Ok (a, s1) -> searches s1 = searches s.

(** [nearest_age a tp target i]: among the samples from [tp] on, sample
    [i] is nearest in age to [target] past the age of sample [tp]. *)
Definition nearest_age (a : list Q) (tp : Z) (target : Q) (i : Z) : Prop :=
  exists a0 ai,
    np.index a tp = Some a0 /\ tp <= i /\ np.index a i = Some ai
    /\ forall (j : nat) aj,
         tp <= Z.of_nat j -> a !! j = Some aj ->
         (Qabs (ai - a0 - target) <= Qabs (aj - a0 - target))%Q.

(** The three thermal-pulse markers of a track: the thermal pulses start
    at the one sample [tp] whose step is 1 and last for [T]; TPAGB,
    TPAGB1 and TPAGB2 hold the samples nearest the ages 0, [T / 2] and
    [T] from there. *)
Definition tp_markers (ptcri : critical_point) (t : Track) : Prop :=
  exists tp a0 alast t0 t1 t2 i0 i1 i2 k0 k1 k2,
    np.nonzero (fun r => r_step r =? 1) (data t) = [tp]
    /\ np.index (col age t) tp = Some a0
    /\ np.index (col age t) (-1) = Some alast
    /\ (t0 == 0 /\ t1 == (alast - a0) / 2 /\ t2 == alast - a0)%Q
    /\ nearest_age (col age t) tp t0 i0
    /\ nearest_age (col age t) tp t1 i1
    /\ nearest_age (col age t) tp t2 i2
    /\ index_of TPAGB (eep_list ptcri) = Some k0
    /\ index_of (TPAGB_n 1) (eep_list ptcri) = Some k1
    /\ index_of (TPAGB_n 2) (eep_list ptcri) = Some k2
    /\ iptcri t !! k0 = Some i0
    /\ iptcri t !! k1 = Some i1
    /\ iptcri t !! k2 = Some i2.

(** The two places where the result of the luminosity searches is stored
    as it comes: [add_rg_minl_eep], and [add_sg_maxl_eep] on a track of
    at most intermediate mass whose RG_MINL lies 10 samples or more from
    the sentinel.  [sentinel_storing e m s] reads: run from [s], [m] is
    such a call and stores the entry of [e]. *)
Inductive sentinel_storing (cfg : config) (ext : collaborators)
  (ptcri : critical_point) : eep -> M Z -> St -> Prop :=
| store_rg_minl eep1 eep2 mto s :
    sentinel_storing cfg ext ptcri RG_MINL
      (add_rg_minl_eep cfg ext ptcri eep1 eep2 mto) s
| store_sg_maxl eep2 s :
    np.Qltb (inte_mass cfg) (mass (track s)) = false ->
    (forall k rg, index_of RG_MINL (eep_list ptcri) = Some k ->
                  iptcri (track s) !! k = Some rg -> 10 <= Z.abs (rg + 1)) ->
    sentinel_storing cfg ext ptcri SG_MAXL
      (add_sg_maxl_eep cfg ext ptcri eep2) s.

(** Every search of the list came back with the sentinel -1. *)
Definition all_failed (l : list pf_call) : bool :=
  forallb (fun c => pf_result c =? -1) l.

(** The samples of [rows] whose model number is one of [mptcri], in the
    order of [mptcri]; the positions of the model numbers that are not 0. *)
Definition matched (rows : list Row) (mptcri : list Z) : list Z :=
  concat ((fun m => np.nonzero (fun r => r_MODE r =? m) rows) <$> mptcri).

Definition valid (mptcri : list Z) : list Z :=
  np.nonzero (fun v => negb (v =? 0)) mptcri.

Definition mismatch_flag : option msg :=
  Some (Text "ptcri file does not match track, not enough MODEs").

(** The entry of the EEP [e] in the table [tbl] is [v]. *)
Definition entry_is (ptcri : critical_point) (tbl : list Z) (e : eep)
  (v : Z) : Prop :=
  exists k, index_of e (eep_list ptcri) = Some k /\ tbl !! k = Some v.

Definition unworkable : option msg :=
  Some (Text "Track is unworkable. Check Sandro's eeps").

(** [check_sandros_eeps], run from [s], has moved the entry of [e] from
    [old] to [new] and nothing else in its first pass, and has gone on
    from there as it does. *)
Definition moved_to (ptcri : critical_point) (depth : nat) (s : St)
  (u : unit) (s1 : St) (e : eep) (old new : Z) : Prop :=
  exists k s',
    index_of e (eep_list ptcri) = Some k
    /\ iptcri (track s) !! k = Some old
    /\ iptcri (track s') = <[k := new]> (iptcri (track s))
    /\ flag (track s') = flag (track s)
    /\ (s1 = s' \/ check_sandros_eeps ptcri depth s' = Ok (u, s1)).

(** The enclosing named EEPs of a pair too close: the name before
    [dbefore] and the name after [dafter] in the catalogue, and their
    entries in the table. *)
Definition enclosing (ptcri : critical_point) (tbl : list Z)
  (dbefore dafter : eep) (iearlier ilater : Z) : Prop :=
  exists kb ka earlier later,
    index_of dbefore (eep_list ptcri) = Some kb
    /\ index_of dafter (eep_list ptcri) = Some ka
    /\ np.index (eep_list ptcri) (Z.of_nat kb - 1) = Some earlier
    /\ eep_list ptcri !! S ka = Some later
    /\ entry_is ptcri tbl earlier iearlier
    /\ entry_is ptcri tbl later ilater.

(** Two tracks at the same point of two runs of the definitions, of
    which the first run ends in the track [o].  The samples and Sandro's
    indices are those of [o]; the two tables agree at the entry of every
    name outside [N]; an entry of the second table is that of the first,
    or still the one of [o]. *)
Record twin (ptcri : critical_point) (o : Track) (N : eep -> Prop)
  (t t' : Track) : Prop := {
  tw_data : data t = data o;
  tw_data' : data t' = data o;
  tw_mass : mass t = mass o;
  tw_mass' : mass t' = mass o;
  tw_Z : Z_ t = Z_ o;
  tw_Z' : Z_ t' = Z_ o;
  tw_agb : agb t = agb o;
  tw_agb' : agb t' = agb o;
  tw_sptcri : sptcri t = sptcri o;
  tw_sptcri' : sptcri t' = sptcri o;
  tw_length : length (iptcri t) = length (iptcri o);
  tw_length' : length (iptcri t') = length (iptcri o);
  tw_table : forall e k,
      ~ N e -> index_of e (eep_list ptcri) = Some k ->
      iptcri t' !! k = iptcri t !! k;
  tw_unkeyed : forall k,
      (forall e, index_of e (eep_list ptcri) <> Some k) ->
      iptcri t !! k = iptcri o !! k /\ iptcri t' !! k = iptcri o !! k;
  tw_attrs : ~ N (YCEN 0) ->
      assoc (YCEN 0) (attrs t') = assoc (YCEN 0) (attrs t);
  tw_final : forall k,
      iptcri t' !! k = iptcri t !! k \/ iptcri t' !! k = iptcri o !! k
}.

(** [stable ptcri o N m N']: from twin tracks, if [m] returns on the
    first then it returns the same on the second, and leaves twins. *)
Definition stable (ptcri : critical_point) (o : Track) (N : eep -> Prop)
  {A} (m : M A) (N' : eep -> Prop) : Prop :=
  forall s s' a s1,
    twin ptcri o N (track s) (track s') -> m s = Ok (a, s1) ->
    exists s1', m s' = Ok (a, s1')
                /\ twin ptcri o N' (track s1) (track s1').

(** No name: the tables agree throughout. *)
Definition none : eep -> Prop := fun _ => False.

(** The names of [N] but [e]. *)
Definition but (N : eep -> Prop) (e : eep) : eep -> Prop :=
  fun x => N x /\ x <> e.

(** An end point may be read when it is no name of [N], or is looked up
    in Sandro's indices. *)
Definition readable (N : eep -> Prop) (sandro_ : bool) (p : endpoint)
  : Prop :=
  match p with
  | At _ => True
  | Named e => sandro_ = true \/ ~ N e
  end.

(** [anchored ptcri o N m N']: as [stable], for a run of [m] that ends
    in the track [o]. *)
Definition anchored (ptcri : critical_point) (o : Track) (N : eep -> Prop)
  {A} (m : M A) (N' : eep -> Prop) : Prop :=
  forall s s' a s1,
    twin ptcri o N (track s) (track s') -> m s = Ok (a, s1) ->
    track s1 = o ->
    exists s1', m s' = Ok (a, s1')
                /\ twin ptcri o N' (track s1) (track s1').

(** [framez ptcri z W m]: [frame], on the tracks of metallicity [z]. *)
Definition framez (ptcri : critical_point) (z : Q) (W : list eep) {A}
  (m : M A) : Prop :=
  forall s a s1, Z_ (track s) = z -> m s = Ok (a, s1) ->
    same_but ptcri W (track s) (track s1).

(** The names the module derives, which the catalogue asks for. *)
Definition derived : list eep :=
  [MS_TMIN; MS_TO; SG_MAXL; RG_MINL; HE_BEG; YCEN 0; AGB_LY1; AGB_LY2].

(** The names written on each way through [dispatch]. *)
Definition hb_names (ptcri : critical_point) : list eep :=
  ycens ptcri ++ [HE_BEG; AGB_LY1; AGB_LY2].

Definition low_names (ptcri : critical_point) : list eep :=
  please_define ptcri ++ [MS_TO; MS_TMIN].

Definition int_names (ptcri : critical_point) : list eep :=
  please_define ptcri
  ++ [MS_TMIN; MS_TO; HE_BEG; SG_MAXL; RG_MINL; AGB_LY1; AGB_LY2].

Definition pms_end_names (z : Q) : list eep :=
  if np.Qltb z (4 # 1000) then [PMS_END] else [].

Definition high_names (ptcri : critical_point) (z : Q) : list eep :=
  pms_end_names z
  ++ [MS_TO; MS_TMIN; MS_BEG] ++ ycens ptcri
  ++ [YCEN 0; HE_BEG; TPAGB; SG_MAXL; RG_MINL; RG_BMP1; RG_BMP2; RG_TIP;
      AGB_LY1; AGB_LY2].

(** Those of them that the catalogue does not ask for: Sandro's names
    that the high-mass branch writes over. *)
Definition high_left (z : Q) : eep -> Prop :=
  fun e => e ∈ pms_end_names z ++ [MS_BEG; TPAGB; RG_BMP1; RG_BMP2; RG_TIP].

(** Every name [define_eep_stages] may write. *)
Definition all_names (ptcri : critical_point) : list eep :=
  please_define ptcri
  ++ [PMS_BEG; PMS_END; MS_BEG; MS_TMIN; MS_TO; SG_MAXL; RG_MINL; RG_BMP1;
      RG_BMP2; RG_TIP; HE_BEG; YCEN 0; AGB_LY1; AGB_LY2; TPAGB; TPAGB_n 1;
      TPAGB_n 2].

(** The names the catalogue does not ask for, and any name. *)
Definition unasked (ptcri : critical_point) : eep -> Prop :=
  fun e => e ∉ please_define ptcri.

Definition any_name : eep -> Prop := fun _ => True.


(** [first_such p l i]: [i] is the first position of [l] whose element
    satisfies [p]. *)
Definition first_such {A} (p : A -> bool) (l : list A) (i : Z) : Prop :=
  0 <= i
  /\ (exists v, l !! Z.to_nat i = Some v /\ p v = true)
  /\ forall (j : nat) w, Z.of_nat j < i -> l !! j = Some w -> p w = false.

Definition not_monotonic : option msg :=
  Some (Text "eeps not monotonically increasing").

(** [nearest l target i]: position [i] of [l] holds a value nearest to
    [target], and is the first position that does. *)
Definition nearest (l : list Q) (target : Q) (i : Z) : Prop :=
  0 <= i
  /\ exists v, l !! Z.to_nat i = Some v
     /\ forall (j : nat) w, l !! j = Some w ->
          (Qabs (v - target) <= Qabs (w - target))%Q
          /\ (Z.of_nat j < i -> (Qabs (v - target) < Qabs (w - target))%Q).

(** The [k]-th of the seven values [np.round(np.linspace(a, b, 7))]. *)
Definition seventh (a b k : Z) : Z :=
  np.round (inject_Z a
            + inject_Z k * ((inject_Z b - inject_Z a) / inject_Z 6)).

(** [agrees ptcri t e]: the table of [t] has an entry for [e], and the
    attribute [t.i<e>] holds the same index. *)
Definition agrees (ptcri : critical_point) (t : Track) (e : eep) : Prop :=
  exists v, entry_is ptcri (iptcri t) e v /\ assoc e (attrs t) = Some v.

(** [keeps P m]: a run of [m] that returns keeps the property [P] of the
    track. *)
Definition keeps (P : Track -> Prop) {A} (m : M A) : Prop :=
  forall s a s1, m s = Ok (a, s1) -> P (track s) -> P (track s1).

(** The properties of a track that no update of [define_eep_stages] can
    break: they survive a new flag, new notes, and what [add_eep] writes
    at a position of the table. *)
Record kept_by_updates (ptcri : critical_point) (P : Track -> Prop)
  : Prop := {
  kept_flag : forall t f, P t -> P (with_flag t f);
  kept_info : forall t i, P t -> P (with_info t i);
  kept_write : forall t k ind e m,
      index_of e (eep_list ptcri) = Some k ->
      (k < length (iptcri t))%nat ->
      P t -> P (with_iptcri t k ind e m)
}.

(** [nsandro_pts]: how many of Sandro's indices are not 0. *)
Definition nsandro_pts (t : Track) : nat :=
  length (np.nonzero (fun v => negb (v =? 0)) (sptcri t)).

(** Sandro's model numbers as [load_critical_points] goes on with them:
    the last one is set to the number of samples plus one when the track
    was cut by one sample. *)
Definition repaired (rows : list Row) (mptcri : list Z) : list Z :=
  if len (valid mptcri) - len (matched rows mptcri) =? 1
  then set_last mptcri (len rows + 1) else mptcri.

(** An index of the first table: 0 in place of a negative one and of one
    past the number of samples. *)
Definition clipped (rows : list Row) (v : Z) : Z :=
  if v <? 0 then 0 else if len rows <? v then 0 else v.

(** The flag of a high-mass track whose last central-helium index is not
    before its last sample. *)
Definition cut_before_ycen (m : Q) : option msg :=
  Some (Msg "final point on track is cut before final ycen M=%.3f"
            [ArgQ m]).

(** * Properties *)

#[local] Set Warnings "-clear-no-such-hyp".

(** ** Running a computation step by step *)

Lemma bind_ok {A B} (m : M A) (k : A -> M B) s b s2 :
  bind m k s = Ok (b, s2) ->
  exists a s1, m s = Ok (a, s1) /\ k a s1 = Ok (b, s2).
Proof.
  unfold bind. destruct (m s) as [[a s1] | e]; [eauto | discriminate].
Qed.

Lemma ret_ok {A} (a b : A) s s1 : ret a s = Ok (b, s1) -> b = a /\ s1 = s.
Proof. unfold ret. intros H. injection H as <- <-. auto. Qed.

Lemma lift_ok {A} (r : result A) s a s1 :
  lift r s = Ok (a, s1) -> r = Ok a /\ s1 = s.
Proof. unfold lift. destruct r; intros H; [injection H as <- <- | ]; easy. Qed.

Lemma expect_ok {A} e (o : option A) a : expect e o = Ok a -> o = Some a.
Proof. destruct o; cbn; congruence. Qed.

Lemma gets_ok {A} (f : Track -> A) s a s1 :
  gets f s = Ok (a, s1) -> a = f (track s) /\ s1 = s.
Proof. unfold gets. intros H. injection H as <- <-. auto. Qed.

Lemma modify_ok f s u s1 :
  modify f s = Ok (u, s1) ->
  track s1 = f (track s) /\ data_dict s1 = data_dict s
  /\ searches s1 = searches s.
Proof. unfold modify. intros H. injection H as _ <-. auto. Qed.

Lemma at_ok {A} (l : list A) i s a s1 :
  at_ l i s = Ok (a, s1) -> np.index l i = Some a /\ s1 = s.
Proof.
  unfold at_. intros H. apply lift_ok in H as [H ->].
  apply expect_ok in H. auto.
Qed.

Lemma at_nat_ok {A} (l : list A) i s a s1 :
  at_nat l i s = Ok (a, s1) -> l !! i = Some a /\ s1 = s.
Proof.
  unfold at_nat. intros H. apply lift_ok in H as [H ->].
  apply expect_ok in H. auto.
Qed.

Lemma takes_ok {A} (l : list A) inds s a s1 :
  takes l inds s = Ok (a, s1) -> np.take l inds = Some a /\ s1 = s.
Proof.
  unfold takes. intros H. apply lift_ok in H as [H ->].
  apply expect_ok in H. auto.
Qed.

(** Splits the hypotheses that say a computation returned, down to the
    calls of the module's own functions. *)
Ltac step :=
  match goal with
  | H : bind _ _ _ = Ok _ |- _ =>
      apply bind_ok in H; destruct H as (? & ? & ? & ?)
  | H : ret _ _ = Ok _ |- _ => apply ret_ok in H; destruct H; subst
  | H : raise _ _ = Ok _ |- _ => discriminate H
  | H : gets _ _ = Ok _ |- _ => apply gets_ok in H; destruct H; subst
  | H : at_ _ _ _ = Ok _ |- _ => apply at_ok in H; destruct H; subst
  | H : at_nat _ _ _ = Ok _ |- _ => apply at_nat_ok in H; destruct H; subst
  | H : takes _ _ _ = Ok _ |- _ => apply takes_ok in H; destruct H; subst
  | H : lift (expect _ _) _ = Ok _ |- _ =>
      apply lift_ok in H; destruct H as [H ?]; apply expect_ok in H; subst
  | H : lift _ _ = Ok _ |- _ => apply lift_ok in H; destruct H; subst
  | H : argmin_ _ _ = Ok _ |- _ => unfold argmin_ in H
  | H : argmax_ _ _ = Ok _ |- _ => unfold argmax_ in H
  | H : (let ' (_, _) := ?p in _) _ = Ok _ |- _ => destruct p
  end.

Ltac steps := repeat step.

(** ** numpy facts *)

Lemma Qltb_lt x y : np.Qltb x y = true <-> (x < y)%Q.
Proof.
  unfold np.Qltb. rewrite negb_true_iff, <- not_true_iff_false.
  rewrite Qle_bool_iff. split; [apply Qnot_le_lt | apply Qlt_not_le].
Qed.

Lemma Qltb_ge x y : np.Qltb x y = false <-> (y <= x)%Q.
Proof.
  unfold np.Qltb. rewrite negb_false_iff. apply Qle_bool_iff.
Qed.

Lemma index_nat {A} (l : list A) (k : nat) :
  np.index l (Z.of_nat k) = l !! k.
Proof.
  unfold np.index. destruct (Z.leb_spec 0 (Z.of_nat k)); [| lia].
  now rewrite Nat2Z.id.
Qed.

Lemma index_Some_length {A} (l : list A) i a :
  np.index l i = Some a -> - len l <= i < len l.
Proof.
  unfold np.index, len. intros H.
  destruct (Z.leb_spec 0 i).
  - apply lookup_lt_Some in H. lia.
  - destruct (Z.leb_spec (- Z.of_nat (length l)) i); [lia | discriminate].
Qed.

Lemma arange_lookup a b (k : nat) x :
  np.arange a b !! k = Some x <-> x = a + Z.of_nat k /\ Z.of_nat k < b - a.
Proof.
  unfold np.arange. rewrite list_lookup_fmap.
  destruct (decide (k < Z.to_nat (b - a))%nat) as [Hk | Hk].
  - rewrite lookup_seq_lt by lia. cbn. split.
    + intros [= <-]. split; [reflexivity | lia].
    + intros [-> _]. reflexivity.
  - rewrite lookup_seq_ge by lia. cbn. split; [discriminate | lia].
Qed.

Lemma take_lookup {A} (l : list A) inds vals (k : nat) :
  np.take l inds = Some vals ->
  length vals = length inds
  /\ forall i, inds !! k = Some i ->
       exists v, vals !! k = Some v /\ np.index l i = Some v.
Proof.
  unfold np.take. intros H. apply mapM_Some in H. split.
  - symmetry. eapply Forall2_length, H.
  - intros i Hi. destruct (Forall2_lookup_l _ _ _ _ _ H Hi) as (v & ? & ?).
    eauto.
Qed.

Section ArgMin.

Let least (l : list Q) (k : nat) : Prop :=
  exists v, l !! k = Some v
            /\ forall j w, l !! j = Some w ->
                 (v <= w)%Q /\ ((j < k)%nat -> (v < w)%Q).

Lemma argmin_from_least (l pre : list Q) (bi : nat) :
  least pre bi ->
  least (pre ++ l)
        (np.arg_from np.Qltb bi (default 0%Q (pre !! bi)) (length pre) l).
Proof.
  revert pre bi. induction l as [| x l IH]; intros pre bi Hb.
  - cbn. now rewrite app_nil_r.
  - cbn [np.arg_from]. destruct Hb as (b & Hbi & Hb). rewrite Hbi. cbn.
    replace (pre ++ x :: l) with ((pre ++ [x]) ++ l)
      by now rewrite <- app_assoc.
    replace (S (length pre)) with (length (pre ++ [x]))
      by (rewrite length_app; cbn; lia).
    destruct (np.Qltb x b) eqn:Hx.
    + apply Qltb_lt in Hx.
      specialize (IH (pre ++ [x]) (length pre)).
      rewrite lookup_app_r, Nat.sub_diag in IH by lia. cbn in IH.
      apply IH. exists x. split.
      { rewrite lookup_app_r, Nat.sub_diag by lia. reflexivity. }
      intros j w Hj. destruct (decide (j < length pre)%nat) as [Hlt | Hge].
      * rewrite lookup_app_l in Hj by lia. destruct (Hb j w Hj) as [Hle _].
        split; [| intros _]; eauto using Qlt_le_weak, Qlt_le_trans.
      * rewrite lookup_app_r in Hj by lia.
        destruct (j - length pre)%nat eqn:E; [| discriminate Hj].
        injection Hj as <-. split; [apply Qle_refl | lia].
    + apply Qltb_ge in Hx.
      specialize (IH (pre ++ [x]) bi).
      pose proof (lookup_lt_Some _ _ _ Hbi) as Hlen.
      rewrite lookup_app_l, Hbi in IH by lia. cbn in IH.
      apply IH. exists b. split.
      { rewrite lookup_app_l by lia. exact Hbi. }
      intros j w Hj. destruct (decide (j < length pre)%nat) as [Hlt | Hge].
      * rewrite lookup_app_l in Hj by lia. eauto.
      * rewrite lookup_app_r in Hj by lia.
        destruct (j - length pre)%nat eqn:E; [| discriminate Hj].
        injection Hj as <-. split; [exact Hx | lia].
Qed.

(** [np.argmin] yields the first position of a least element. *)
Lemma argmin_least (l : list Q) (k : nat) :
  np.argmin l = Some k ->
  exists v, l !! k = Some v
            /\ forall j w, l !! j = Some w ->
                 (v <= w)%Q /\ ((j < k)%nat -> (v < w)%Q).
Proof.
  destruct l as [| x l]; [discriminate |]. cbn. intros [= <-].
  apply (argmin_from_least l [x] 0). exists x. split; [reflexivity |].
  intros [| j] w Hj; [| discriminate].
  injection Hj as <-. split; [apply Qle_refl | lia].
Qed.

End ArgMin.

(** ** [add_eep] *)

Lemma index_of_lookup e l k : index_of e l = Some k -> l !! k = Some e.
Proof.
  revert k. induction l as [| x l IH]; intros k; cbn; [discriminate |].
  case_bool_decide as Hx.
  - intros [= <-]. now subst.
  - destruct (index_of e l); cbn; [| discriminate].
    intros [= <-]. cbn. now apply IH.
Qed.

Lemma index_of_inj e1 e2 l k :
  index_of e1 l = Some k -> index_of e2 l = Some k -> e1 = e2.
Proof.
  intros H1 H2. apply index_of_lookup in H1, H2. congruence.
Qed.

Lemma assoc_cons_eq {B} e (b : B) l : assoc e ((e, b) :: l) = Some b.
Proof. unfold assoc. cbn. now rewrite bool_decide_eq_true_2. Qed.

Lemma assoc_cons_ne {B} e e' (b : B) l :
  e' <> e -> assoc e ((e', b) :: l) = assoc e l.
Proof. intros H. unfold assoc. cbn. now rewrite bool_decide_eq_false_2. Qed.

Lemma add_eep_ok ptcri e ind m s u s1 :
  add_eep ptcri e ind m s = Ok (u, s1) ->
  exists k, index_of e (eep_list ptcri) = Some k
            /\ (k < length (iptcri (track s)))%nat
            /\ track s1 = with_iptcri (track s) k ind e m
            /\ data_dict s1 = data_dict s /\ searches s1 = searches s.
Proof.
  unfold add_eep, key_dict. intros H. steps.
  case_bool_decide; [| discriminate].
  match goal with H : modify _ _ = _ |- _ => apply modify_ok in H as (? & ? & ?) end.
  eauto 10.
Qed.

(** ** The central-helium crossings *)

Lemma closest_match_ok num arr k d :
  closest_match num arr = Ok (k, d) ->
  exists v, arr !! k = Some v /\ d = Qabs (num - v)
            /\ forall j w, arr !! j = Some w ->
                 (Qabs (num - v) <= Qabs (num - w))%Q.
Proof.
  unfold closest_match. cbv zeta.
  destruct (np.argmin _) as [i |] eqn:E; [| discriminate].
  intros Heq.
  assert (Hi : i = k) by congruence.
  assert (Hd0 : default 0%Q (((fun v => Qabs (num - v)) <$> arr) !! i) = d)
    by congruence.
  clear Heq. subst i.
  apply argmin_least in E as (d0 & Hd & Hmin).
  rewrite Hd in Hd0. simpl in Hd0. subst d0.
  rewrite list_lookup_fmap in Hd.
  destruct (arr !! k) as [v |] eqn:Hv; [| discriminate].
  assert (Hdv : Qabs (num - v) = d).
  { change (Some (Qabs (num - v)) = Some d) in Hd. congruence. }
  exists v. split; [reflexivity |]. split; [congruence |].
  intros j w Hj. rewrite Hdv. apply (Hmin j).
  now rewrite list_lookup_fmap, Hj.
Qed.

Lemma cen_loop_ok ptcri tol cens : forall inds s icens s1,
  cen_loop ptcri tol cens inds s = Ok (icens, s1) ->
  data (track s1) = data (track s)
  /\ crossings (col ycen (track s)) tol cens inds icens
  /\ (forall e, (forall c, c ∈ cens -> e <> YCEN c) ->
        assoc e (info (track s1)) = assoc e (info (track s))
        /\ forall k, index_of e (eep_list ptcri) = Some k ->
             iptcri (track s1) !! k = iptcri (track s) !! k)
  /\ (NoDup cens ->
      forall k cen icen, cens !! k = Some cen -> icens !! k = Some icen ->
        recorded ptcri (track s1) cen icen).
Proof.
  induction cens as [| cen cens IH]; intros inds s icens s1 H.
  - apply ret_ok in H as [-> ->]. cbn. repeat split; try easy.
  - cbn [cen_loop] in H. steps.
    match goal with
    | Ht : np.take _ inds = Some ?vals0, Hc : closest_match _ _ = Ok (?ind0, _),
      Hi : inds !! _ = Some ?i0, Hy : np.index _ _ = Some ?y0,
      Ha : add_eep _ _ _ _ _ = _, Hl : cen_loop _ _ _ _ _ = _ |- _ =>
        rename vals0 into vals, ind0 into ind, i0 into icen0, y0 into yi;
        rename Ht into Htake, Hc into Hclose, Hi into Hind, Hy into Hyi,
          Ha into Hadd, Hl into Hloop
    end.
    apply add_eep_ok in Hadd as (k & Hk & Hlen & Htr & _).
    apply IH in Hloop as (Hdata & Hcr & Hframe & Hrec). clear IH.
    match type of Hdata with _ = data (track ?x) => rename x into s2 end.
    assert (Hcol : col ycen (track s2) = col ycen (track s)).
    { unfold col. now rewrite Htr. }
    apply closest_match_ok in Hclose as (v & Hv & -> & Hmin).
    set (icen := if np.Qltb tol (Qabs (cen_value cen - v)) then 0 else icen0)
      in *.
    assert (Hone : crossing (col ycen (track s)) tol inds cen icen).
    { subst icen. destruct (np.Qltb _ _) eqn:Htol.
      - apply Qltb_lt in Htol. eapply crossing_not_found; eauto.
      - apply Qltb_ge in Htol.
        destruct (take_lookup _ _ _ ind Htake) as [_ Hlk].
        destruct (Hlk _ Hind) as (v' & Hv' & Hy). rewrite Hv in Hv'.
        injection Hv' as <-. eapply crossing_found; eauto. }
    split; [rewrite Hdata, Htr; reflexivity |].
    split; [cbn [crossings]; rewrite Hcol in Hcr; auto |].
    split.
    + intros e He.
      assert (Hne : YCEN cen <> e).
      { intros <-. apply (He cen); [left | reflexivity]. }
      destruct (Hframe e) as [Hi Ht].
      { intros c Hc. apply He. now right. }
      rewrite Hi, Htr. cbn [info with_iptcri].
      rewrite assoc_cons_ne by exact Hne.
      split; [reflexivity |]. intros k' Hk'. rewrite (Ht k' Hk'), Htr.
      cbn [iptcri with_iptcri].
      apply list_lookup_insert_ne. intros <-.
      apply Hne. eapply index_of_inj; eauto.
    + intros Hnd [| j] c i Hc Hi.
      * cbn in Hc, Hi. injection Hc as <-. injection Hi as <-.
        apply NoDup_cons in Hnd as [Hnotin _].
        destruct (Hframe (YCEN cen)) as [Hinfo Htbl].
        { intros c Hc [= <-]. contradiction. }
        exists k, yi. split; [exact Hk |].
        rewrite (Htbl k Hk), Hinfo, Htr. cbn [info iptcri with_iptcri].
        rewrite list_lookup_insert_eq by lia. rewrite assoc_cons_eq.
        unfold col. rewrite Hdata, Htr. cbn [data with_iptcri].
        fold (col ycen (track s)). auto.
      * cbn in Hc, Hi. apply NoDup_cons in Hnd as [_ Hnd]. eauto.
Qed.

Lemma add_cen_eeps_ok ptcri hb_ tol istart s icens s1 :
  add_cen_eeps ptcri hb_ tol istart s = Ok (icens, s1) ->
  let y := col ycen (track s) in
  let cens := cens_of (please_define ptcri) in
  exists i0,
    (hb_ = true -> i0 = 0)
    /\ (hb_ = false -> forall i, istart = Some i -> i0 = i)
    /\ crossings y tol cens (np.arange i0 (len y)) icens
    /\ (NoDup cens ->
        forall k cen icen, cens !! k = Some cen -> icens !! k = Some icen ->
          recorded ptcri (track s1) cen icen).
Proof.
  unfold add_cen_eeps. intros H. steps.
  match goal with Hl : cen_loop _ _ _ _ _ = _ |- _ =>
    apply cen_loop_ok in Hl as (_ & Hcr & _ & Hrec) end.
  match type of Hcr with crossings _ _ _ (np.arange ?i _) _ =>
    exists i end.
  destruct hb_.
  - steps. repeat split; auto; congruence.
  - destruct istart as [i |].
    + steps. repeat split; auto; congruence.
    + unfold entry, get_ptcri_name in *. steps.
      repeat split; auto; congruence.
Qed.



Lemma crossings_next y tol cens : forall inds icens,
  crossings y tol cens inds icens ->
  length icens = length cens
  /\ forall k i cen j,
       icens !! k = Some i -> cens !! S k = Some cen ->
       icens !! S k = Some j ->
       crossing y tol (np.arange (i + 1) (len y)) cen j.
Proof.
  induction cens as [| c cens IH]; intros inds [| i0 icens]; cbn;
    try easy.
  intros [_ Hcr]. destruct (IH _ _ Hcr) as [Hlen Hnext].
  split; [congruence |].
  intros [| k] i cen j Hi Hc Hj; cbn in *.
  - injection Hi as <-. destruct cens, icens; cbn in *; try easy.
    destruct Hcr as [Hone _]. congruence.
  - eauto.
Qed.

Lemma crossing_window y tol a cen j :
  crossing y tol (np.arange a (len y)) cen j -> j = 0 \/ a <= j.
Proof.
  intros [k vals v _ Hk _ _ _ _ | ]; [| now left].
  right. apply arange_lookup in Hk. lia.
Qed.

(** C10.  In the list [add_cen_eeps] returns, every entry is 0 or lies
    strictly after the entry before it, because the window of a crossing
    starts one past the index given to the crossing before; after an
    entry 0 the window therefore starts at sample 1, and a later crossing
    can get an index before that of a crossing found earlier, as on the
    track [Example.flare]. *)
Theorem add_cen_eeps_windows ptcri hb_ tol istart s icens s1 :
  add_cen_eeps ptcri hb_ tol istart s = Ok (icens, s1) ->
  let y := col ycen (track s) in
  let cens := cens_of (please_define ptcri) in
  (forall k i cen j,
     icens !! k = Some i -> cens !! S k = Some cen ->
     icens !! S k = Some j ->
     crossing y tol (np.arange (i + 1) (len y)) cen j
     /\ (j = 0 \/ i < j))
  /\ (forall k cen j,
        icens !! k = Some 0 -> cens !! S k = Some cen ->
        icens !! S k = Some j ->
        crossing y tol (np.arange 1 (len y)) cen j)
  /\ exists k1 k2 i1 i2,
       (k1 < k2)%nat
       /\ fst Example.flare_run !! k1 = Some i1
       /\ fst Example.flare_run !! k2 = Some i2
       /\ 0 < i2 < i1
       /\ add_cen_eeps Example.catalogue true (1 # 100) None
            Example.flare_start = Ok Example.flare_run.
Proof.
  intros H y cens.
  destruct (add_cen_eeps_ok _ _ _ _ _ _ _ H) as (i0 & _ & _ & Hcr & _).
  apply crossings_next in Hcr as [_ Hnext].
  split; [| split].
  - intros k i cen j Hi Hc Hj. pose proof (Hnext k i cen j Hi Hc Hj) as Hone.
    split; [exact Hone |]. apply crossing_window in Hone. lia.
  - intros k cen j Hi Hc Hj. exact (Hnext k 0 cen j Hi Hc Hj).
  - exists 0%nat, 2%nat, 5, 2.
    split; [lia |]. split; [vm_compute; reflexivity |].
    split; [vm_compute; reflexivity |]. split; [lia |].
    vm_compute. reflexivity.
Qed.

Lemma add_cen_eeps_windows_flare :
  add_cen_eeps Example.catalogue true (1 # 100) None Example.flare_start
  = Ok Example.flare_run
  /\ fst Example.flare_run = [5; 0; 2; 0; 0; 0; 0]
  /\ forall k i cen j,
       fst Example.flare_run !! k = Some i ->
       cens_of (please_define Example.catalogue) !! S k = Some cen ->
       fst Example.flare_run !! S k = Some j ->
       crossing (col ycen (track Example.flare_start)) (1 # 100)
                (np.arange (i + 1) (len (col ycen (track Example.flare_start))))
                cen j
       /\ (j = 0 \/ i < j).
Proof.
  split; [vm_compute; reflexivity |].
  split; [vm_compute; reflexivity |].
  apply (add_cen_eeps_windows Example.catalogue true (1 # 100) None
           Example.flare_start (fst Example.flare_run)
           (snd Example.flare_run)).
  vm_compute. reflexivity.
Defined.

(** ** What a run leaves alone *)

Section Frames.

Variable cfg : config.
Variable ext : collaborators.
Variable ptcri : critical_point.

Lemma same_but_refl W t : same_but ptcri W t t.
Proof. now split. Qed.

Lemma same_but_trans W t1 t2 t3 :
  same_but ptcri W t1 t2 -> same_but ptcri W t2 t3 ->
  same_but ptcri W t1 t3.
Proof.
  intros [] []. split; try congruence.
  - intros k Hk. now rewrite sb_table1, sb_table0.
  - intros e He. now rewrite sb_attrs1, sb_attrs0.
Qed.

Lemma same_but_weaken W W' t1 t2 :
  W ⊆ W' -> same_but ptcri W t1 t2 -> same_but ptcri W' t1 t2.
Proof.
  intros Hsub []. split; try congruence.
  - intros k Hk. apply sb_table0. intros e He. apply Hk, Hsub, He.
  - intros e He. apply sb_attrs0. intros Hin. apply He, Hsub, Hin.
Qed.

Lemma frame_weaken W W' {A} (m : M A) :
  W ⊆ W' -> frame ptcri W m -> frame ptcri W' m.
Proof.
  intros Hsub Hm s a s1 H. destruct (Hm _ _ _ H).
  eauto using same_but_weaken.
Qed.

Lemma frame_ret W {A} (a : A) : frame ptcri W (ret a).
Proof. intros s b s1 H. step. eauto using same_but_refl. Qed.

Lemma frame_raise W {A} e : frame ptcri W (@raise A e).
Proof. intros s b s1 H. discriminate. Qed.

Lemma frame_bind W {A B} (m : M A) (k : A -> M B) :
  frame ptcri W m -> (forall a, frame ptcri W (k a)) ->
  frame ptcri W (bind m k).
Proof.
  intros Hm Hk s b s2 H. step.
  match goal with
  | H1 : m _ = _, H2 : k _ _ = _ |- _ =>
      destruct (Hm _ _ _ H1); destruct (Hk _ _ _ _ H2)
  end.
  split; [eauto using same_but_trans | congruence].
Qed.

Lemma frame_bind_ok W {A B} (m : M A) (k : A -> M B) :
  frame ptcri W m ->
  (forall a s s1, m s = Ok (a, s1) -> frame ptcri W (k a)) ->
  frame ptcri W (bind m k).
Proof.
  intros Hm Hk s b s2 H. step.
  match goal with
  | H1 : m _ = _, H2 : k _ _ = _ |- _ =>
      destruct (Hm _ _ _ H1); destruct (Hk _ _ _ H1 _ _ _ H2)
  end.
  split; [eauto using same_but_trans | congruence].
Qed.

Lemma frame_lift W {A} (r : result A) : frame ptcri W (lift r).
Proof. intros s b s1 H. step. eauto using same_but_refl. Qed.

Lemma frame_gets W {A} (f : Track -> A) : frame ptcri W (gets f).
Proof. intros s b s1 H. step. eauto using same_but_refl. Qed.

Lemma frame_at W {A} (l : list A) i : frame ptcri W (at_ l i).
Proof. apply frame_lift. Qed.

Lemma frame_at_nat W {A} (l : list A) i : frame ptcri W (at_nat l i).
Proof. apply frame_lift. Qed.

Lemma frame_takes W {A} (l : list A) i : frame ptcri W (takes l i).
Proof. apply frame_lift. Qed.

Lemma frame_log W c : frame ptcri W (log_search c).
Proof.
  intros s b s1 H. unfold log_search in H. injection H as _ <-.
  eauto using same_but_refl.
Qed.

Lemma frame_flag W f :
  frame ptcri W (modify (fun t => with_flag t f)).
Proof.
  intros s b s1 H. apply modify_ok in H as (-> & ? & _).
  split; [now split | assumption].
Qed.

Lemma frame_info W f :
  frame ptcri W (modify (fun t => with_info t (f t))).
Proof.
  intros s b s1 H. apply modify_ok in H as (-> & ? & _).
  split; [now split | assumption].
Qed.

Lemma frame_add_eep W e ind m :
  e ∈ W -> frame ptcri W (add_eep ptcri e ind m).
Proof.
  intros He s b s1 H. apply add_eep_ok in H as (k & Hk & Hlen & -> & ? & _).
  split; [| assumption]. split; cbn; try reflexivity.
  - apply length_insert.
  - intros k' Hk'. apply list_lookup_insert_ne. intros <-.
    now apply (Hk' e).
  - intros e' He'. apply assoc_cons_ne. now intros ->.
Qed.

Lemma frame_for_each W {A} (f : A -> M unit) l :
  (forall x, x ∈ l -> frame ptcri W (f x)) -> frame ptcri W (for_each f l).
Proof.
  induction l as [| x l IH]; intros Hf; cbn.
  - apply frame_ret.
  - apply frame_bind; [apply Hf; left |].
    intros _. apply IH. intros y Hy. apply Hf. now right.
Qed.

End Frames.

(** Reduces a goal [frame ptcri W m] along the structure of [m], leaving
    the calls it knows no lemma for. *)
Ltac frame_step :=
  lazymatch goal with
  | |- frame _ _ (bind _ _) => apply frame_bind; [| intros]
  | |- frame _ _ (ret _) => apply frame_ret
  | |- frame _ _ (raise _) => apply frame_raise
  | |- frame _ _ (lift _) => apply frame_lift
  | |- frame _ _ (gets _) => apply frame_gets
  | |- frame _ _ (at_ _ _) => apply frame_at
  | |- frame _ _ (at_nat _ _) => apply frame_at_nat
  | |- frame _ _ (takes _ _) => apply frame_takes
  | |- frame _ _ (argmin_ _) => apply frame_lift
  | |- frame _ _ (argmax_ _) => apply frame_lift
  | |- frame _ _ (log_search _) => apply frame_log
  | |- frame _ _ (modify (fun t => with_flag t _)) => apply frame_flag
  | |- frame _ _ (add_eep _ _ _ _) =>
      apply frame_add_eep; set_solver
  | |- frame _ _ (if ?c then _ else _) => destruct c
  | |- frame _ _ (match ?x with _ => _ end) => destruct x
  end.

Ltac frame_auto := repeat frame_step.

Create HintDb frames discriminated.

Ltac frame_call :=
  first [ solve [auto with frames]
        | eapply frame_weaken; [| solve [auto with frames]]; set_solver ].

Ltac frame_go := repeat first [frame_step | frame_call].

Section FrameLemmas.

Variable cfg : config.
Variable ext : collaborators.
Variable ptcri : critical_point.

Lemma cens_of_elem c names : c ∈ cens_of names -> YCEN c ∈ names.
Proof.
  unfold cens_of. rewrite list_elem_of_omap. intros (e & He & Hc).
  destruct e; try discriminate. now injection Hc as <-.
Qed.

Lemma ycens_sub : ycens ptcri ⊆ please_define ptcri.
Proof.
  intros e. unfold ycens. rewrite list_elem_of_fmap.
  intros (c & -> & Hc). now apply cens_of_elem.
Qed.

Lemma frame_raw_index W p sd : frame ptcri W (raw_index ptcri p sd).
Proof. unfold raw_index. frame_go. Qed.

Lemma frame_entry W e : frame ptcri W (entry ptcri e).
Proof. unfold entry, get_ptcri_name. frame_go. Qed.

Lemma frame_attr W e : frame ptcri W (attr e).
Proof. unfold attr. frame_go. Qed.

Lemma frame_get_ptcri_name W e sd :
  frame ptcri W (get_ptcri_name ptcri e sd).
Proof. unfold get_ptcri_name. frame_go. Qed.

Hint Resolve frame_raw_index frame_entry frame_attr frame_get_ptcri_name
  : frames.

Lemma frame_peak_finder W c e1 e2 k :
  frame ptcri W (peak_finder ext ptcri c e1 e2 k).
Proof. unfold peak_finder. frame_go. Qed.

Lemma frame_inds_between W n1 n2 sd :
  frame ptcri W (inds_between_ptcris ext ptcri n1 n2 sd).
Proof. unfold inds_between_ptcris. frame_go. Qed.

Lemma frame_second_derivative W x inds gt :
  frame ptcri W (second_derivative ext x inds gt).
Proof. unfold second_derivative. frame_go. Qed.

Lemma frame_check W : frame ptcri W (check_for_monotonic_increase).
Proof. unfold check_for_monotonic_increase. frame_go. Qed.

Lemma frame_thirds W : frame ptcri W thirds.
Proof. unfold thirds. frame_go. Qed.

Lemma frame_delta_te W b a : frame ptcri W (delta_te_eeps b a).
Proof. unfold delta_te_eeps. frame_go. Qed.

Lemma frame_check_minl W i m : frame ptcri W (check_minl i m).
Proof. unfold check_minl. frame_go. Qed.

Hint Resolve frame_peak_finder frame_inds_between frame_second_derivative
  frame_check frame_thirds frame_delta_te frame_check_minl : frames.

Lemma frame_cen_loop tol cens : forall inds,
  frame ptcri (YCEN <$> cens) (cen_loop ptcri tol cens inds).
Proof.
  induction cens as [| c cens IH]; intros inds; cbn [cen_loop].
  - frame_go.
  - frame_go.
Qed.

Lemma frame_add_cen_eeps hb_ tol istart :
  frame ptcri (ycens ptcri) (add_cen_eeps ptcri hb_ tol istart).
Proof. unfold add_cen_eeps. frame_go. apply frame_cen_loop. Qed.

Lemma frame_add_eep_with_age e a :
  frame ptcri [e] (add_eep_with_age ptcri e a).
Proof. unfold add_eep_with_age. frame_go. Qed.

Lemma frame_add_ms_beg_eep x : frame ptcri [MS_BEG] (add_ms_beg_eep ptcri x).
Proof. unfold add_ms_beg_eep. frame_go. Qed.

Lemma frame_check_pms_beg : frame ptcri [PMS_BEG] (check_pms_beg ptcri).
Proof. unfold check_pms_beg. frame_go. Qed.

Lemma frame_add_hb_beg : frame ptcri [HE_BEG] (add_hb_beg ptcri).
Proof. unfold add_hb_beg. frame_go. Qed.

Lemma frame_add_quiesscent r :
  frame ptcri [HE_BEG] (add_quiesscent_he_eep ext ptcri r).
Proof. unfold add_quiesscent_he_eep. frame_go. Qed.

Hint Resolve frame_add_cen_eeps frame_add_eep_with_age frame_add_ms_beg_eep
  frame_check_pms_beg frame_add_hb_beg frame_add_quiesscent : frames.

Lemma frame_tp_loop W in_tp second ex_inds diff_L i :
  (forall k, frame ptcri W (in_tp k)) ->
  forall mins ly1 ly2 m1 m2,
    frame ptcri W (tp_loop in_tp second ex_inds diff_L i mins ly1 ly2 m1 m2).
Proof.
  intros Hin. induction i as [| i IH]; intros; cbn [tp_loop]; frame_go;
    auto.
Qed.

Lemma frame_add_agb_eeps :
  frame ptcri [AGB_LY1; AGB_LY2] (add_agb_eeps ext ptcri).
Proof.
  unfold add_agb_eeps. frame_go; apply frame_tp_loop; intros; frame_go.
Qed.

Lemma frame_add_ms_eeps :
  frame ptcri [MS_TMIN; MS_TO] (add_ms_eeps cfg ext ptcri).
Proof. unfold add_ms_eeps, ms_to_search. frame_go. Qed.

Lemma frame_add_rg_minl e1 e2 p :
  frame ptcri [RG_MINL] (add_rg_minl_eep cfg ext ptcri e1 e2 p).
Proof. unfold add_rg_minl_eep. frame_go. Qed.

Lemma frame_add_sg_maxl e2 :
  frame ptcri [SG_MAXL] (add_sg_maxl_eep cfg ext ptcri e2).
Proof. unfold add_sg_maxl_eep. frame_go. Qed.

Hint Resolve frame_add_agb_eeps frame_add_ms_eeps frame_add_rg_minl
  frame_add_sg_maxl : frames.

Lemma frame_minl_loop1 msto ps : forall i,
  frame ptcri [RG_MINL] (minl_loop1 cfg ext ptcri msto ps i).
Proof. induction ps as [| p ps IH]; intros; cbn [minl_loop1]; frame_go. Qed.

Lemma frame_minl_loop2 msto ps : forall i,
  frame ptcri [SG_MAXL; RG_MINL] (minl_loop2 cfg ext ptcri msto ps i).
Proof. induction ps as [| p ps IH]; intros; cbn [minl_loop2]; frame_go. Qed.

Lemma frame_set_rg_base : frame ptcri [RG_MINL] (set_rg_base ptcri).
Proof. unfold set_rg_base. frame_go. Qed.

Hint Resolve frame_minl_loop1 frame_minl_loop2 frame_set_rg_base : frames.

Lemma frame_add_sg_rg_eeps :
  frame ptcri [SG_MAXL; RG_MINL] (add_sg_rg_eeps cfg ext ptcri).
Proof. unfold add_sg_rg_eeps. frame_go. Qed.

Lemma frame_add_msbeg a b :
  frame ptcri [PMS_END; MS_BEG] (add_msbeg ext ptcri a b).
Proof. unfold add_msbeg. frame_go. Qed.

Lemma frame_add_mstmin a b m :
  frame ptcri [MS_TMIN] (add_mstmin ext ptcri a b m).
Proof. unfold add_mstmin. frame_go. Qed.

Hint Resolve frame_add_sg_rg_eeps frame_add_msbeg frame_add_mstmin : frames.

Lemma frame_high_mass_ms_to :
  frame ptcri [MS_TO] (high_mass_ms_to ptcri).
Proof. unfold high_mass_ms_to. frame_go. Qed.

Lemma frame_high_mass_ms ms_to :
  frame ptcri [MS_TMIN; PMS_END; MS_BEG] (high_mass_ms ext ptcri ms_to).
Proof. unfold high_mass_ms. frame_go. Qed.

Lemma frame_high_mass_rest a b c :
  frame ptcri
    (ycens ptcri ++ [YCEN 0; HE_BEG; TPAGB; SG_MAXL; RG_MINL; RG_BMP1;
                     RG_BMP2; RG_TIP; AGB_LY1; AGB_LY2])
    (high_mass_rest ext ptcri a b c).
Proof. unfold high_mass_rest. frame_go. Qed.

End FrameLemmas.

Section FrameLemmas2.

Variable cfg : config.
Variable ext : collaborators.
Variable ptcri : critical_point.

Hint Resolve frame_raw_index frame_entry frame_attr frame_get_ptcri_name
  frame_peak_finder frame_inds_between frame_second_derivative
  frame_check frame_thirds frame_delta_te frame_check_minl
  frame_add_cen_eeps frame_add_eep_with_age frame_add_ms_beg_eep
  frame_check_pms_beg frame_add_hb_beg frame_add_quiesscent
  frame_add_agb_eeps frame_add_ms_eeps frame_add_rg_minl
  frame_add_sg_maxl frame_add_sg_rg_eeps frame_high_mass_ms_to
  frame_high_mass_ms frame_high_mass_rest : frames.

Lemma frame_add_high_mass_eeps :
  frame ptcri
    ([MS_TO; MS_TMIN; PMS_END; MS_BEG] ++ ycens ptcri
     ++ [YCEN 0; HE_BEG; TPAGB; SG_MAXL; RG_MINL; RG_BMP1; RG_BMP2; RG_TIP;
         AGB_LY1; AGB_LY2])
    (add_high_mass_eeps ext ptcri).
Proof. unfold add_high_mass_eeps. frame_go. Qed.

Lemma frame_reset W m :
  please_define ptcri ⊆ W ->
  frame ptcri W
    (for_each (fun cp => add_eep ptcri cp 0 m) (please_define ptcri)).
Proof.
  intros Hsub. apply frame_for_each. intros e He.
  apply frame_add_eep. auto.
Qed.

Lemma length_tpagb_names (l : list Z) :
  length l = 3%nat ->
  forall p, p ∈ enumerate (slice_from l 1) -> fst p = 0 \/ fst p = 1.
Proof.
  destruct l as [| a [| b [| c [| d l]]]]; try discriminate. intros _ p.
  change (p ∈ [(0, b); (1, c)] -> fst p = 0 \/ fst p = 1).
  rewrite !elem_of_cons, elem_of_nil.
  intros [-> | [-> | []]]; cbn; auto.
Qed.

Lemma frame_add_tpagb_eeps :
  frame ptcri [TPAGB; TPAGB_n 1; TPAGB_n 2] (add_tpagb_eeps ptcri).
Proof.
  unfold add_tpagb_eeps.
  do 5 (apply frame_bind; [frame_go | intros]).
  apply frame_bind_ok; [frame_go |]. intros args s s1 Hargs. step.
  apply length_mapM in Hargs. change (3%nat = length args) in Hargs.
  apply frame_bind; [frame_go |]. intros itp0.
  apply frame_bind; [frame_go |]. intros _.
  apply frame_for_each. intros p Hp.
  apply length_tpagb_names in Hp; [| now rewrite length_fmap].
  apply frame_add_eep. destruct Hp as [-> | ->]; cbn; set_solver.
Qed.

Lemma frame_ms_beg_warning :
  frame ptcri [MS_BEG] (ms_beg_warning cfg ptcri).
Proof.
  unfold ms_beg_warning. frame_go;
    try (apply (frame_info ptcri _ (fun t => _ :: info t))).
Qed.

End FrameLemmas2.

(** ** Monotonic increase *)

Lemma nonzero_from_nil {A} (p : A -> bool) l : forall i,
  np.nonzero_from p i l = [] -> Forall (fun x => p x = false) l.
Proof.
  induction l as [| x l IH]; intros i; cbn; [constructor |].
  destruct (p x) eqn:Hx; [discriminate |]. intros H. constructor; eauto.
Qed.

Lemma nonzero_from_head {A} (p : A -> bool) l : forall i0 i rest,
  np.nonzero_from p i0 l = i :: rest ->
  i0 <= i
  /\ (exists v, l !! Z.to_nat (i - i0) = Some v /\ p v = true)
  /\ forall (j : nat) w,
       Z.of_nat j < i - i0 -> l !! j = Some w -> p w = false.
Proof.
  induction l as [| x l IH]; intros i0 i rest; cbn; [discriminate |].
  destruct (p x) eqn:Hx.
  - intros [= <- _]. rewrite Z.sub_diag. split; [lia |].
    split; [exists x; auto | lia].
  - intros H. apply IH in H as (Hle & (v & Hv & Hp) & Hbefore).
    split; [lia |]. split.
    + exists v. split; [| exact Hp].
      replace (Z.to_nat (i - i0)) with (S (Z.to_nat (i - (i0 + 1)))) by lia.
      exact Hv.
    + intros [| j] w Hj Hw; cbn in Hw; [congruence |].
      apply (Hbefore j); [lia | exact Hw].
Qed.

Lemma diff_lookup l (k : nat) a b :
  l !! k = Some a -> l !! S k = Some b -> np.diff l !! k = Some (b - a).
Proof.
  intros Ha Hb. unfold np.diff. rewrite lookup_zip_with, Ha. cbn.
  now rewrite lookup_tail, Hb.
Qed.

Lemma adjacent_increasing l :
  (forall (k : nat) a b, l !! k = Some a -> l !! S k = Some b -> a < b) ->
  increasing l.
Proof.
  intros Hadj i j. induction j as [| j IH]; intros a b Hij Ha Hb; [lia |].
  destruct (lookup_lt_is_Some_2 l j) as [c Hc].
  { apply lookup_lt_Some in Hb. lia. }
  pose proof (Hadj j c b Hc Hb).
  destruct (decide (i = j)) as [-> | Hne]; [congruence |].
  assert (a < c) by (apply IH; [lia | assumption..]). lia.
Qed.

Lemma no_negatives_increasing l :
  np.nonzero (fun d => d <=? 0) (np.diff l) = [] -> increasing l.
Proof.
  intros H. apply nonzero_from_nil in H. apply adjacent_increasing.
  intros k a b Ha Hb. pose proof (diff_lookup l k a b Ha Hb) as Hd.
  eapply Forall_lookup_1 in H; [| exact Hd]. cbn in H. lia.
Qed.

Lemma check_ok s u s1 :
  check_for_monotonic_increase s = Ok (u, s1) ->
  iptcri (track s1) = iptcri (track s)
  /\ (flag (track s1) = None -> increasing (positive (iptcri (track s1)))).
Proof.
  unfold check_for_monotonic_increase. intros H. steps.
  destruct (flag (track s)) eqn:Hflag; steps.
  - split; [reflexivity | congruence].
  - case_bool_decide as Hneg.
    + match goal with H : modify _ _ = _ |- _ =>
        apply modify_ok in H as (-> & _) end.
      split; [reflexivity | discriminate].
    + steps. split; [reflexivity |]. intros _.
      apply no_negatives_increasing.
      destruct (np.nonzero _ _); [reflexivity | cbn in Hneg; lia].
Qed.

Lemma dispatch_checked cfg ext ptcri hb_ n s u s1 :
  dispatch cfg ext ptcri hb_ n s = Ok (u, s1) ->
  exists s0, check_for_monotonic_increase s0 = Ok (u, s1).
Proof.
  unfold dispatch. intros H. destruct hb_; steps; [eauto |].
  destruct (Qle_bool _ _); steps; [eauto |].
  destruct (_ <=? _); steps; eauto.
Qed.

(** C1, as amended.  When [define_eep_stages] returns and the track is
    not flagged, the positive entries of its EEP table, in the order of
    the EEP names, grow strictly. *)
Theorem define_eep_stages_monotonic cfg ext ptcri hb_ s u s1 :
  define_eep_stages cfg ext ptcri hb_ s = Ok (u, s1) ->
  flag (track s1) = None ->
  increasing (positive (iptcri (track s1))).
Proof.
  unfold define_eep_stages. intros H Hflag. steps.
  match goal with H : dispatch _ _ _ _ _ _ = _ |- _ =>
    apply dispatch_checked in H as (s0 & H); apply check_ok in H as [_ H] end.
  auto.
Qed.

Lemma define_eep_stages_monotonic_hm :
  define_eep_stages Example.thresholds Example.helpers Example.catalogue
    false (Example.hm_loaded (1 # 1000)) = Ok (Example.hm_run (1 # 1000))
  /\ flag (track (snd (Example.hm_run (1 # 1000)))) = None
  /\ increasing (positive (iptcri (track (snd (Example.hm_run (1 # 1000)))))).
Proof.
  split; [vm_compute; reflexivity |].
  split; [vm_compute; reflexivity |].
  apply (define_eep_stages_monotonic Example.thresholds Example.helpers
           Example.catalogue false (Example.hm_loaded (1 # 1000)) tt
           (snd (Example.hm_run (1 # 1000)))).
  - vm_compute. reflexivity.
  - vm_compute. reflexivity.
Defined.

(** C1, as stated, fails.  On the high-mass track [Example.hm_loaded] of
    metallicity 0.001 the searches for PMS_END and MS_BEG find nothing;
    [define_eep_stages] returns with the track unflagged and the table
    [1; 2; -1; -1; 8; 13; ...], whose non-zero entries do not grow. *)
Lemma define_eep_stages_negative_entries :
  define_eep_stages Example.thresholds Example.helpers Example.catalogue
    false (Example.hm_loaded (1 # 1000)) = Ok (Example.hm_run (1 # 1000))
  /\ flag (track (snd (Example.hm_run (1 # 1000)))) = None
  /\ ~ increasing
       (nonzero_entries (iptcri (track (snd (Example.hm_run (1 # 1000)))))).
Proof.
  split; [vm_compute; reflexivity |].
  split; [vm_compute; reflexivity |].
  intros Hinc. specialize (Hinc 1%nat 2%nat 2 (-1)).
  assert (2 < -1); [| lia].
  apply Hinc; [lia | vm_compute; reflexivity | vm_compute; reflexivity].
Qed.

(** ** The turn-off of a high-mass track *)

Lemma same_but_entry ptcri W t t1 e k :
  same_but ptcri W t t1 -> e ∉ W ->
  index_of e (eep_list ptcri) = Some k ->
  iptcri t1 !! k = iptcri t !! k.
Proof.
  intros Hsb He Hk. apply (sb_table _ _ _ _ Hsb). intros e' He' Hk'.
  apply He. now rewrite (index_of_inj _ _ _ _ Hk Hk').
Qed.

Lemma not_ycen e ptcri :
  (forall c, e <> YCEN c) -> e ∉ ycens ptcri.
Proof.
  intros He. unfold ycens. rewrite list_elem_of_fmap.
  intros (c & -> & _). now apply (He c).
Qed.

Lemma high_mass_ms_to_ok ptcri s ms_to s1 :
  high_mass_ms_to ptcri s = Ok (ms_to, s1) ->
  first_zero (col xcen (track s)) ms_to
  /\ exists k, index_of MS_TO (eep_list ptcri) = Some k
               /\ iptcri (track s1) !! k = Some ms_to.
Proof.
  unfold high_mass_ms_to. intros H. steps.
  match goal with H : np.index _ 0 = Some _ |- _ => rename H into Hz end.
  match goal with H : add_eep _ _ _ _ _ = _ |- _ =>
    apply add_eep_ok in H as (k & Hk & Hlen & -> & _) end.
  split.
  - unfold np.nonzero in Hz.
    destruct (np.nonzero_from _ 0 _) as [| i rest] eqn:E; [discriminate |].
    injection Hz as ->.
    apply nonzero_from_head in E as (Hle & Hv & Hbefore).
    rewrite Z.sub_0_r in *. repeat split; [lia | exact Hv |].
    intros j w Hj Hw. exact (Hbefore j w Hj Hw).
  - exists k. split; [exact Hk |]. cbn. apply list_lookup_insert_eq. lia.
Qed.

(** C4.  When [define_eep_stages] returns on a track that is not a
    horizontal-branch track and whose mass reaches [high_mass], the entry
    of MS_TO is the first sample at which central hydrogen reads 0. *)
Theorem high_mass_turn_off cfg ext ptcri s u s1 :
  define_eep_stages cfg ext ptcri false s = Ok (u, s1) ->
  Qle_bool (high_mass cfg) (mass (track s)) = true ->
  exists i k,
    first_zero (col xcen (track s)) i
    /\ index_of MS_TO (eep_list ptcri) = Some k
    /\ iptcri (track s1) !! k = Some i.
Proof.
  unfold define_eep_stages, dispatch. intros H Hmass. steps.
  repeat match goal with
  | H : modify _ ?s = Ok (_, ?s') |- _ =>
      apply (frame_info ptcri [] (fun _ => [])) in H as [H _]
  | H : for_each _ _ ?s = Ok (_, ?s') |- _ =>
      apply (frame_reset ptcri (please_define ptcri)) in H as [H _];
      [| reflexivity]
  | H : check_pms_beg _ _ = Ok _ |- _ =>
      apply frame_check_pms_beg in H as [H _]
  | H : ms_beg_warning _ _ _ = Ok _ |- _ =>
      apply frame_ms_beg_warning in H as [H _]
  end.
  match goal with
  | H : (if agb _ then _ else _) ?s = Ok (_, ?s') |- _ =>
      assert (Hagb : same_but ptcri [TPAGB; TPAGB_n 1; TPAGB_n 2]
                       (track s) (track s'))
        by (destruct (agb _); steps;
            [eapply frame_add_tpagb_eeps; eassumption
            | apply same_but_refl]);
      clear H
  end.
  repeat match goal with H : same_but _ _ _ _ |- _ =>
    let Hd := fresh "Hd" in let Hm := fresh "Hm" in
    pose proof (sb_data _ _ _ _ H) as Hd;
    pose proof (sb_mass _ _ _ _ H) as Hm; clear H end.
  match goal with
  | H : (if Qle_bool _ (mass (track ?s')) then _ else _) _ = _ |- _ =>
      replace (mass (track s')) with (mass (track s)) in H by congruence;
      rewrite Hmass in H; unfold add_high_mass_eeps in H
  end.
  steps.
  match goal with H : high_mass_ms_to _ ?s' = _ |- _ =>
    apply high_mass_ms_to_ok in H as (Hzero & k & Hk & Hent);
    replace (col xcen (track s')) with (col xcen (track s)) in Hzero
      by (unfold col; congruence)
  end.
  match goal with H : high_mass_ms _ _ _ _ = _ |- _ =>
    apply frame_high_mass_ms in H as [Hms _] end.
  match goal with H : high_mass_rest _ _ _ _ _ _ = _ |- _ =>
    apply frame_high_mass_rest in H as [Hrest _] end.
  match goal with H : check_for_monotonic_increase _ = _ |- _ =>
    apply check_ok in H as [Hchk _] end.
  eexists _, k. split; [exact Hzero |]. split; [exact Hk |].
  rewrite Hchk, (same_but_entry _ _ _ _ MS_TO k Hrest),
    (same_but_entry _ _ _ _ MS_TO k Hms); auto.
  - rewrite !elem_of_cons, elem_of_nil. intuition discriminate.
  - rewrite elem_of_app, !elem_of_cons, elem_of_nil.
    intros [Hy | Hl]; [| intuition discriminate].
    revert Hy. now apply not_ycen.
Qed.

Lemma high_mass_turn_off_hm :
  define_eep_stages Example.thresholds Example.helpers Example.catalogue
    false (Example.hm_loaded (2 # 100)) = Ok (Example.hm_run (2 # 100))
  /\ field xcen <$> take 6 (drop 10 (data (track (Example.hm_loaded (2 # 100)))))
     = [2 # 10; 1 # 10; 5 # 100; 0; 0; 0]%Q
  /\ iptcri (track (snd (Example.hm_run (2 # 100)))) !! 5%nat = Some 13
  /\ exists i k,
       first_zero (col xcen (track (Example.hm_loaded (2 # 100)))) i
       /\ index_of MS_TO (eep_list Example.catalogue) = Some k
       /\ iptcri (track (snd (Example.hm_run (2 # 100)))) !! k = Some i.
Proof.
  split; [vm_compute; reflexivity |].
  split; [vm_compute; reflexivity |].
  split; [vm_compute; reflexivity |].
  apply (high_mass_turn_off Example.thresholds Example.helpers
           Example.catalogue (Example.hm_loaded (2 # 100)) tt
           (snd (Example.hm_run (2 # 100)))).
  - vm_compute. reflexivity.
  - vm_compute. reflexivity.
Defined.

(** ** The record of searches *)

Lemma quiet_ret {A} (a : A) : quiet (ret a).
Proof. intros s b s1 H. now step. Qed.

Lemma quiet_raise {A} e : quiet (@raise A e).
Proof. intros s b s1 H. discriminate. Qed.

Lemma quiet_bind {A B} (m : M A) (k : A -> M B) :
  quiet m -> (forall a, quiet (k a)) -> quiet (bind m k).
Proof.
  intros Hm Hk s b s2 H. step.
  match goal with
  | H1 : m _ = _, H2 : k _ _ = _ |- _ =>
      rewrite (Hk _ _ _ _ H2), (Hm _ _ _ H1)
  end. reflexivity.
Qed.

Lemma quiet_lift {A} (r : result A) : quiet (lift r).
Proof. intros s b s1 H. now step. Qed.

Lemma quiet_gets {A} (f : Track -> A) : quiet (gets f).
Proof. intros s b s1 H. now step. Qed.

Lemma quiet_modify f : quiet (modify f).
Proof. intros s b s1 H. now apply modify_ok in H. Qed.

Lemma quiet_add_eep ptcri e ind m : quiet (add_eep ptcri e ind m).
Proof. intros s b s1 H. now apply add_eep_ok in H as (k & _ & _ & _ & _ & ?). Qed.

Lemma quiet_for_each {A} (f : A -> M unit) l :
  (forall x, quiet (f x)) -> quiet (for_each f l).
Proof.
  intros Hf. induction l; cbn; [apply quiet_ret |].
  apply quiet_bind; auto.
Qed.

Create HintDb quiets discriminated.

Ltac quiet_step :=
  lazymatch goal with
  | |- quiet (bind _ _) => apply quiet_bind; [| intros]
  | |- quiet (ret _) => apply quiet_ret
  | |- quiet (raise _) => apply quiet_raise
  | |- quiet (lift _) => apply quiet_lift
  | |- quiet (gets _) => apply quiet_gets
  | |- quiet (at_ _ _) => apply quiet_lift
  | |- quiet (at_nat _ _) => apply quiet_lift
  | |- quiet (takes _ _) => apply quiet_lift
  | |- quiet (argmin_ _) => apply quiet_lift
  | |- quiet (argmax_ _) => apply quiet_lift
  | |- quiet (modify _) => apply quiet_modify
  | |- quiet (add_eep _ _ _ _) => apply quiet_add_eep
  | |- quiet (if ?c then _ else _) => destruct c
  | |- quiet (match ?x with _ => _ end) => destruct x
  end.

Ltac quiet_go := repeat first [quiet_step | solve [auto with quiets]].

Section Quiet.

Variable cfg : config.
Variable ext : collaborators.
Variable ptcri : critical_point.

Lemma quiet_raw_index p sd : quiet (raw_index ptcri p sd).
Proof. unfold raw_index. quiet_go. Qed.

Lemma quiet_entry e : quiet (entry ptcri e).
Proof. unfold entry, get_ptcri_name. quiet_go. Qed.

Lemma quiet_attr e : quiet (attr e).
Proof. unfold attr. quiet_go. Qed.

Hint Resolve quiet_raw_index quiet_entry quiet_attr : quiets.

Lemma quiet_inds_between n1 n2 sd :
  quiet (inds_between_ptcris ext ptcri n1 n2 sd).
Proof. unfold inds_between_ptcris. quiet_go. Qed.

Lemma quiet_check : quiet check_for_monotonic_increase.
Proof. unfold check_for_monotonic_increase. quiet_go. Qed.

Lemma quiet_thirds : quiet thirds.
Proof. unfold thirds. quiet_go. Qed.

Hint Resolve quiet_inds_between quiet_check quiet_thirds : quiets.

Lemma quiet_cen_loop tol cens : forall inds,
  quiet (cen_loop ptcri tol cens inds).
Proof. induction cens; intros; cbn [cen_loop]; quiet_go. Qed.

Hint Resolve quiet_cen_loop : quiets.

Lemma quiet_add_cen_eeps hb_ tol istart :
  quiet (add_cen_eeps ptcri hb_ tol istart).
Proof. unfold add_cen_eeps. quiet_go. Qed.

Lemma quiet_add_quiesscent r : quiet (add_quiesscent_he_eep ext ptcri r).
Proof. unfold add_quiesscent_he_eep. quiet_go. Qed.

Lemma quiet_tp_loop in_tp second ex_inds diff_L i :
  (forall k, quiet (in_tp k)) ->
  forall mins ly1 ly2 m1 m2,
    quiet (tp_loop in_tp second ex_inds diff_L i mins ly1 ly2 m1 m2).
Proof.
  intros Hin. induction i; intros; cbn [tp_loop]; quiet_go; auto.
Qed.

Lemma quiet_add_agb_eeps : quiet (add_agb_eeps ext ptcri).
Proof.
  unfold add_agb_eeps. quiet_go; apply quiet_tp_loop; intros; quiet_go.
Qed.

Hint Resolve quiet_add_cen_eeps quiet_add_quiesscent quiet_add_agb_eeps
  : quiets.

Lemma quiet_high_mass_ms_to : quiet (high_mass_ms_to ptcri).
Proof. unfold high_mass_ms_to. quiet_go. Qed.

Lemma quiet_high_mass_rest a b c : quiet (high_mass_rest ext ptcri a b c).
Proof. unfold high_mass_rest. quiet_go. Qed.

Lemma raw_index_ok p sd s r s1 :
  raw_index ptcri p sd s = Ok (r, s1) -> s1 = s.
Proof. unfold raw_index. destruct p; intros H; now steps. Qed.

(** A call of [peak_finder] adds itself to the record. *)
Lemma peak_finder_logs c e1 e2 k s r s1 :
  peak_finder ext ptcri c e1 e2 k s = Ok (r, s1) ->
  track s1 = track s
  /\ searches s1 = searches s
                   ++ [{| pf_col := c; pf_start := e1; pf_end := e2;
                          pf_args := k; pf_result := r |}].
Proof.
  unfold peak_finder. intros H. steps.
  match goal with H : log_search _ _ = _ |- _ =>
    unfold log_search in H; injection H as <- end.
  repeat match goal with H : raw_index _ _ _ _ = Ok (_, _) |- _ =>
    apply raw_index_ok in H; subst end.
  cbn. auto.
Qed.

End Quiet.

Lemma first_pos_app {A} (p : A -> bool) l1 l2 :
  first_pos p (l1 ++ l2)
  = match first_pos p l1 with
    | Some i => Some i
    | None => (fun j => length l1 + j)%nat <$> first_pos p l2
    end.
Proof.
  induction l1 as [| x l1 IH]; cbn.
  - now destruct (first_pos p l2).
  - destruct (p x); [reflexivity |]. rewrite IH.
    destruct (first_pos p l1); [reflexivity |].
    now destruct (first_pos p l2).
Qed.

Section SearchOrder.

Variable ext : collaborators.
Variable ptcri : critical_point.

Lemma add_mstmin_logs a b m s r s1 :
  add_mstmin ext ptcri a b m s = Ok (r, s1) ->
  exists c, searches s1 = searches s ++ [c]
            /\ tmin_search c = true /\ ms_beg_search c = false.
Proof.
  unfold add_mstmin. intros H. steps.
  match goal with H : peak_finder _ _ _ _ _ _ _ = _ |- _ =>
    apply peak_finder_logs in H as [_ H] end.
  match goal with H : add_eep _ _ _ _ _ = _ |- _ =>
    apply quiet_add_eep in H end.
  eexists. split; [etransitivity; eassumption |]. split; reflexivity.
Qed.

Lemma add_msbeg_logs a b s r s1 :
  add_msbeg ext ptcri a b s = Ok (r, s1) ->
  exists new, searches s1 = searches s ++ new
              /\ first_pos tmin_search new = None
              /\ exists j, first_pos ms_beg_search new = Some j.
Proof.
  unfold add_msbeg. intros H. steps.
  repeat match goal with
  | H : add_eep _ _ _ _ _ = _ |- _ => apply quiet_add_eep in H
  end.
  destruct (np.Qltb _ (4 # 1000)); destruct (_ =? -1); steps;
    repeat match goal with
    | H : add_eep _ _ _ _ _ = _ |- _ => apply quiet_add_eep in H
    | H : peak_finder _ _ _ _ _ _ _ = _ |- _ =>
        apply peak_finder_logs in H as [_ H]
    end;
    repeat match goal with
    | H : searches ?s' = _ |- context [searches ?s'] => rewrite H
    end;
    rewrite <- ?app_assoc; eexists; (split; [reflexivity |]);
    cbn; eauto.
Qed.

Lemma high_mass_ms_logs ms_to s r s1 :
  high_mass_ms ext ptcri ms_to s = Ok (r, s1) ->
  exists new,
    searches s1 = searches s ++ new
    /\ if np.Qltb (1 # 100) (Z_ (track s))
       then searched_before tmin_search ms_beg_search new = true
       else searched_before ms_beg_search tmin_search new = true.
Proof.
  unfold high_mass_ms. intros H. steps.
  assert (Hlast : searches x0 = searches x2).
  { destruct (z0 =? -1); steps; [| reflexivity].
    match goal with H : add_eep _ _ _ _ _ = _ |- _ =>
      now apply quiet_add_eep in H end. }
  rewrite Hlast. clear H Hlast.
  destruct (np.Qltb (1 # 100) _); steps.
  - match goal with H : add_mstmin _ _ _ _ _ _ = _ |- _ =>
      apply add_mstmin_logs in H as (c & Hc & Ht & Hb) end.
    match goal with H : add_msbeg _ _ _ _ _ = _ |- _ =>
      apply add_msbeg_logs in H as (new & Hn & Hnt & j & Hj) end.
    exists ([c] ++ new). rewrite Hn, Hc, <- app_assoc.
    split; [reflexivity |].
    unfold searched_before. cbn. rewrite Ht, Hb, Hj. reflexivity.
  - match goal with H : add_mstmin _ _ _ _ _ _ = _ |- _ =>
      apply add_mstmin_logs in H as (c & Hc & Ht & Hb) end.
    match goal with H : add_msbeg _ _ _ _ _ = _ |- _ =>
      apply add_msbeg_logs in H as (new & Hn & Hnt & j & Hj) end.
    exists (new ++ [c]). rewrite Hc, Hn, <- app_assoc.
    split; [reflexivity |].
    unfold searched_before. rewrite !first_pos_app, Hnt, Hj. cbn.
    rewrite Ht. cbn. apply bool_decide_eq_true.
    assert (j < length new)%nat; [| lia].
    clear -Hj. revert j Hj. induction new as [| x new IH]; cbn;
      [discriminate |].
    destruct (ms_beg_search x); [intros j [= <-]; lia |].
    destruct (first_pos _ new); [| discriminate].
    intros j [= <-]. specialize (IH _ eq_refl). lia.
Qed.

(** C5, as amended.  In [add_high_mass_eeps] the order of the two
    searches depends on the metallicity of the track: above 0.01 the
    temperature minimum is searched for before the beginning of the main
    sequence, and at 0.01 or below the beginning of the main sequence is
    searched for first. *)
Theorem high_mass_search_order s r s1 :
  add_high_mass_eeps ext ptcri s = Ok (r, s1) ->
  exists new,
    searches s1 = searches s ++ new
    /\ if np.Qltb (1 # 100) (Z_ (track s))
       then searched_before tmin_search ms_beg_search new = true
       else searched_before ms_beg_search tmin_search new = true.
Proof.
  unfold add_high_mass_eeps. intros H. steps.
  match goal with H : high_mass_ms_to _ _ = _ |- _ =>
    pose proof (quiet_high_mass_ms_to _ _ _ _ H) as Hq1;
    apply frame_high_mass_ms_to in H as [Hsb _] end.
  match goal with H : high_mass_rest _ _ _ _ _ _ = _ |- _ =>
    apply quiet_high_mass_rest in H end.
  match goal with H : high_mass_ms _ _ _ _ = _ |- _ =>
    apply high_mass_ms_logs in H as (new & Hn & Horder) end.
  exists new. rewrite (sb_Z _ _ _ _ Hsb) in Horder.
  split; [congruence | exact Horder].
Qed.

End SearchOrder.

Lemma high_mass_search_order_hm :
  (add_high_mass_eeps Example.helpers Example.catalogue
     (Example.hm_loaded (2 # 100)) = Ok (Example.hm_high (2 # 100))
   /\ exists new,
        searches (snd (Example.hm_high (2 # 100)))
        = searches (Example.hm_loaded (2 # 100)) ++ new
        /\ if np.Qltb (1 # 100) (Z_ (track (Example.hm_loaded (2 # 100))))
           then searched_before tmin_search ms_beg_search new = true
           else searched_before ms_beg_search tmin_search new = true)
  /\ (add_high_mass_eeps Example.helpers Example.catalogue
        (Example.hm_loaded (1 # 1000)) = Ok (Example.hm_high (1 # 1000))
      /\ exists new,
           searches (snd (Example.hm_high (1 # 1000)))
           = searches (Example.hm_loaded (1 # 1000)) ++ new
           /\ if np.Qltb (1 # 100)
                   (Z_ (track (Example.hm_loaded (1 # 1000))))
              then searched_before tmin_search ms_beg_search new = true
              else searched_before ms_beg_search tmin_search new = true).
Proof.
  split.
  - split; [vm_compute; reflexivity |].
    apply (high_mass_search_order Example.helpers Example.catalogue
             (Example.hm_loaded (2 # 100)) (fst (Example.hm_high (2 # 100)))
             (snd (Example.hm_high (2 # 100)))).
    vm_compute. reflexivity.
  - split; [vm_compute; reflexivity |].
    apply (high_mass_search_order Example.helpers Example.catalogue
             (Example.hm_loaded (1 # 1000))
             (fst (Example.hm_high (1 # 1000)))
             (snd (Example.hm_high (1 # 1000)))).
    vm_compute. reflexivity.
Defined.

(** C5, as stated, fails.  On the track [Example.hm_loaded] at the low
    metallicity 0.001 the beginning of the main sequence is searched for
    before the temperature minimum, and at the higher metallicity 0.02 it
    is the temperature minimum that is searched for first. *)
Lemma high_mass_search_order_reversed :
  (add_high_mass_eeps Example.helpers Example.catalogue
     (Example.hm_loaded (1 # 1000)) = Ok (Example.hm_high (1 # 1000))
   /\ pf_col <$> searches (snd (Example.hm_high (1 # 1000)))
      = [logL; logL; logL; logT]
   /\ searched_before tmin_search ms_beg_search
        (searches (snd (Example.hm_high (1 # 1000)))) = false)
  /\ (add_high_mass_eeps Example.helpers Example.catalogue
        (Example.hm_loaded (2 # 100)) = Ok (Example.hm_high (2 # 100))
      /\ pf_col <$> searches (snd (Example.hm_high (2 # 100)))
         = [logT; logL; logL]
      /\ searched_before ms_beg_search tmin_search
           (searches (snd (Example.hm_high (2 # 100)))) = false).
Proof.
  split; (split; [| split]); vm_compute; reflexivity.
Qed.

(** ** The thermal-pulse markers *)

Lemma nonzero_from_ge {A} (p : A -> bool) l : forall i0 i,
  i ∈ np.nonzero_from p i0 l -> i0 <= i.
Proof.
  induction l as [| x l IH]; intros i0 i; cbn; [now rewrite elem_of_nil |].
  destruct (p x); rewrite ?elem_of_cons; intros H.
  - destruct H as [-> | H]; [lia |]. apply IH in H. lia.
  - apply IH in H. lia.
Qed.

Lemma nearest_from_argmin (a : list Q) (tp : nat) a0 target k :
  a !! tp = Some a0 ->
  np.argmin ((fun x => Qabs (x - target))
               <$> ((fun x => (x - a0)%Q) <$> drop tp a)) = Some k ->
  nearest_age a (Z.of_nat tp) target (Z.of_nat k + Z.of_nat tp).
Proof.
  intros Ha0 Hk. apply argmin_least in Hk as (d & Hd & Hmin).
  rewrite !list_lookup_fmap, lookup_drop in Hd.
  destruct (a !! (tp + k)%nat) as [ai |] eqn:Hai; [| discriminate].
  exists a0, ai. rewrite !index_nat, Ha0.
  replace (Z.of_nat k + Z.of_nat tp) with (Z.of_nat (tp + k)) by lia.
  rewrite index_nat, Hai. repeat split; [lia |].
  intros j aj Hj Haj.
  assert (Hd' : d = Qabs (ai - a0 - target)).
  { change (Some (Qabs (ai - a0 - target)) = Some d) in Hd. congruence. }
  rewrite <- Hd'. apply (Hmin (j - tp)%nat).
  rewrite !list_lookup_fmap, lookup_drop.
  replace (tp + (j - tp))%nat with j by lia. now rewrite Haj.
Qed.

Lemma add_tpagb_eeps_ok ptcri s u s1 :
  add_tpagb_eeps ptcri s = Ok (u, s1) ->
  data (track s1) = data (track s) /\ tp_markers ptcri (track s1).
Proof.
  intros H.
  pose proof (frame_add_tpagb_eeps ptcri _ _ _ H) as [Hsb _].
  pose proof (sb_data _ _ _ _ Hsb) as Hdata. split; [exact Hdata |].
  unfold add_tpagb_eeps in H. steps.
  destruct (np.nonzero _ (data (track s))) as [| tp [| ? ?]] eqn:Htp;
    steps.
  assert (Htp0 : 0 <= tp).
  { apply (nonzero_from_ge (fun r => r_step r =? 1) (data (track s))).
    unfold np.nonzero in Htp. rewrite Htp. left. }
  match goal with H : mapM _ _ = Some ?l |- _ =>
    rename H into Hargs; rename l into args end.
  change (np.linspace 0 ?T 3)
    with [(0 + inject_Z 0 * ((T - 0) / inject_Z 2))%Q;
          (0 + inject_Z 1 * ((T - 0) / inject_Z 2))%Q;
          (0 + inject_Z 2 * ((T - 0) / inject_Z 2))%Q] in Hargs.
  apply mapM_Some in Hargs.
  apply Forall2_cons_inv_l in Hargs as (j0 & args1 & Hj0 & Hargs & ->).
  apply Forall2_cons_inv_l in Hargs as (j1 & args2 & Hj1 & Hargs & ->).
  apply Forall2_cons_inv_l in Hargs as (j2 & args3 & Hj2 & Hargs & ->).
  apply Forall2_nil_inv_l in Hargs as ->.
  cbn [fmap list_fmap] in *.
  match goal with H : np.index (_ :: _) 0 = Some _ |- _ =>
    cbn in H; injection H as <- end.
  change (enumerate (slice_from [?a; ?b; ?c] 1)) with [(0, b); (1, c)] in *.
  cbn [for_each fst snd] in *. steps.
  repeat match goal with H : add_eep _ _ _ _ _ = _ |- _ =>
    apply add_eep_ok in H as (? & ? & ? & ? & _) end.
  match goal with
  | H0 : index_of TPAGB _ = Some ?k0, H1 : index_of (TPAGB_n (0 + 1)) _ = Some ?k1,
    H2 : index_of (TPAGB_n (1 + 1)) _ = Some ?k2 |- _ =>
      assert (k0 <> k1) by (intros ->; discriminate (index_of_inj _ _ _ _ H0 H1));
      assert (k0 <> k2) by (intros ->; discriminate (index_of_inj _ _ _ _ H0 H2));
      assert (k1 <> k2) by (intros ->; discriminate (index_of_inj _ _ _ _ H1 H2));
      rename H0 into Hk0, H1 into Hk1, H2 into Hk2
  end.
  match goal with
  | Ha0 : np.index (col age (track s)) tp = Some ?v0,
    Hl : np.index (_ <$> slice_from _ tp) (-1) = Some ?vl |- _ =>
      rename Ha0 into Hage0, Hl into Hlast, v0 into a0, vl into T
  end.
  unfold slice_from in *. destruct (Z.leb_spec 0 tp); [| lia].
  assert (Hcol : forall t, data t = data (track s) ->
                   col age t = col age (track s))
    by (intros t Ht; unfold col; now rewrite Ht).
  specialize (Hcol _ Hdata).
  assert (Hlast' : exists alast,
             np.index (col age (track s)) (-1) = Some alast
             /\ T = (alast - a0)%Q).
  { unfold np.index in Hlast |- *. cbn in Hlast |- *.
    rewrite length_fmap, length_drop in Hlast.
    destruct (Z.leb_spec (- Z.of_nat (length (col age (track s)) - Z.to_nat tp))
                (-1)); [| discriminate].
    destruct (Z.leb_spec (- Z.of_nat (length (col age (track s)))) (-1));
      [| lia].
    rewrite list_lookup_fmap, lookup_drop in Hlast.
    match type of Hlast with _ <$> ?l !! ?i = _ =>
      replace i with
        (Z.to_nat (Z.of_nat (length (col age (track s))) + -1)) in Hlast
        by lia end.
    destruct (_ !! _) as [alast |]; [| discriminate].
    exists alast. split; [reflexivity |].
    change (Some (alast - a0)%Q = Some T) in Hlast. congruence. }
  destruct Hlast' as (alast & Halast & ->).
  rewrite <- (Z2Nat.id tp) in Hage0 by lia. rewrite index_nat in Hage0.
  pose proof (nearest_from_argmin _ _ _ _ _ Hage0 Hj0) as N0.
  pose proof (nearest_from_argmin _ _ _ _ _ Hage0 Hj1) as N1.
  pose proof (nearest_from_argmin _ _ _ _ _ Hage0 Hj2) as N2.
  rewrite Z2Nat.id in N0, N1, N2 by lia.
  rewrite <- index_nat, Z2Nat.id in Hage0 by lia.
  do 12 eexists. rewrite Hcol, Hdata.
  split; [exact Htp |]. split; [exact Hage0 |]. split; [exact Halast |].
  split; [| split; [exact N0 | split; [exact N1 | split; [exact N2 |]]]].
  { split; [| split]; field. }
  split; [exact Hk0 |]. split; [exact Hk1 |]. split; [exact Hk2 |].
  clear Hsb Hdata Hcol.
  repeat match goal with H : track _ = with_iptcri _ _ _ _ _ |- _ =>
    rewrite H in *; clear H end.
  cbn [iptcri with_iptcri] in *.
  rewrite ?length_insert in *.
  repeat split.
  - rewrite !list_lookup_insert_ne by auto.
    apply list_lookup_insert_eq. lia.
  - rewrite list_lookup_insert_ne by auto.
    apply list_lookup_insert_eq. rewrite ?length_insert. lia.
  - apply list_lookup_insert_eq. rewrite ?length_insert. lia.
Qed.

(** C3, as amended.  On a track whose [agb] flag is set,
    [define_eep_stages] first writes the three thermal-pulse markers
    TPAGB, TPAGB1 and TPAGB2, at the samples nearest the ages 0, half and
    the whole of the thermal-pulse duration after its start, changing
    nothing else of the table; it then goes on to the dispatch of the
    later phases, and returns what that returns. *)
Theorem agb_markers_then_dispatch cfg ext ptcri hb_ s u s2 :
  agb (track s) = true ->
  define_eep_stages cfg ext ptcri hb_ s = Ok (u, s2) ->
  exists s0 s1 n,
    data (track s0) = data (track s)
    /\ add_tpagb_eeps ptcri s0 = Ok (tt, s1)
    /\ same_but ptcri [TPAGB; TPAGB_n 1; TPAGB_n 2] (track s0) (track s1)
    /\ tp_markers ptcri (track s1)
    /\ dispatch cfg ext ptcri hb_ n s1 = Ok (u, s2).
Proof.
  unfold define_eep_stages. intros Hagb H. steps.
  repeat match goal with
  | H : modify _ ?s = Ok (_, ?s') |- _ =>
      apply (frame_info ptcri [] (fun _ => [])) in H as [H _]
  | H : for_each _ _ ?s = Ok (_, ?s') |- _ =>
      apply (frame_reset ptcri (please_define ptcri)) in H as [H _];
      [| reflexivity]
  end.
  match goal with
  | H1 : same_but _ _ (track s) (track ?sa),
    H2 : same_but _ _ (track ?sa) (track ?sb) |- _ =>
      assert (Hd : data (track sb) = data (track s))
        by (rewrite (sb_data _ _ _ _ H2); apply (sb_data _ _ _ _ H1));
      assert (Ha : agb (track sb) = true)
        by (rewrite (sb_agb _ _ _ _ H2), (sb_agb _ _ _ _ H1); exact Hagb);
      clear H1 H2
  end.
  match goal with H : (if agb _ then _ else _) _ = Ok (?v, _) |- _ =>
    rewrite Ha in H; destruct v;
    pose proof (frame_add_tpagb_eeps ptcri _ _ _ H) as [Hsb _];
    pose proof (add_tpagb_eeps_ok _ _ _ _ H) as [_ Hmk] end.
  eauto 10.
Qed.

Lemma agb_markers_then_dispatch_hm :
  define_eep_stages Example.thresholds Example.helpers Example.catalogue_agb
    false Example.agb_loaded = Ok Example.agb_run
  /\ exists s0 s1 n,
       data (track s0) = data (track Example.agb_loaded)
       /\ add_tpagb_eeps Example.catalogue_agb s0 = Ok (tt, s1)
       /\ same_but Example.catalogue_agb [TPAGB; TPAGB_n 1; TPAGB_n 2]
            (track s0) (track s1)
       /\ tp_markers Example.catalogue_agb (track s1)
       /\ dispatch Example.thresholds Example.helpers Example.catalogue_agb
            false n s1 = Ok (tt, snd Example.agb_run).
Proof.
  split; [vm_compute; reflexivity |].
  apply (agb_markers_then_dispatch Example.thresholds Example.helpers
           Example.catalogue_agb false Example.agb_loaded tt
           (snd Example.agb_run)).
  - reflexivity.
  - vm_compute. reflexivity.
Defined.

(** C3, as stated, fails.  On the AGB track [Example.agb_loaded] the
    markers alone leave the table with TPAGB at sample 35 and MS_TO
    undefined; [define_eep_stages] returns a table in which the later
    phases have been defined (MS_TO is at sample 13) after searches of
    theirs, and TPAGB has been moved to the last sample. *)
Lemma agb_track_goes_on :
  add_tpagb_eeps Example.catalogue_agb Example.agb_loaded
  = Ok Example.agb_marked
  /\ define_eep_stages Example.thresholds Example.helpers
       Example.catalogue_agb false Example.agb_loaded = Ok Example.agb_run
  /\ iptcri (track (snd Example.agb_marked))
     = [1; 2; 3; 5; 0; 0; 0; 0; 15; 16; 17; 0; 0; 0; 0; 0; 0; 0; 0; 0; 0;
        35; 37; 39]
  /\ iptcri (track (snd Example.agb_run))
     = [1; 2; 3; -1; 8; 13; 14; 15; 16; 17; 18; 19; 22; 24; 26; 28; 30; 32;
        34; 36; 37; 39; 37; 39]
  /\ length (searches (snd Example.agb_run)) = 3%nat.
Proof.
  split; [| split; [| split; [| split]]]; vm_compute; reflexivity.
Qed.

(** ** The sentinel -1 in the table *)

Lemma all_failed_app l1 l2 :
  all_failed (l1 ++ l2) = all_failed l1 && all_failed l2.
Proof. apply forallb_app. Qed.

Lemma add_rg_minl_eep_ok cfg ext ptcri eep1 eep2 mto s r s1 :
  add_rg_minl_eep cfg ext ptcri eep1 eep2 mto s = Ok (r, s1) ->
  exists new k,
    searches s1 = searches s ++ new /\ new <> []
    /\ index_of RG_MINL (eep_list ptcri) = Some k
    /\ iptcri (track s1) !! k = Some r
    /\ (all_failed new = true -> r = -1).
Proof.
  unfold add_rg_minl_eep. intros H. steps.

  repeat match goal with
  | H : (if ?c then _ else _) _ = Ok _ |- _ => destruct c eqn:?; steps
  end;
  repeat match goal with
  | H : peak_finder _ _ _ _ _ _ _ = Ok _ |- _ =>
      apply peak_finder_logs in H as [? ?]
  end;
  match goal with H : add_eep _ _ _ _ _ = _ |- _ =>
    apply add_eep_ok in H as (k & Hk & Hlen & Ht & _ & Hs) end;
  repeat match goal with H : searches _ = _ |- _ =>
    rewrite H; clear H end;
  rewrite <- ?app_assoc; eexists _, k;
  (split; [reflexivity |]); (split; [discriminate |]);
  (split; [exact Hk |]);
  (split; [rewrite Ht; cbn; apply list_lookup_insert_eq; exact Hlen |]);
  cbn; rewrite ?andb_true_r; intros Hall;
  repeat match goal with H : _ && _ = true |- _ =>
    apply andb_prop in H as [? ?] end;
  repeat match goal with H : (_, _) = (_, _) |- _ =>
    injection H as ? ? end; lia.
Qed.


Lemma add_sg_maxl_eep_ok cfg ext ptcri eep2 s r s1 :
  np.Qltb (inte_mass cfg) (mass (track s)) = false ->
  (forall k rg, index_of RG_MINL (eep_list ptcri) = Some k ->
                iptcri (track s) !! k = Some rg -> 10 <= Z.abs (rg + 1)) ->
  add_sg_maxl_eep cfg ext ptcri eep2 s = Ok (r, s1) ->
  exists new k,
    searches s1 = searches s ++ new /\ new <> []
    /\ index_of SG_MAXL (eep_list ptcri) = Some k
    /\ iptcri (track s1) !! k = Some r
    /\ (all_failed new = true -> r = -1).
Proof.
  unfold add_sg_maxl_eep, entry, get_ptcri_name. intros Hm Hrg H. steps.
  rewrite Hm in *. steps.
  repeat match goal with
  | H : (if ?c then _ else _) _ = Ok _ |- _ => destruct c eqn:?; steps
  end;
  repeat match goal with
  | H : peak_finder _ _ _ _ _ _ _ = Ok _ |- _ =>
      apply peak_finder_logs in H as [? ?]
  | H : inds_between_ptcris _ _ _ _ _ _ = Ok _ |- _ =>
      apply quiet_inds_between in H
  end;
  match goal with H : add_eep _ _ _ _ _ = _ |- _ =>
    apply add_eep_ok in H as (k & Hk & Hlen & Ht & _ & Hs) end;
  repeat match goal with H : searches _ = _ |- _ =>
    rewrite H; clear H end;
  rewrite <- ?app_assoc; eexists _, k;
  (split; [reflexivity |]); (split; [discriminate |]);
  (split; [exact Hk |]);
  (split; [rewrite Ht; cbn; apply list_lookup_insert_eq; exact Hlen |]);
  repeat match goal with H : (_, _) = (_, _) |- _ =>
    injection H as ? ? end;
  cbn; rewrite ?andb_true_r; intros Hall;
  repeat match goal with H : _ && _ = true |- _ =>
    apply andb_prop in H as [? ?] end;
  match goal with
  | H1 : track ?x = track s, H2 : iptcri (track ?x) !! _ = Some _ |- _ =>
      rewrite H1 in H2; specialize (Hrg _ _ ltac:(eassumption) H2)
  end;
  repeat match goal with
  | H : _ || _ = false |- _ => apply orb_false_elim in H as [? ?]
  | H : (_ =? _) = true |- _ => apply Z.eqb_eq in H
  | H : (_ =? _) = false |- _ => apply Z.eqb_neq in H
  | H : (_ <? _) = true |- _ => apply Z.ltb_lt in H
  | H : (_ <? _) = false |- _ => apply Z.ltb_ge in H
  end; lia.
Qed.






(** ** Sandro's model numbers against the samples *)

Lemma load_sandro_ok ext ptcri key mptcri s r s0 :
  load_sandro ext ptcri key mptcri s = Ok (r, s0) ->
  let rows := data (track s) in
  let sp := matched rows mptcri in
  let nvalid := len (valid mptcri) in
  data (track s0) = rows /\ iptcri (track s0) = iptcri (track s)
  /\ searches s0 = searches s
  /\ if nvalid - len sp =? 1
     then sptcri (track s0) = sp ++ [len rows - 1]
          /\ flag (track s0) = flag (track s)
          /\ r = set_last mptcri (len rows + 1)
          /\ data_dict s0 = <[key := r]> (data_dict s)
     else if len sp =? nvalid
     then sptcri (track s0) = sp /\ flag (track s0) = flag (track s)
          /\ r = mptcri /\ data_dict s0 = data_dict s
     else sptcri (track s0) = sp /\ flag (track s0) = mismatch_flag
          /\ r = mptcri.
Proof.
  unfold load_sandro, matched, valid. intros H. steps.

  destruct mptcri as [| m0 mptcri0]; [discriminate |]. steps.
  set (mptcri := m0 :: mptcri0) in *.
  set (sp := concat _) in *.
  set (nvalid := len (np.nonzero _ mptcri)) in *.
  match goal with H : modify _ _ = _ |- _ =>
    apply modify_ok in H as (Ht & Hd & Hs) end.
  destruct (nvalid - len sp =? 1) eqn:E1.
  - assert (E2 : (len sp =? nvalid) = false) by lia.
    rewrite E2 in *. cbn [negb] in *. steps.
    repeat match goal with
    | H : modify _ _ = _ |- _ => apply modify_ok in H as (? & ? & ?)
    | H : get_dict _ = Ok _ |- _ => unfold get_dict in H; injection H as <- <-
    | H : put_dict _ _ = Ok _ |- _ => unfold put_dict in H; injection H as _ <-
    end.
    cbn. repeat match goal with H : track _ = _ |- _ => rewrite H end.
    cbn. repeat split; congruence.
  - destruct (len sp =? nvalid) eqn:E2; cbn [negb] in *; steps.
    + rewrite Ht. cbn. repeat split; assumption.
    + destruct (np.nonzero _ (masses ptcri)) as [| ? [| ? ?]];
        try discriminate. steps.
      repeat match goal with
      | H : modify _ _ = _ |- _ => apply modify_ok in H as (? & ? & ?)
      | H : get_dict _ = Ok _ |- _ =>
          unfold get_dict in H; injection H as <- <-
      | H : put_dict _ _ = Ok _ |- _ =>
          unfold put_dict in H; injection H as _ <-
      end.
      cbn. repeat match goal with H : track _ = _ |- _ => rewrite H end.
      cbn. repeat split; congruence.
Qed.






(** ** Sandro's indices too close *)

Lemma argminZ_from_least (l pre : list Z) (bi : nat) :
  (exists b, pre !! bi = Some b /\ forall j w, pre !! j = Some w -> b <= w) ->
  exists v, (pre ++ l) !! (np.arg_from Z.ltb bi (default 0 (pre !! bi))
                             (length pre) l) = Some v
            /\ forall j w, (pre ++ l) !! j = Some w -> v <= w.
Proof.
  revert pre bi. induction l as [| x l IH]; intros pre bi Hb.
  - cbn. now rewrite app_nil_r.
  - cbn [np.arg_from]. destruct Hb as (b & Hbi & Hb). rewrite Hbi. cbn.
    replace (pre ++ x :: l) with ((pre ++ [x]) ++ l)
      by now rewrite <- app_assoc.
    replace (S (length pre)) with (length (pre ++ [x]))
      by (rewrite length_app; cbn; lia).
    destruct (Z.ltb_spec x b) as [Hx | Hx].
    + specialize (IH (pre ++ [x]) (length pre)).
      rewrite lookup_app_r, Nat.sub_diag in IH by lia. cbn in IH.
      apply IH. exists x. split.
      { reflexivity. }
      intros j w Hj. destruct (decide (j < length pre)%nat) as [Hlt | Hge].
      * rewrite lookup_app_l in Hj by lia. specialize (Hb j w Hj). lia.
      * rewrite lookup_app_r in Hj by lia.
        destruct (j - length pre)%nat eqn:E; [| discriminate Hj].
        injection Hj as <-. lia.
    + specialize (IH (pre ++ [x]) bi).
      pose proof (lookup_lt_Some _ _ _ Hbi) as Hlen.
      rewrite lookup_app_l, Hbi in IH by lia. cbn in IH.
      apply IH. exists b. split.
      { first [reflexivity | rewrite lookup_app_l by lia; exact Hbi]. }
      intros j w Hj. destruct (decide (j < length pre)%nat) as [Hlt | Hge].
      * rewrite lookup_app_l in Hj by lia. eauto.
      * rewrite lookup_app_r in Hj by lia.
        destruct (j - length pre)%nat eqn:E; [| discriminate Hj].
        injection Hj as <-. lia.
Qed.

Lemma argminZ_least (l : list Z) (k : nat) :
  np.argminZ l = Some k ->
  exists v, l !! k = Some v /\ forall j w, l !! j = Some w -> v <= w.
Proof.
  destruct l as [| x l]; [discriminate |]. cbn. intros [= <-].
  apply (argminZ_from_least l [x] 0). exists x. split; [reflexivity |].
  intros [| j] w Hj; [| discriminate]. injection Hj as <-. lia.
Qed.

Lemma minZ_least (l : list Z) (m : Z) :
  np.minZ l = Some m ->
  (exists j, l !! j = Some m) /\ forall j w, l !! j = Some w -> m <= w.
Proof.
  destruct l as [| x l]; [discriminate |]. cbn. intros [= <-].
  induction l as [| y l [[j Hj] IH]]; cbn.
  - split; [now exists 0%nat |]. intros [| j] w Hj; [| discriminate].
    injection Hj as <-. lia.
  - split.
    + destruct (Z.min_spec y (foldr Z.min x l)) as [[_ ->] | [_ ->]].
      * now exists 1%nat.
      * destruct j as [| j]; [now exists 0%nat | now exists (S (S j))].
    + intros [| [| i]] w Hi; cbn in Hi.
      * injection Hi as <-. specialize (IH 0%nat x eq_refl). lia.
      * injection Hi as <-. lia.
      * specialize (IH (S i) w Hi). lia.
Qed.

Lemma argminZ_minZ l k m :
  np.argminZ l = Some k -> np.minZ l = Some m -> l !! k = Some m.
Proof.
  intros Hk Hm. apply argminZ_least in Hk as (v & Hv & Hleast).
  apply minZ_least in Hm as ((j & Hj) & Hmin).
  specialize (Hleast _ _ Hj). specialize (Hmin _ _ Hv).
  rewrite Hv. f_equal. lia.
Qed.

Lemma diff_lookup_inv l (k : nat) d :
  np.diff l !! k = Some d ->
  exists a b, l !! k = Some a /\ l !! S k = Some b /\ d = b - a.
Proof.
  unfold np.diff. rewrite lookup_zip_with, lookup_tail.
  destruct (l !! k) as [a |]; [| discriminate]. cbn.
  destruct (l !! S k) as [b |]; [| discriminate]. cbn.
  intros [= <-]. eauto.
Qed.


Lemma index_wrap {A} (l : list A) z v :
  np.index l z = Some v ->
  exists j : nat,
    l !! j = Some v
    /\ forall B (l' : list B),
         length l' = length l -> np.index l' z = l' !! j.
Proof.
  unfold np.index. intros H. destruct (Z.leb_spec 0 z).
  - exists (Z.to_nat z). split; [exact H |]. intros B l' _.
    destruct (Z.leb_spec 0 z); [reflexivity | lia].
  - destruct (Z.leb_spec (- Z.of_nat (length l)) z); [| discriminate].
    exists (Z.to_nat (Z.of_nat (length l) + z)). split; [exact H |].
    intros B l' Hl. rewrite Hl.
    destruct (Z.leb_spec 0 z); [lia |].
    destruct (Z.leb_spec (- Z.of_nat (length l)) z); [reflexivity | lia].
Qed.

(** The [j]-th defined entry and its name sit at one position of the
    table and of the catalogue. *)
Lemma defined_position {A} (p : Z -> bool) (tbl : list Z) (names : list A)
  idefined defined (j : nat) v d :
  np.take tbl (np.nonzero p tbl) = Some idefined ->
  np.take names (np.nonzero p tbl) = Some defined ->
  idefined !! j = Some v -> defined !! j = Some d ->
  exists i : nat, tbl !! i = Some v /\ names !! i = Some d.
Proof.
  intros Hi Hd Hv Hdj.
  destruct (take_lookup _ _ _ j Hi) as [Hlen Hti].
  destruct (take_lookup _ _ _ j Hd) as [_ Htd].
  destruct (lookup_lt_is_Some_2 (np.nonzero p tbl) j) as [i Hij].
  { rewrite <- Hlen. eapply lookup_lt_Some, Hv. }
  assert (0 <= i) as Hpos.
  { apply (nonzero_from_ge p tbl 0). eapply list_elem_of_lookup_2, Hij. }
  destruct (Hti _ Hij) as (v' & Hv' & Hiv).
  destruct (Htd _ Hij) as (d' & Hd' & Hid).
  rewrite <- (Z2Nat.id i), index_nat in Hiv by lia.
  rewrite <- (Z2Nat.id i), index_nat in Hid by lia.
  exists (Z.to_nat i). split; congruence.
Qed.

Lemma length_take {A} (l : list A) inds vals :
  np.take l inds = Some vals -> length vals = length inds.
Proof. intros H. apply (take_lookup _ _ _ 0%nat H). Qed.

Lemma moved_to_intro ptcri depth s u s1 e old new m (i : nat) x s' mn :
  NoDup (eep_list ptcri) ->
  iptcri (track s) !! i = Some old -> eep_list ptcri !! i = Some e ->
  add_eep ptcri e new m s = Ok (x, s') ->
  np.minZ (np.diff (iptcri (track s'))) = Some mn ->
  (if mn <=? 1 then check_sandros_eeps ptcri depth else ret tt) s'
  = Ok (u, s1) ->
  moved_to ptcri depth s u s1 e old new.
Proof.
  intros Hnd Hold He Hadd _ H.
  apply add_eep_ok in Hadd as (k & Hk & Hlen & Ht & _). exists k, s'.
  assert (k = i) as ->
    by (eapply NoDup_lookup; eauto using index_of_lookup).
  rewrite Ht. cbn. repeat split; try assumption.
  destruct (mn <=? 1); [right; exact H | left; steps; reflexivity].
Qed.





(** ** A second run *)

Section Twins.

Variable ptcri : critical_point.
Variable o : Track.

Lemma twin_weaken (N N' : eep -> Prop) t t' :
  (forall e, N e -> N' e) -> twin ptcri o N t t' -> twin ptcri o N' t t'.
Proof.
  intros Hsub []. split; try assumption.
  - intros e k He. apply tw_table0. intros Hn. apply He, Hsub, Hn.
  - intros He. apply tw_attrs0. intros Hn. apply He, Hsub, Hn.
Qed.

Lemma twin_lookup t t' (k : nat) :
  twin ptcri o none t t' -> iptcri t' !! k = iptcri t !! k.
Proof.
  intros H. destruct (eep_list ptcri !! k) as [e |] eqn:He.
  - destruct (decide (index_of e (eep_list ptcri) = Some k)) as [Hk | Hk].
    + apply (tw_table _ _ _ _ _ H e k); [intros [] | exact Hk].
    + destruct (tw_unkeyed _ _ _ _ _ H k) as [H1 H2]; [| congruence].
      intros e' He'. apply Hk. pose proof (index_of_lookup _ _ _ He').
      congruence.
  - destruct (tw_unkeyed _ _ _ _ _ H k) as [H1 H2]; [| congruence].
    intros e' He'. apply index_of_lookup in He'. congruence.
Qed.

Lemma twin_table t t' : twin ptcri o none t t' -> iptcri t' = iptcri t.
Proof.
  intros H. apply list_eq. intros k. now apply twin_lookup.
Qed.

(** At the end of the first run the second table is the first. *)
Lemma twin_final_table N t' : twin ptcri o N o t' -> iptcri t' = iptcri o.
Proof.
  intros H. apply list_eq. intros k.
  destruct (tw_final _ _ _ _ _ H k); assumption.
Qed.

Lemma stable_weaken {A} (N0 N N' N1 : eep -> Prop) (m : M A) :
  (forall e, N0 e -> N e) -> (forall e, N' e -> N1 e) ->
  stable ptcri o N m N' -> stable ptcri o N0 m N1.
Proof.
  intros H0 H1 Hm s s' a s1 Ht Hrun.
  destruct (Hm s s' a s1) as (s1' & ? & ?);
    eauto using twin_weaken.
Qed.

Lemma stable_ret {A} N (a : A) : stable ptcri o N (ret a) N.
Proof.
  intros s s' b s1 Ht H. apply ret_ok in H as [-> ->]. now exists s'.
Qed.

Lemma stable_raise {A} N N' e : stable ptcri o N (@raise A e) N'.
Proof. intros s s' b s1 _ H. discriminate H. Qed.

Lemma stable_bind {A B} N N1 N2 (m : M A) (k : A -> M B) :
  stable ptcri o N m N1 -> (forall a, stable ptcri o N1 (k a) N2) ->
  stable ptcri o N (bind m k) N2.
Proof.
  intros Hm Hk s s' b s2 Ht H.
  apply bind_ok in H as (a & s1 & H1 & H2).
  destruct (Hm _ _ _ _ Ht H1) as (s1' & H1' & Ht1).
  destruct (Hk a _ _ _ _ Ht1 H2) as (s2' & H2' & Ht2).
  exists s2'. split; [| exact Ht2]. unfold bind. now rewrite H1'.
Qed.

Lemma stable_lift {A} N (r : result A) : stable ptcri o N (lift r) N.
Proof.
  intros s s' a s1 Ht H. apply lift_ok in H as [-> ->]. now exists s'.
Qed.

Lemma stable_gets {A} N (f : Track -> A) :
  (forall t t', twin ptcri o N t t' -> f t' = f t) ->
  stable ptcri o N (gets f) N.
Proof.
  intros Hf s s' a s1 Ht H. apply gets_ok in H as [-> ->].
  exists s'. split; [| exact Ht]. unfold gets. now rewrite (Hf _ _ Ht).
Qed.

Lemma stable_modify N (g : Track -> Track) :
  (forall t t', twin ptcri o N t t' -> twin ptcri o N (g t) (g t')) ->
  stable ptcri o N (modify g) N.
Proof.
  intros Hg s s' a s1 Ht H. unfold modify in *. injection H as <- <-.
  eexists. split; [reflexivity |]. cbn. now apply Hg.
Qed.

Lemma stable_log N c : stable ptcri o N (log_search c) N.
Proof.
  intros s s' a s1 Ht H. unfold log_search in *. injection H as <- <-.
  eexists. split; [reflexivity |]. exact Ht.
Qed.

Lemma stable_flag N f :
  stable ptcri o N (modify (fun t => with_flag t f)) N.
Proof. apply stable_modify. intros t t' []. split; assumption. Qed.

Lemma stable_info N f :
  stable ptcri o N (modify (fun t => with_info t (f t))) N.
Proof. apply stable_modify. intros t t' []. split; assumption. Qed.

Lemma twin_write N t t' e k ind m :
  twin ptcri o N t t' -> index_of e (eep_list ptcri) = Some k ->
  twin ptcri o (but N e) (with_iptcri t k ind e m)
    (with_iptcri t' k ind e m).
Proof.
  intros [] Hk.
  split; cbn [with_iptcri data mass Z_ agb sptcri iptcri attrs];
    try assumption.
  - now rewrite length_insert.
  - now rewrite length_insert.
  - intros e' k' He' Hk'. destruct (decide (k' = k)) as [-> | Hne].
    + destruct (decide (k < length (iptcri t))%nat).
      * rewrite !list_lookup_insert_eq by lia. reflexivity.
      * rewrite !lookup_ge_None_2 by (rewrite length_insert; lia).
        reflexivity.
    + rewrite !list_lookup_insert_ne by auto.
      apply (tw_table0 e' k'); [| exact Hk'].
      intros Hn. apply He'. split; [exact Hn |].
      intros ->. congruence.
  - intros k' Hun. rewrite !list_lookup_insert_ne
      by (intros <-; now apply (Hun e)).
    now apply tw_unkeyed0.
  - intros Hy. destruct (decide (e = YCEN 0)) as [-> | Hne].
    + now rewrite !assoc_cons_eq.
    + rewrite !assoc_cons_ne by auto. apply tw_attrs0.
      intros Hn. apply Hy. split; [exact Hn | auto].
  - intros k'. destruct (decide (k' = k)) as [-> | Hne].
    + left. destruct (decide (k < length (iptcri t))%nat).
      * rewrite !list_lookup_insert_eq by lia. reflexivity.
      * rewrite !lookup_ge_None_2 by (rewrite length_insert; lia).
        reflexivity.
    + rewrite !list_lookup_insert_ne by auto. apply tw_final0.
Qed.

Lemma stable_add_eep_but N e ind m :
  stable ptcri o N (add_eep ptcri e ind m) (but N e).
Proof.
  intros s s' a s1 Ht H.
  apply add_eep_ok in H as (k & Hk & Hlen & Htr & _).
  unfold add_eep, key_dict, bind, lift, gets. rewrite Hk. cbn.
  rewrite bool_decide_true
    by (rewrite (tw_length' _ _ _ _ _ Ht), <- (tw_length _ _ _ _ _ Ht);
        exact Hlen).
  destruct a. eexists. split; [reflexivity |]. cbn. rewrite Htr.
  now apply twin_write.
Qed.

Lemma stable_add_eep N e ind m :
  stable ptcri o N (add_eep ptcri e ind m) N.
Proof.
  apply (stable_weaken N N (but N e) N); [auto | | apply stable_add_eep_but].
  now intros x [].
Qed.

Lemma stable_for_each {A} N (f : A -> M unit) l :
  (forall x, x ∈ l -> stable ptcri o N (f x) N) ->
  stable ptcri o N (for_each f l) N.
Proof.
  induction l as [| x l IH]; intros Hf; cbn.
  - apply stable_ret.
  - eapply stable_bind; [apply Hf; left |].
    intros _. apply IH. intros y Hy. apply Hf. now right.
Qed.

End Twins.


Section StableRules.

Variable ptcri : critical_point.
Variable o : Track.

Lemma stable_seq {A B} N (m : M A) (k : A -> M B) :
  stable ptcri o N m N -> (forall a, stable ptcri o N (k a) N) ->
  stable ptcri o N (bind m k) N.
Proof. apply stable_bind. Qed.

Lemma stable_at {A} N (l : list A) i : stable ptcri o N (at_ l i) N.
Proof. apply stable_lift. Qed.

Lemma stable_at_nat {A} N (l : list A) i : stable ptcri o N (at_nat l i) N.
Proof. apply stable_lift. Qed.

Lemma stable_takes {A} N (l : list A) i : stable ptcri o N (takes l i) N.
Proof. apply stable_lift. Qed.

Lemma twin_col N c t t' : twin ptcri o N t t' -> col c t' = col c t.
Proof. intros []. unfold col. congruence. Qed.

Lemma stable_table : stable ptcri o none (gets iptcri) none.
Proof. apply stable_gets. intros t t'. apply twin_table. Qed.

Lemma stable_raw_index N p sd :
  readable N sd p -> stable ptcri o N (raw_index ptcri p sd) N.
Proof.
  intros Hp. destruct p as [e | i]; cbn [raw_index].
  - intros s s' a s1 Ht H. steps. exists s'. split; [| exact Ht].
    unfold bind, gets, ret. do 2 f_equal.
    destruct sd.
    + now rewrite (tw_sptcri' _ _ _ _ _ Ht), (tw_sptcri _ _ _ _ _ Ht).
    + destruct Hp as [| He]; [discriminate |].
      destruct (index_of e (eep_list ptcri)) as [k |] eqn:Hk;
        [| reflexivity].
      cbn. apply (tw_table _ _ _ _ _ Ht e k He Hk).
  - apply stable_ret.
Qed.

Lemma stable_entry N e : ~ N e -> stable ptcri o N (entry ptcri e) N.
Proof.
  intros He s s' a s1 Ht H. unfold entry, get_ptcri_name in *. steps.
  exists s'. split; [| exact Ht].
  match goal with H : index_of _ _ = Some _ |- _ => rename H into Hk end.
  unfold bind, lift, gets, at_nat. rewrite Hk. cbn.
  rewrite (tw_table _ _ _ _ _ Ht e _ He Hk).
  match goal with H : _ !! _ = Some _ |- _ => rewrite H end.
  reflexivity.
Qed.

Lemma stable_attr N : ~ N (YCEN 0) -> stable ptcri o N (attr (YCEN 0)) N.
Proof.
  intros He s s' a s1 Ht H. unfold attr in *. steps.
  exists s'. split; [| exact Ht].
  unfold bind, lift, gets. rewrite (tw_attrs _ _ _ _ _ Ht He).
  match goal with H : assoc _ _ = Some _ |- _ => rewrite H end.
  reflexivity.
Qed.

End StableRules.

(** Reduces a goal [stable ptcri o N m N] along the structure of [m]. *)
Ltac stable_step :=
  lazymatch goal with
  | |- stable _ _ _ (bind _ _) _ => apply stable_seq; [| intros]
  | |- stable _ _ _ (ret _) _ => apply stable_ret
  | |- stable _ _ _ (raise _) _ => apply stable_raise
  | |- stable _ _ _ (lift _) _ => apply stable_lift
  | |- stable _ _ _ (gets iptcri) _ => apply stable_table
  | |- stable _ _ _ (gets _) _ =>
      apply stable_gets;
      let H := fresh in
      intros ? ? H; first [apply (twin_col _ _ _ _ _ _ H)
                          | destruct H; congruence]
  | |- stable _ _ _ (at_ _ _) _ => apply stable_at
  | |- stable _ _ _ (at_nat _ _) _ => apply stable_at_nat
  | |- stable _ _ _ (takes _ _) _ => apply stable_takes
  | |- stable _ _ _ (argmin_ _) _ => apply stable_lift
  | |- stable _ _ _ (argmax_ _) _ => apply stable_lift
  | |- stable _ _ _ (log_search _) _ => apply stable_log
  | |- stable _ _ _ (modify (fun t => with_flag t _)) _ => apply stable_flag
  | |- stable _ _ _ (modify (fun t => with_info t _)) _ =>
      apply (stable_info _ _ _ (fun _ => _))
  | |- stable _ _ _ (add_eep _ _ _ _) _ => apply stable_add_eep
  | |- stable _ _ _ (if ?c then _ else _) _ => destruct c
  | |- stable _ _ _ (match ?x with _ => _ end) _ => destruct x
  end.

Create HintDb stables discriminated.

Ltac stable_go := repeat first [stable_step | solve [auto with stables]].


Section StableLemmas.

Variable cfg : config.
Variable ext : collaborators.
Variable ptcri : critical_point.
Variable o : Track.

Lemma not_none e : ~ none e.
Proof. intros []. Qed.

Lemma readable_none sd p : readable none sd p.
Proof. destruct p; cbn; auto using not_none. Qed.

Lemma readable_sandro N p : readable N true p.
Proof. destruct p; cbn; auto. Qed.

Lemma readable_at N sd i : readable N sd (At i).
Proof. exact I. Qed.

Hint Resolve not_none readable_none readable_sandro readable_at : stables.
Hint Resolve stable_raw_index stable_entry stable_attr : stables.

Lemma stable_peak_finder N c e1 e2 k :
  readable N (sandro k) e1 -> readable N (sandro k) e2 ->
  stable ptcri o N (peak_finder ext ptcri c e1 e2 k) N.
Proof. intros. unfold peak_finder. stable_go. Qed.

Lemma stable_inds_between N n1 n2 sd :
  readable N sd (Named n1) -> readable N sd (Named n2) ->
  stable ptcri o N (inds_between_ptcris ext ptcri n1 n2 sd) N.
Proof. intros. unfold inds_between_ptcris. stable_go. Qed.

Lemma stable_second_derivative N x inds gt :
  stable ptcri o N (second_derivative ext x inds gt) N.
Proof. unfold second_derivative. stable_go. Qed.

Lemma stable_delta_te N b a : stable ptcri o N (delta_te_eeps b a) N.
Proof. unfold delta_te_eeps. stable_go. Qed.

Lemma stable_check_minl N i m : stable ptcri o N (check_minl i m) N.
Proof. unfold check_minl. stable_go. Qed.

Hint Resolve stable_peak_finder stable_inds_between
  stable_second_derivative stable_delta_te stable_check_minl : stables.

(** The check reads the flag, which the two runs need not share; it
    returns on any track, and leaves the table alone. *)
Lemma stable_check N : stable ptcri o N check_for_monotonic_increase N.
Proof.
  intros s s' a s1 Ht H. destruct a.
  assert (Ht1 : twin ptcri o N (track s1) (track s')).
  { unfold check_for_monotonic_increase in H. steps.
    destruct (flag (track s)); steps; [exact Ht |].
    case_bool_decide; steps; [| exact Ht].
    match goal with H : modify _ _ = _ |- _ =>
      apply modify_ok in H as (-> & _) end.
    destruct Ht. split; assumption. }
  unfold check_for_monotonic_increase, bind, gets.
  destruct (flag (track s')).
  - eexists. split; [reflexivity | exact Ht1].
  - case_bool_decide.
    + eexists. split; [reflexivity |]. cbn.
      destruct Ht1. split; assumption.
    + eexists. split; [reflexivity | exact Ht1].
Qed.

Lemma stable_cen_loop N tol cens : forall inds,
  stable ptcri o N (cen_loop ptcri tol cens inds) N.
Proof.
  induction cens as [| c cens IH]; intros inds; cbn [cen_loop]; stable_go.
Qed.

Lemma stable_add_cen_eeps N hb_ tol istart :
  (hb_ = false -> istart = None -> ~ N RG_TIP) ->
  stable ptcri o N (add_cen_eeps ptcri hb_ tol istart) N.
Proof.
  intros Hr. unfold add_cen_eeps.
  apply stable_seq; [| intros; stable_go; apply stable_cen_loop].
  destruct hb_; [stable_go |]. destruct istart; [stable_go |].
  apply stable_entry; auto.
Qed.

Lemma stable_add_eep_with_age N e a :
  stable ptcri o N (add_eep_with_age ptcri e a) N.
Proof. unfold add_eep_with_age. stable_go. Qed.

Lemma stable_add_ms_beg_eep N x :
  stable ptcri o N (add_ms_beg_eep ptcri x) N.
Proof. unfold add_ms_beg_eep. stable_go. Qed.

Lemma stable_check_pms_beg N : stable ptcri o N (check_pms_beg ptcri) N.
Proof. unfold check_pms_beg. stable_go. Qed.

Lemma stable_add_hb_beg N : stable ptcri o N (add_hb_beg ptcri) N.
Proof. unfold add_hb_beg. stable_go. Qed.

Lemma stable_add_tpagb_eeps N : stable ptcri o N (add_tpagb_eeps ptcri) N.
Proof.
  unfold add_tpagb_eeps. stable_go.
  apply stable_for_each. intros. stable_go.
Qed.

Lemma stable_add_quiesscent N r :
  match r with
  | Raw _ _ => True
  | Names a b => ~ N a /\ ~ N b
  end ->
  stable ptcri o N (add_quiesscent_he_eep ext ptcri r) N.
Proof.
  intros Hr. unfold add_quiesscent_he_eep.
  apply stable_seq; [| intros; stable_go].
  destruct r; [stable_go |]. destruct Hr.
  apply stable_inds_between; cbn; auto.
Qed.

Hint Resolve stable_check stable_cen_loop stable_add_eep_with_age
  stable_add_ms_beg_eep stable_check_pms_beg stable_add_hb_beg
  stable_add_tpagb_eeps : stables.

Lemma stable_thirds : stable ptcri o none thirds none.
Proof. unfold thirds. stable_go. Qed.

Hint Resolve stable_thirds : stables.

Lemma stable_tp_loop in_tp second ex_inds diff_L i :
  (forall k, stable ptcri o none (in_tp k) none) ->
  forall mins ly1 ly2 m1 m2,
    stable ptcri o none
      (tp_loop in_tp second ex_inds diff_L i mins ly1 ly2 m1 m2) none.
Proof.
  intros Hin. induction i as [| i IH]; intros; cbn [tp_loop]; stable_go;
    auto.
Qed.

Lemma stable_add_agb_eeps : stable ptcri o none (add_agb_eeps ext ptcri) none.
Proof.
  unfold add_agb_eeps. stable_go; apply stable_tp_loop; intros; stable_go.
Qed.

Lemma stable_add_ms_eeps :
  stable ptcri o none (add_ms_eeps cfg ext ptcri) none.
Proof. unfold add_ms_eeps, ms_to_search, get_ptcri_name. stable_go. Qed.

Lemma stable_add_rg_minl e1 e2 p :
  stable ptcri o none (add_rg_minl_eep cfg ext ptcri e1 e2 p) none.
Proof. unfold add_rg_minl_eep. stable_go. Qed.

Lemma stable_add_sg_maxl e2 :
  stable ptcri o none (add_sg_maxl_eep cfg ext ptcri e2) none.
Proof. unfold add_sg_maxl_eep. stable_go. Qed.

Hint Resolve stable_add_agb_eeps stable_add_ms_eeps stable_add_rg_minl
  stable_add_sg_maxl : stables.

Lemma stable_minl_loop1 msto ps : forall i,
  stable ptcri o none (minl_loop1 cfg ext ptcri msto ps i) none.
Proof.
  induction ps as [| p ps IH]; intros i; cbn [minl_loop1]; stable_go.
Qed.

Lemma stable_minl_loop2 msto ps : forall i,
  stable ptcri o none (minl_loop2 cfg ext ptcri msto ps i) none.
Proof.
  induction ps as [| p ps IH]; intros i; cbn [minl_loop2]; stable_go.
Qed.

Lemma stable_set_rg_base N : stable ptcri o N (set_rg_base ptcri) N.
Proof. unfold set_rg_base. stable_go. Qed.

Hint Resolve stable_minl_loop1 stable_minl_loop2 stable_set_rg_base
  : stables.

Lemma stable_add_sg_rg_eeps :
  stable ptcri o none (add_sg_rg_eeps cfg ext ptcri) none.
Proof. unfold add_sg_rg_eeps. stable_go. Qed.

Lemma stable_hb_eeps : stable ptcri o none (hb_eeps ext ptcri) none.
Proof.
  unfold hb_eeps. stable_go.
  apply stable_add_cen_eeps. discriminate.
Qed.

Lemma stable_ms_beg_warning N :
  stable ptcri o N (ms_beg_warning cfg ptcri) N.
Proof. unfold ms_beg_warning. stable_go. Qed.

Lemma stable_low_mass_eeps :
  stable ptcri o none (low_mass_eeps cfg ptcri) none.
Proof.
  unfold low_mass_eeps. stable_go.
  apply stable_for_each. intros. stable_go.
Qed.

Lemma stable_intermediate_eeps n :
  stable ptcri o none (intermediate_eeps cfg ext ptcri n) none.
Proof.
  unfold intermediate_eeps. stable_go.
  - apply stable_add_cen_eeps. auto with stables.
  - apply stable_add_quiesscent. auto with stables.
  - apply stable_for_each. intros. stable_go.
  - apply stable_add_sg_rg_eeps.
Qed.

End StableLemmas.


Section PathFrames.

Variable cfg : config.
Variable ext : collaborators.
Variable ptcri : critical_point.

Hint Resolve frame_raw_index frame_entry frame_attr frame_get_ptcri_name
  frame_peak_finder frame_inds_between frame_second_derivative
  frame_check frame_thirds frame_delta_te frame_check_minl
  frame_add_cen_eeps frame_add_eep_with_age frame_add_ms_beg_eep
  frame_check_pms_beg frame_add_hb_beg frame_add_quiesscent
  frame_add_agb_eeps frame_add_ms_eeps frame_add_rg_minl
  frame_add_sg_maxl frame_add_sg_rg_eeps frame_high_mass_ms_to
  frame_high_mass_ms frame_high_mass_rest frame_add_high_mass_eeps
  frame_add_tpagb_eeps frame_ms_beg_warning frame_add_mstmin
  frame_add_msbeg : frames.

Lemma frame_hb_eeps : frame ptcri (hb_names ptcri) (hb_eeps ext ptcri).
Proof. unfold hb_eeps, hb_names. frame_go. Qed.

Lemma frame_low_mass_eeps :
  frame ptcri (low_names ptcri) (low_mass_eeps cfg ptcri).
Proof.
  unfold low_mass_eeps, low_names. frame_go.
  apply frame_reset. set_solver.
Qed.

Lemma frame_intermediate_eeps n :
  frame ptcri (int_names ptcri) (intermediate_eeps cfg ext ptcri n).
Proof.
  pose proof (ycens_sub ptcri).
  unfold intermediate_eeps, int_names. frame_go.
  apply frame_for_each. intros e He. apply subseteq_drop in He.
  apply frame_add_eep. set_solver.
Qed.

End PathFrames.


Section ExactFrames.

Variable cfg : config.
Variable ext : collaborators.
Variable ptcri : critical_point.

Hint Resolve frame_raw_index frame_entry frame_attr frame_get_ptcri_name
  frame_peak_finder frame_inds_between frame_second_derivative
  frame_check frame_thirds frame_delta_te frame_check_minl
  frame_add_cen_eeps frame_add_eep_with_age frame_add_ms_beg_eep
  frame_check_pms_beg frame_add_hb_beg frame_add_quiesscent
  frame_add_agb_eeps frame_add_ms_eeps frame_add_rg_minl
  frame_add_sg_maxl frame_add_sg_rg_eeps frame_high_mass_ms_to
  frame_high_mass_ms frame_high_mass_rest frame_add_high_mass_eeps
  frame_add_tpagb_eeps frame_ms_beg_warning frame_add_mstmin
  frame_add_msbeg frame_hb_eeps frame_low_mass_eeps
  frame_intermediate_eeps : frames.

Lemma framez_frame z W {A} (m : M A) :
  frame ptcri W m -> framez ptcri z W m.
Proof. intros Hm s a s1 _ H. apply (Hm _ _ _ H). Qed.

Lemma framez_bind z W {A B} (m : M A) (k : A -> M B) :
  framez ptcri z W m -> (forall a, framez ptcri z W (k a)) ->
  framez ptcri z W (bind m k).
Proof.
  intros Hm Hk s b s2 Hz H. step.
  match goal with
  | H1 : m _ = _, H2 : k _ _ = _ |- _ =>
      pose proof (Hm _ _ _ Hz H1) as Hs1;
      pose proof (Hk _ _ _ _ ltac:(rewrite (sb_Z _ _ _ _ Hs1); exact Hz) H2)
  end.
  eauto using same_but_trans.
Qed.

Lemma framez_gets_Z z W {B} (k : Q -> M B) :
  framez ptcri z W (k z) -> framez ptcri z W (bind (gets Z_) k).
Proof.
  intros Hk s b s2 Hz H. apply bind_ok in H as (a & s1 & H1 & H2).
  apply gets_ok in H1 as [-> ->]. rewrite Hz in H2. eauto.
Qed.

Lemma framez_add_msbeg z a b :
  framez ptcri z (pms_end_names z ++ [MS_BEG]) (add_msbeg ext ptcri a b).
Proof.
  unfold add_msbeg, pms_end_names. apply framez_gets_Z.
  destruct (np.Qltb z (4 # 1000)); apply framez_frame; frame_go.
Qed.

Lemma framez_high_mass_ms z ms_to :
  framez ptcri z (pms_end_names z ++ [MS_TMIN; MS_BEG])
    (high_mass_ms ext ptcri ms_to).
Proof.
  assert (Hmsbeg : forall a b,
             framez ptcri z (pms_end_names z ++ [MS_TMIN; MS_BEG])
               (add_msbeg ext ptcri a b)).
  { intros a b s r s1 Hz H.
    eapply same_but_weaken; [| apply (framez_add_msbeg z a b s r s1 Hz H)].
    set_solver. }
  unfold high_mass_ms. apply framez_gets_Z.
  apply framez_bind.
  - destruct (np.Qltb (1 # 100) z).
    + apply framez_bind; [apply framez_frame; frame_go | intros].
      apply framez_bind; [apply framez_frame; frame_go | intros].
      apply framez_bind; [apply framez_frame; frame_go | intros].
      apply framez_bind; [apply Hmsbeg | intros].
      apply framez_frame. frame_go.
    + apply framez_bind; [apply Hmsbeg | intros].
      apply framez_frame. frame_go.
  - intros [ms_beg ms_tmin]. apply framez_frame. frame_go.
Qed.

Lemma framez_add_high_mass_eeps z :
  framez ptcri z (high_names ptcri z) (add_high_mass_eeps ext ptcri).
Proof.
  unfold add_high_mass_eeps, high_names.
  apply framez_bind; [apply framez_frame; frame_go | intros ms_to].
  apply framez_bind.
  - intros s r s1 Hz H.
    eapply same_but_weaken;
      [| apply (framez_high_mass_ms z ms_to s r s1 Hz H)].
    set_solver.
  - intros [ms_beg ms_tmin]. apply framez_frame. frame_go.
Qed.

(** Whatever the way through it, [define_eep_stages] leaves the samples
    and Sandro's indices alone. *)
Lemma frame_dispatch hb_ n :
  frame ptcri (all_names ptcri) (dispatch cfg ext ptcri hb_ n).
Proof.
  pose proof (ycens_sub ptcri).
  unfold dispatch, all_names. frame_go.
Qed.

Lemma frame_define_eep_stages hb_ :
  frame ptcri (all_names ptcri) (define_eep_stages cfg ext ptcri hb_).
Proof.
  unfold define_eep_stages.
  apply frame_bind; [apply (frame_info _ _ (fun _ => [])) | intros].
  apply frame_bind; [apply frame_reset; unfold all_names; set_solver
                    | intros].
  apply frame_bind; [frame_go | intros].
  apply frame_bind; [frame_go | intros].
  apply frame_bind; [unfold all_names; frame_go | intros].
  apply frame_dispatch.
Qed.

End ExactFrames.


Section Anchored.

Variable cfg : config.
Variable ext : collaborators.
Variable ptcri : critical_point.
Variable o : Track.

(** Where the first run writes no more, what the second table still
    holds of [o] is what the first holds. *)
Lemma twin_upgrade (N N' : eep -> Prop) W t t' :
  twin ptcri o N t t' -> same_but ptcri W t o -> ~ N (YCEN 0) ->
  (forall e, ~ N' e -> ~ N e \/ e ∉ W) ->
  twin ptcri o N' t t'.
Proof.
  intros Ht Hsb Hy Hsub. pose proof Ht as [].
  split; try assumption.
  - intros e k He Hk. destruct (Hsub e He) as [Hn | Hw].
    + now apply (tw_table0 e k).
    + destruct (tw_final0 k) as [Hl | Hr]; [exact Hl |].
      rewrite Hr. apply (sb_table _ _ _ _ Hsb).
      intros e' He' Hk'. apply Hw.
      now rewrite (index_of_inj _ _ _ _ Hk Hk').
  - intros _. now apply tw_attrs0.
Qed.

Lemma anchored_stable {A} N N' (m : M A) :
  stable ptcri o N m N' -> anchored ptcri o N m N'.
Proof. intros Hm s s' a s1 Ht H _. eauto. Qed.

Lemma anchored_bind {A B} N N1 N2 (m : M A) (k : A -> M B) :
  stable ptcri o N m N1 -> (forall a, anchored ptcri o N1 (k a) N2) ->
  anchored ptcri o N (bind m k) N2.
Proof.
  intros Hm Hk s s' b s2 Ht H Ho.
  apply bind_ok in H as (a & s1 & H1 & H2).
  destruct (Hm _ _ _ _ Ht H1) as (s1' & H1' & Ht1).
  destruct (Hk a _ _ _ _ Ht1 H2 Ho) as (s2' & H2' & Ht2).
  exists s2'. split; [| exact Ht2]. unfold bind. now rewrite H1'.
Qed.

Lemma anchored_upgrade {A} (N N' N2 : eep -> Prop) W (m : M A) :
  framez ptcri (Z_ o) W m -> ~ N (YCEN 0) ->
  (forall e, ~ N' e -> ~ N e \/ e ∉ W) ->
  stable ptcri o N' m N2 -> anchored ptcri o N m N2.
Proof.
  intros Hf Hy Hsub Hm s s' a s1 Ht H Ho.
  apply (Hm s s' a s1); [| exact H].
  apply (twin_upgrade N N' W); try assumption.
  rewrite <- Ho. apply (Hf s a s1); [apply (tw_Z _ _ _ _ _ Ht) | exact H].
Qed.

Lemma stable_gets_Z {B} N N' (k : Q -> M B) :
  stable ptcri o N (k (Z_ o)) N' -> stable ptcri o N (bind (gets Z_) k) N'.
Proof.
  intros Hk s s' b s2 Ht H. apply bind_ok in H as (a & s1 & H1 & H2).
  apply gets_ok in H1 as [-> ->]. rewrite (tw_Z _ _ _ _ _ Ht) in H2.
  destruct (Hk _ _ _ _ Ht H2) as (s2' & H2' & Ht2).
  exists s2'. split; [| exact Ht2].
  unfold bind, gets. now rewrite (tw_Z' _ _ _ _ _ Ht).
Qed.

Lemma stable_reset N m l :
  stable ptcri o N (for_each (fun cp => add_eep ptcri cp 0 m) l)
    (fun e => N e /\ e ∉ l).
Proof.
  revert N. induction l as [| x l IH]; intros N; cbn [for_each].
  - apply (stable_weaken _ _ N N N); [auto | | apply stable_ret].
    intros e He. split; [exact He | apply not_elem_of_nil].
  - apply (stable_bind _ _ _ (but N x)); [apply stable_add_eep_but |].
    intros _.
    apply (stable_weaken _ _ (but N x) (but N x)
             (fun e => but N x e /\ e ∉ l)); [auto | | apply IH].
    intros e [[He Hx] Hl]. split; [exact He |].
    rewrite not_elem_of_cons. auto.
Qed.

Hint Resolve not_none readable_none readable_sandro readable_at
  stable_raw_index stable_entry stable_attr stable_peak_finder
  stable_inds_between stable_second_derivative stable_delta_te
  stable_check_minl stable_check stable_cen_loop stable_add_eep_with_age
  stable_add_ms_beg_eep stable_check_pms_beg stable_add_hb_beg
  stable_add_tpagb_eeps stable_thirds stable_add_agb_eeps
  stable_add_ms_eeps stable_add_rg_minl stable_add_sg_maxl
  stable_minl_loop1 stable_minl_loop2 stable_set_rg_base
  stable_add_sg_rg_eeps stable_hb_eeps stable_ms_beg_warning
  stable_low_mass_eeps stable_intermediate_eeps : stables.

Lemma stable_high_mass_ms_to N :
  stable ptcri o N (high_mass_ms_to ptcri) N.
Proof. unfold high_mass_ms_to. stable_go. Qed.

Lemma stable_add_mstmin N a b m :
  stable ptcri o N (add_mstmin ext ptcri a b m) N.
Proof. unfold add_mstmin. stable_go. Qed.

Lemma stable_add_msbeg (N : eep -> Prop) end_ :
  ~ N end_ -> (np.Qltb (Z_ o) (4 # 1000) = false -> ~ N PMS_END) ->
  stable ptcri o N (add_msbeg ext ptcri PMS_END end_)
    (but (but N PMS_END) MS_BEG).
Proof.
  intros Hend Hpms. unfold add_msbeg. apply stable_gets_Z.
  apply (stable_bind _ _ N (but N PMS_END)).
  - destruct (np.Qltb (Z_ o) (4 # 1000)).
    + apply (stable_bind _ _ N N); [stable_go |].
      intros. apply stable_add_eep_but.
    + apply (stable_weaken _ _ N N N); [auto | | apply stable_ret].
      intros e He. split; [exact He |]. intros ->. now apply Hpms.
  - intros _.
    assert (Hr1 : readable (but N PMS_END) false (Named PMS_END))
      by (right; intros [_ []]; reflexivity).
    assert (Hr2 : readable (but N PMS_END) false (Named end_))
      by (right; intros [He _]; now apply Hend).
    apply (stable_bind _ _ _ (but N PMS_END)); [stable_go |]. intros.
    apply (stable_bind _ _ _ (but N PMS_END)); [stable_go |].
    intros [ms_beg sfx].
    apply (stable_bind _ _ _ (but (but N PMS_END) MS_BEG));
      [apply stable_add_eep_but | intros; apply stable_ret].
Qed.

Lemma high_left_asked e :
  e ∈ derived -> ~ high_left (Z_ o) e.
Proof.
  unfold derived, high_left, pms_end_names.
  destruct (np.Qltb (Z_ o) (4 # 1000)); set_solver.
Qed.

Lemma stable_high_mass_ms ms_to :
  stable ptcri o (high_left (Z_ o)) (high_mass_ms ext ptcri ms_to)
    (but (but (high_left (Z_ o)) PMS_END) MS_BEG).
Proof.
  assert (Hmsbeg : forall end_, end_ ∈ derived ->
            stable ptcri o (high_left (Z_ o))
              (add_msbeg ext ptcri PMS_END end_)
              (but (but (high_left (Z_ o)) PMS_END) MS_BEG)).
  { intros end_ He. apply stable_add_msbeg.
    - now apply high_left_asked.
    - unfold high_left, pms_end_names. intros ->. set_solver. }
  unfold high_mass_ms. apply stable_gets_Z.
  apply (stable_bind _ _ _ (but (but (high_left (Z_ o)) PMS_END) MS_BEG)).
  - destruct (np.Qltb (1 # 100) (Z_ o)).
    + apply (stable_bind _ _ _ (high_left (Z_ o))); [stable_go | intros].
      apply (stable_bind _ _ _ (high_left (Z_ o))); [stable_go | intros].
      apply (stable_bind _ _ _ (high_left (Z_ o)));
        [apply stable_add_mstmin | intros].
      apply (stable_bind _ _ _
               (but (but (high_left (Z_ o)) PMS_END) MS_BEG));
        [apply Hmsbeg; unfold derived; set_solver | intros].
      apply stable_ret.
    + apply (stable_bind _ _ _
               (but (but (high_left (Z_ o)) PMS_END) MS_BEG));
        [apply Hmsbeg; unfold derived; set_solver | intros].
      apply stable_seq; [apply stable_add_mstmin | intros].
      apply stable_ret.
  - intros [ms_beg ms_tmin]. stable_go.
Qed.

Lemma stable_high_mass_rest a b c :
  stable ptcri o (but (but (high_left (Z_ o)) PMS_END) MS_BEG)
    (high_mass_rest ext ptcri a b c) none.
Proof.
  set (N := but (but (high_left (Z_ o)) PMS_END) MS_BEG).
  unfold high_mass_rest.
  apply (stable_bind _ _ _ N); [stable_go | intros].
  apply (stable_bind _ _ _ N);
    [apply stable_add_cen_eeps; discriminate | intros].
  do 5 (apply (stable_bind _ _ _ N); [stable_go | intros]).
  apply (stable_bind _ _ _ N);
    [apply stable_add_quiesscent; exact I | intros].
  apply (stable_bind _ _ _ (but N TPAGB)); [apply stable_add_eep_but |].
  intros _.
  destruct (np.round <$> _) as [| ? [| sg [| rg [| b1 [| b2 [| tip
                                 [| ? [| ? ?]]]]]]]];
    try apply stable_raise.
  apply (stable_bind _ _ _ (but N TPAGB)); [stable_go | intros].
  apply (stable_bind _ _ _ (but N TPAGB)); [stable_go | intros].
  apply (stable_bind _ _ _ (but (but N TPAGB) RG_BMP1));
    [apply stable_add_eep_but | intros].
  apply (stable_bind _ _ _ (but (but (but N TPAGB) RG_BMP1) RG_BMP2));
    [apply stable_add_eep_but | intros].
  apply (stable_bind _ _ _ none).
  { apply (stable_weaken _ _
             (but (but (but N TPAGB) RG_BMP1) RG_BMP2)
             (but (but (but N TPAGB) RG_BMP1) RG_BMP2)
             (but (but (but (but N TPAGB) RG_BMP1) RG_BMP2) RG_TIP) none);
      [auto | | apply stable_add_eep_but].
    unfold N, but, high_left, pms_end_names, none.
    destruct (np.Qltb (Z_ o) (4 # 1000)); set_solver. }
  intros. stable_go.
Qed.

Lemma stable_add_high_mass_eeps :
  stable ptcri o (high_left (Z_ o)) (add_high_mass_eeps ext ptcri) none.
Proof.
  unfold add_high_mass_eeps.
  apply (stable_bind _ _ _ (high_left (Z_ o)));
    [apply stable_high_mass_ms_to | intros ms_to].
  apply (stable_bind _ _ _ (but (but (high_left (Z_ o)) PMS_END) MS_BEG));
    [apply stable_high_mass_ms | intros [ms_beg ms_tmin]].
  apply stable_high_mass_rest.
Qed.

End Anchored.


Section Rerun.

Variable cfg : config.
Variable ext : collaborators.
Variable ptcri : critical_point.
Variable o : Track.

Hypothesis asked : derived ⊆ please_define ptcri.

Lemma asked_not_unasked e : e ∈ derived -> ~ unasked ptcri e.
Proof. intros He Hn. apply Hn, asked, He. Qed.

Lemma asked_or_not e W :
  W ⊆ please_define ptcri -> ~ unasked ptcri e \/ e ∉ W.
Proof.
  intros HW. destruct (decide (e ∈ please_define ptcri)) as [Hin | Hout].
  - left. intros Hn. exact (Hn Hin).
  - right. intros Hw. apply Hout, HW, Hw.
Qed.

Lemma hb_names_asked : hb_names ptcri ⊆ please_define ptcri.
Proof.
  pose proof (ycens_sub ptcri). unfold hb_names.
  unfold derived in asked. set_solver.
Qed.

Lemma low_names_asked : low_names ptcri ⊆ please_define ptcri.
Proof. unfold low_names. unfold derived in asked. set_solver. Qed.

Lemma int_names_asked : int_names ptcri ⊆ please_define ptcri.
Proof. unfold int_names. unfold derived in asked. set_solver. Qed.

Lemma high_names_split z e :
  e ∈ high_names ptcri z -> e ∈ please_define ptcri \/ high_left z e.
Proof.
  pose proof (ycens_sub ptcri). unfold high_names, high_left.
  unfold derived in asked. set_solver.
Qed.

Lemma anchored_dispatch hb_ n :
  anchored ptcri o (unasked ptcri) (dispatch cfg ext ptcri hb_ n) none.
Proof.
  assert (Hy : ~ unasked ptcri (YCEN 0))
    by (apply asked_not_unasked; unfold derived; set_solver).
  unfold dispatch. destruct hb_.
  - apply (anchored_upgrade _ _ (unasked ptcri) none none (hb_names ptcri));
      [| exact Hy | |].
    + apply framez_frame.
      apply frame_bind; [apply frame_hb_eeps | intros; apply frame_check].
    + intros e _. apply asked_or_not, hb_names_asked.
    + apply stable_seq; [apply stable_hb_eeps | intros; apply stable_check].
  - apply (anchored_bind _ _ _ (unasked ptcri));
      [apply stable_check_pms_beg | intros _].
    apply (anchored_bind _ _ _ (unasked ptcri));
      [apply stable_ms_beg_warning | intros _].
    apply (anchored_bind _ _ _ (unasked ptcri)); [stable_go | intros m].
    apply (anchored_bind _ _ _ (unasked ptcri)); [stable_go | intros sp].
    destruct (Qle_bool (high_mass cfg) m); [| destruct (len sp <=? 6)].
    + apply (anchored_upgrade _ _ (unasked ptcri) (high_left (Z_ o)) none
               (high_names ptcri (Z_ o))); [| exact Hy | |].
      * apply framez_bind; [apply framez_add_high_mass_eeps |].
        intros. apply framez_frame, frame_check.
      * intros e He.
        destruct (decide (e ∈ please_define ptcri)) as [Hin | Hout].
        { left. intros Hn. exact (Hn Hin). }
        right. intros Hw. apply high_names_split in Hw as [? | ?]; auto.
      * apply (stable_bind _ _ _ none);
          [apply stable_add_high_mass_eeps | intros; apply stable_check].
    + apply (anchored_upgrade _ _ (unasked ptcri) none none
               (low_names ptcri)); [| exact Hy | |].
      * apply framez_frame.
        apply frame_bind; [apply frame_low_mass_eeps |].
        intros. apply frame_check.
      * intros e _. apply asked_or_not, low_names_asked.
      * apply stable_seq; [apply stable_low_mass_eeps |].
        intros. apply stable_check.
    + apply (anchored_upgrade _ _ (unasked ptcri) none none
               (int_names ptcri)); [| exact Hy | |].
      * apply framez_frame.
        apply frame_bind; [apply frame_intermediate_eeps |].
        intros. apply frame_check.
      * intros e _. apply asked_or_not, int_names_asked.
      * apply stable_seq; [apply stable_intermediate_eeps |].
        intros. apply stable_check.
Qed.

Lemma anchored_define_eep_stages hb_ :
  anchored ptcri o any_name (define_eep_stages cfg ext ptcri hb_) none.
Proof.
  unfold define_eep_stages.
  apply (anchored_bind _ _ _ any_name);
    [apply (stable_info _ _ _ (fun _ => [])) | intros _].
  apply (anchored_bind _ _ _ (unasked ptcri)).
  { apply (stable_weaken _ _ any_name any_name
             (fun e => any_name e /\ e ∉ please_define ptcri));
      [auto | | apply stable_reset].
    now intros e [_ He]. }
  intros _.
  apply (anchored_bind _ _ _ (unasked ptcri)); [stable_go | intros sp].
  apply (anchored_bind _ _ _ (unasked ptcri)); [stable_go | intros ag].
  apply (anchored_bind _ _ _ (unasked ptcri)).
  { destruct ag; [apply stable_add_tpagb_eeps | apply stable_ret]. }
  intros _. apply anchored_dispatch.
Qed.

End Rerun.



(** * Further properties of the module *)

(** ** [add_eep] *)



(** ** [check_for_monotonic_increase] *)

Lemma nonzero_from_all_false {A} (p : A -> bool) l : forall i,
  Forall (fun x => p x = false) l -> np.nonzero_from p i l = [].
Proof.
  induction l as [| x l IH]; intros i Hl; cbn; [reflexivity |].
  apply Forall_cons in Hl as [-> Hl]. now apply IH.
Qed.

Lemma increasing_no_negatives l :
  increasing l -> np.nonzero (fun d => d <=? 0) (np.diff l) = [].
Proof.
  intros Hinc. apply nonzero_from_all_false. apply Forall_lookup.
  intros k d Hd. apply diff_lookup_inv in Hd as (a & b & Ha & Hb & ->).
  pose proof (Hinc k (S k) a b ltac:(lia) Ha Hb). lia.
Qed.


(** ** What [define_eep_stages] leaves alone *)

(** X3.  [define_eep_stages] never changes the samples of the track, its
    mass and metallicity, Sandro's indices, the catalogue's per-mass
    table or the length of the EEP table; and the entry of a name it has
    no rule for (a name that is neither asked for nor one of the 17 names
    the module writes) reads after the run as before. *)
Theorem define_eep_stages_keeps cfg ext ptcri hb_ s u s1 :
  define_eep_stages cfg ext ptcri hb_ s = Ok (u, s1) ->
  data (track s1) = data (track s)
  /\ mass (track s1) = mass (track s)
  /\ Z_ (track s1) = Z_ (track s)
  /\ sptcri (track s1) = sptcri (track s)
  /\ length (iptcri (track s1)) = length (iptcri (track s))
  /\ data_dict s1 = data_dict s
  /\ forall e v, e ∉ all_names ptcri ->
       entry_is ptcri (iptcri (track s)) e v ->
       entry_is ptcri (iptcri (track s1)) e v.
Proof.
  intros H.
  destruct (frame_define_eep_stages cfg ext ptcri hb_ _ _ _ H) as [Hsb Hd].
  pose proof Hsb as [].
  repeat split; try assumption.
  intros e v He (k & Hk & Hv). exists k. split; [exact Hk |].
  now rewrite (same_but_entry _ _ _ _ _ _ Hsb He Hk).
Qed.

Lemma define_eep_stages_keeps_hm :
  define_eep_stages Example.thresholds Example.helpers Example.catalogue
    false (Example.hm_loaded (1 # 1000)) = Ok (Example.hm_run (1 # 1000))
  /\ data (track (snd (Example.hm_run (1 # 1000)))) = Example.hm_rows (-1)
  /\ sptcri (track (snd (Example.hm_run (1 # 1000))))
     = [1; 2; 3; 4; 5; 9; 11; 14; 15; 16; 17; 39]
  /\ entry_is Example.catalogue
       (iptcri (track (snd (Example.hm_run (1 # 1000))))) PMS_MIN 2.
Proof.
  split; [vm_compute; reflexivity |].
  destruct (define_eep_stages_keeps Example.thresholds Example.helpers
              Example.catalogue false (Example.hm_loaded (1 # 1000)) tt
              (snd (Example.hm_run (1 # 1000))))
    as (Hd & _ & _ & Hs & _ & _ & He).
  - vm_compute. reflexivity.
  - split; [exact Hd |]. split; [exact Hs |].
    apply He.
    + apply (bool_decide_unpack _). vm_compute. reflexivity.
    + exists 1%nat. split; vm_compute; reflexivity.
Defined.

(** ** Tracks with few reference indices *)

Lemma ms_beg_warning_ok cfg ptcri s u s1 :
  ms_beg_warning cfg ptcri s = Ok (u, s1) -> 4 < len (sptcri (track s)).
Proof.
  unfold ms_beg_warning. intros H. steps.
  destruct (Z.leb_spec (len (sptcri (track s))) 4) as [Hle | Hgt];
    [| exact Hgt].
  steps.
  assert (Hnone : np.index (sptcri (track s)) 4 = None).
  { unfold np.index, len in *. cbn. apply lookup_ge_None_2. lia. }
  rewrite Hnone in *. cbn in *.
  destruct (np.nonzero _ (masses ptcri)) as [| ? [| ? ?]]; steps.
Qed.

(** X4.  A track that is not a horizontal-branch track and has four of
    Sandro's indices or fewer cannot be defined: its fifth index is read
    for the note on MS_BEG, and the handler of that failure ends in an
    undefined name.  So when [define_eep_stages] returns on such a track,
    Sandro gave it five indices at least. *)
Theorem define_eep_stages_needs_five cfg ext ptcri s u s1 :
  define_eep_stages cfg ext ptcri false s = Ok (u, s1) ->
  4 < len (sptcri (track s)).
Proof.
  unfold define_eep_stages, dispatch. intros H. steps.
  repeat match goal with
  | H : modify _ ?s = Ok (_, ?s') |- _ =>
      apply (frame_info ptcri [] (fun _ => [])) in H as [H _]
  | H : for_each _ _ ?s = Ok (_, ?s') |- _ =>
      apply (frame_reset ptcri (please_define ptcri)) in H as [H _];
      [| reflexivity]
  | H : check_pms_beg _ _ = Ok _ |- _ =>
      apply frame_check_pms_beg in H as [H _]
  | H : ms_beg_warning _ _ _ = Ok _ |- _ =>
      apply ms_beg_warning_ok in H
  | H : (if agb ?t then _ else _) _ = Ok _ |- _ =>
      assert (same_but ptcri [TPAGB; TPAGB_n 1; TPAGB_n 2] _ _)
        by (destruct (agb t);
            [apply (frame_add_tpagb_eeps ptcri _ _ _ H)
            | apply ret_ok in H as [_ ->]; apply same_but_refl]);
      clear H
  end.
  repeat match goal with
  | H : same_but _ _ _ _ |- _ => apply sb_sptcri in H
  end.
  congruence.
Qed.

Lemma define_eep_stages_needs_five_hm :
  define_eep_stages Example.thresholds Example.helpers Example.catalogue
    false (Example.hm_loaded (2 # 100)) = Ok (Example.hm_run (2 # 100))
  /\ 4 < len (sptcri (track (Example.hm_loaded (2 # 100)))).
Proof.
  split; [vm_compute; reflexivity |].
  apply (define_eep_stages_needs_five Example.thresholds Example.helpers
           Example.catalogue (Example.hm_loaded (2 # 100)) tt
           (snd (Example.hm_run (2 # 100)))).
  vm_compute. reflexivity.
Defined.

(** ** Branches that search for no feature *)

Section QuietBranches.

Variable cfg : config.
Variable ext : collaborators.
Variable ptcri : critical_point.

Hint Resolve quiet_raw_index quiet_entry quiet_attr quiet_inds_between
  quiet_check quiet_thirds quiet_cen_loop quiet_add_cen_eeps
  quiet_add_quiesscent quiet_add_agb_eeps : quiets.

Lemma quiet_add_eep_with_age e a : quiet (add_eep_with_age ptcri e a).
Proof. unfold add_eep_with_age. quiet_go. Qed.

Lemma quiet_add_ms_beg_eep x : quiet (add_ms_beg_eep ptcri x).
Proof. unfold add_ms_beg_eep. quiet_go. Qed.

Lemma quiet_check_pms_beg : quiet (check_pms_beg ptcri).
Proof. unfold check_pms_beg. quiet_go. Qed.

Lemma quiet_add_hb_beg : quiet (add_hb_beg ptcri).
Proof. unfold add_hb_beg. quiet_go. Qed.

Lemma quiet_add_tpagb_eeps : quiet (add_tpagb_eeps ptcri).
Proof.
  unfold add_tpagb_eeps. quiet_go. apply quiet_for_each. intros. quiet_go.
Qed.

Hint Resolve quiet_add_eep_with_age quiet_add_ms_beg_eep
  quiet_check_pms_beg quiet_add_hb_beg quiet_add_tpagb_eeps : quiets.

Lemma quiet_hb_eeps : quiet (hb_eeps ext ptcri).
Proof. unfold hb_eeps. quiet_go. Qed.

Lemma quiet_ms_beg_warning : quiet (ms_beg_warning cfg ptcri).
Proof. unfold ms_beg_warning. quiet_go. Qed.

Lemma quiet_low_mass_eeps : quiet (low_mass_eeps cfg ptcri).
Proof.
  unfold low_mass_eeps. quiet_go. apply quiet_for_each. intros. quiet_go.
Qed.

End QuietBranches.



(** ** EEPs set from one column *)

(** Splits the equations between pairs that [steps] leaves. *)
Ltac unpair :=
  repeat match goal with
  | H : (_, _) = (_, _) |- _ => injection H as ? ?; subst
  end.

Lemma add_eep_entry_is ptcri e ind m s u s1 :
  add_eep ptcri e ind m s = Ok (u, s1) ->
  entry_is ptcri (iptcri (track s1)) e ind.
Proof.
  intros H. apply add_eep_ok in H as (k & Hk & Hlen & -> & _).
  exists k. split; [exact Hk |]. cbn. apply list_lookup_insert_eq. lia.
Qed.

Lemma nonzero_first {A} (p : A -> bool) l i :
  np.index (np.nonzero p l) 0 = Some i -> first_such p l i.
Proof.
  unfold np.nonzero. intros Hz.
  destruct (np.nonzero_from _ 0 _) as [| i' rest] eqn:E; [discriminate |].
  injection Hz as ->.
  apply nonzero_from_head in E as (Hle & Hv & Hbefore).
  rewrite Z.sub_0_r in *. repeat split; [lia | exact Hv |].
  intros j w Hj Hw. exact (Hbefore j w Hj Hw).
Qed.

Lemma argmin_nearest l target k :
  np.argmin ((fun x => Qabs (x - target)) <$> l) = Some k ->
  nearest l target (Z.of_nat k).
Proof.
  intros Hk. apply argmin_least in Hk as (d & Hd & Hmin).
  rewrite list_lookup_fmap in Hd.
  destruct (l !! k) as [v |] eqn:Hv; [| discriminate].
  assert (Hd' : d = Qabs (v - target)).
  { change (Some (Qabs (v - target)) = Some d) in Hd. congruence. }
  subst d. split; [lia |]. exists v. rewrite Nat2Z.id.
  split; [exact Hv |]. intros j w Hj.
  destruct (Hmin j (Qabs (w - target))) as [Hle Hlt].
  { rewrite list_lookup_fmap, Hj. reflexivity. }
  split; [exact Hle | intros; apply Hlt; lia].
Qed.

(** X6.  [check_pms_beg] looks at the age of the sample Sandro's first
    index points at.  Above 0.2 it leaves the track as it is; otherwise
    PMS_BEG moves to the first sample whose age, rounded to one decimal,
    is above 0.2, and nothing else of the table changes. *)
Theorem check_pms_beg_first ptcri s u s1 :
  check_pms_beg ptcri s = Ok (u, s1) ->
  exists i0 a0,
    np.index (sptcri (track s)) 0 = Some i0
    /\ np.index (col age (track s)) i0 = Some a0
    /\ (((2 # 10) < a0)%Q /\ s1 = s
        \/ (a0 <= 2 # 10)%Q
           /\ exists i,
                first_such (fun x => 2 <? np.round (x * 10))
                  (col age (track s)) i
                /\ entry_is ptcri (iptcri (track s1)) PMS_BEG i
                /\ forall e v, e <> PMS_BEG ->
                     entry_is ptcri (iptcri (track s)) e v ->
                     entry_is ptcri (iptcri (track s1)) e v).
Proof.
  intros H. pose proof (frame_check_pms_beg ptcri _ _ _ H) as [Hsb _].
  unfold check_pms_beg in H. steps.
  match goal with H : np.index (sptcri _) 0 = Some ?i |- _ =>
    exists i end.
  match goal with H : np.index (col age _) _ = Some ?a |- _ =>
    exists a; rename a into a0 end.
  do 2 (split; [assumption |]).
  destruct (Qle_bool a0 (2 # 10)) eqn:Ha.
  - right. apply Qle_bool_iff in Ha. split; [exact Ha |]. steps.
    match goal with H : np.index (np.nonzero _ _) 0 = Some ?i |- _ =>
      exists i; apply nonzero_first in H end.
    split; [assumption |]. split; [eapply add_eep_entry_is; eauto |].
    intros e v He (k & Hk & Hv). exists k. split; [exact Hk |].
    rewrite (same_but_entry _ _ _ _ e k Hsb); [exact Hv | | exact Hk].
    rewrite list_elem_of_singleton. exact He.
  - left. steps. split; [| reflexivity].
    apply Qnot_le_lt. intros Hle. apply Qle_bool_iff in Hle. congruence.
Qed.

Lemma check_pms_beg_first_young :
  check_pms_beg Example.catalogue (Example.young 0) = Ok Example.young_pms
  /\ exists i0 a0,
       np.index (sptcri (track (Example.young 0))) 0 = Some i0
       /\ np.index (col age (track (Example.young 0))) i0 = Some a0
       /\ (((2 # 10) < a0)%Q /\ snd Example.young_pms = Example.young 0
           \/ (a0 <= 2 # 10)%Q
              /\ exists i,
                   first_such (fun x => 2 <? np.round (x * 10))
                     (col age (track (Example.young 0))) i
                   /\ entry_is Example.catalogue
                        (iptcri (track (snd Example.young_pms))) PMS_BEG i
                   /\ forall e v, e <> PMS_BEG ->
                        entry_is Example.catalogue
                          (iptcri (track (Example.young 0))) e v ->
                        entry_is Example.catalogue
                          (iptcri (track (snd Example.young_pms))) e v).
Proof.
  split; [vm_compute; reflexivity |].
  apply (check_pms_beg_first Example.catalogue (Example.young 0) tt
           (snd Example.young_pms)).
  vm_compute. reflexivity.
Defined.

Lemma add_hb_beg_ok ptcri s i s1 :
  add_hb_beg ptcri s = Ok (i, s1) ->
  same_but ptcri [HE_BEG] (track s) (track s1)
  /\ entry_is ptcri (iptcri (track s1)) HE_BEG i
  /\ exists h,
       np.index (sptcri (track s)) 0 = Some h
       /\ (h <> 0 -> i = h)
       /\ (h = 0 ->
           first_such (fun x => np.Qltb (2 # 10) x) (col age (track s)) i).
Proof.
  intros H. pose proof (frame_add_hb_beg ptcri _ _ _ H) as [Hsb _].
  split; [exact Hsb |]. unfold add_hb_beg in H. steps.
  match goal with H : np.index (sptcri _) 0 = Some ?i |- _ =>
    rename i into h; rename H into Hh end.
  destruct (Z.eqb_spec h 0) as [-> | Hne]; steps; unpair.
  - split; [eapply add_eep_entry_is; eauto |].
    exists 0. split; [exact Hh |]. split; [congruence | intros _].
    now apply nonzero_first.
  - split; [eapply add_eep_entry_is; eauto |].
    exists h. split; [exact Hh |]. split; [reflexivity | congruence].
Qed.

(** X7.  [add_hb_beg] sets HE_BEG to Sandro's first index, unless that
    is 0: then HE_BEG is the first sample older than 0.2.  It returns the
    index it has set. *)
Theorem add_hb_beg_first ptcri s i s1 :
  add_hb_beg ptcri s = Ok (i, s1) ->
  entry_is ptcri (iptcri (track s1)) HE_BEG i
  /\ exists h,
       np.index (sptcri (track s)) 0 = Some h
       /\ (h <> 0 -> i = h)
       /\ (h = 0 ->
           first_such (fun x => np.Qltb (2 # 10) x) (col age (track s)) i).
Proof. intros H. now apply add_hb_beg_ok in H. Qed.

Lemma add_hb_beg_first_young :
  add_hb_beg Example.catalogue (Example.young 0) = Ok Example.young_hb
  /\ entry_is Example.catalogue (iptcri (track (snd Example.young_hb)))
       HE_BEG (fst Example.young_hb)
  /\ exists h,
       np.index (sptcri (track (Example.young 0))) 0 = Some h
       /\ (h <> 0 -> fst Example.young_hb = h)
       /\ (h = 0 ->
           first_such (fun x => np.Qltb (2 # 10) x)
             (col age (track (Example.young 0))) (fst Example.young_hb)).
Proof.
  split; [vm_compute; reflexivity |].
  apply (add_hb_beg_first Example.catalogue (Example.young 0)
           (fst Example.young_hb) (snd Example.young_hb)).
  vm_compute. reflexivity.
Defined.

Lemma arange_index_last a b x :
  np.index (np.arange a b) (-1) = Some x -> x = b - 1 /\ a < b.
Proof.
  unfold np.index. cbn [Z.leb Z.compare].
  unfold np.arange at 1 2. rewrite length_fmap, length_seq.
  destruct (Z.leb_spec (- Z.of_nat (Z.to_nat (b - a))) (-1));
    [| discriminate].
  intros Hx. apply arange_lookup in Hx. lia.
Qed.

Lemma add_quiesscent_he_eep_ok ext ptcri start ycen1 s i s1 :
  add_quiesscent_he_eep ext ptcri (Raw start ycen1) s = Ok (i, s1) ->
  entry_is ptcri (iptcri (track s1)) HE_BEG i
  /\ (ycen1 <= start /\ i = 0
      \/ start + 3 <= ycen1 /\ start <= i < ycen1).
Proof.
  unfold add_quiesscent_he_eep. intros H. steps.
  case_bool_decide as Hlen; steps.
  - split; [eapply add_eep_entry_is; eauto |]. left.
    split; [| reflexivity].
    unfold np.arange in Hlen. rewrite length_fmap, length_seq in Hlen. lia.
  - split; [eapply add_eep_entry_is; eauto |].
    match goal with
    | H : add_eep _ _ ?j _ _ = _, H' : np.arange _ _ !! _ = Some ?j |- _ =>
        apply arange_lookup in H' as [-> Hk]
    end.
    right. split; [| lia].
    match goal with H : np.index (np.arange _ _) (-1) = Some _ |- _ =>
      apply arange_index_last in H as [-> ?] end.
    match goal with H : np.index (np.arange _ _) 0 = Some _ |- _ =>
      rewrite (index_nat _ 0) in H; apply arange_lookup in H as [-> _] end.
    match goal with
    | Ht : np.take _ (slice_to _ ?n) = Some ?lys, Hm : np.argmax ?lys = _
      |- _ =>
        apply length_take in Ht; destruct lys; [discriminate Hm |];
        unfold slice_to in Ht; cbn [length] in Ht
    end.
    match goal with
    | Ht : S _ = length (if 0 <=? ?d then _ else _) |- _ =>
        destruct (Z.leb_spec 0 d) as [Hd | Hd];
        rewrite list.length_take in Ht;
        Z.div_mod_to_equations; lia
    end.
Qed.

(** X8.  Called with two raw indices, [add_quiesscent_he_eep] sets
    HE_BEG to the index it returns, which is 0 when the range
    [start, ycen1) is empty and lies in that range otherwise.  On a range
    of one or two samples it does not return: the first third of the
    range, where it looks for the peak of LY, is empty. *)
Theorem add_quiesscent_he_eep_range ext ptcri start ycen1 s i s1 :
  add_quiesscent_he_eep ext ptcri (Raw start ycen1) s = Ok (i, s1) ->
  entry_is ptcri (iptcri (track s1)) HE_BEG i
  /\ (ycen1 <= start -> i = 0)
  /\ (start < ycen1 -> start + 3 <= ycen1 /\ start <= i < ycen1).
Proof.
  intros H. apply add_quiesscent_he_eep_ok in H as [He Hi].
  split; [exact He |]. split; lia.
Qed.

Lemma add_quiesscent_he_eep_range_hm :
  add_quiesscent_he_eep Example.helpers Example.catalogue (Raw 10 30)
    (Example.hm_loaded (2 # 100)) = Ok Example.hm_he_beg
  /\ entry_is Example.catalogue (iptcri (track (snd Example.hm_he_beg)))
       HE_BEG (fst Example.hm_he_beg)
  /\ (30 <= 10 -> fst Example.hm_he_beg = 0)
  /\ (10 < 30 -> 10 + 3 <= 30 /\ 10 <= fst Example.hm_he_beg < 30).
Proof.
  split; [vm_compute; reflexivity |].
  apply (add_quiesscent_he_eep_range Example.helpers Example.catalogue
           10 30 (Example.hm_loaded (2 # 100)) (fst Example.hm_he_beg)
           (snd Example.hm_he_beg)).
  vm_compute. reflexivity.
Defined.

(** ** The base of the red giant branch *)

Lemma entry_is_kept ptcri W t t1 e v :
  same_but ptcri W t t1 -> e ∉ W ->
  entry_is ptcri (iptcri t) e v -> entry_is ptcri (iptcri t1) e v.
Proof.
  intros Hsb He (k & Hk & Hv). exists k. split; [exact Hk |].
  now rewrite (same_but_entry _ _ _ _ e k Hsb He Hk).
Qed.

Lemma check_minl_ok i m s c s1 :
  check_minl i m s = Ok (c, s1) -> s1 = s.
Proof. unfold check_minl. intros H. steps. reflexivity. Qed.

Lemma set_rg_base_ok ptcri s r s1 :
  set_rg_base ptcri s = Ok (r, s1) ->
  np.index (sptcri (track s)) 7 = Some r
  /\ entry_is ptcri (iptcri (track s1)) RG_MINL r
  /\ sptcri (track s1) = sptcri (track s).
Proof.
  intros H. pose proof (frame_set_rg_base ptcri _ _ _ H) as [Hsb _].
  unfold set_rg_base in H. steps.
  split; [assumption |].
  split; [eapply add_eep_entry_is; eauto | apply (sb_sptcri _ _ _ _ Hsb)].
Qed.

(** The two tests that follow the retry loops of [add_sg_rg_eeps]. *)
Lemma rg_base_tests ptcri i msto s c1 i1 sa c2 i2 sb :
  check_minl i msto s = Ok (c1, s) ->
  (if c1 then set_rg_base ptcri else ret i) s = Ok (i1, sa) ->
  check_minl i1 msto sa = Ok (c2, sa) ->
  (if negb c2 then set_rg_base ptcri else ret i1) sa = Ok (i2, sb) ->
  exists s7,
    np.index (sptcri (track s)) 7 = Some s7
    /\ entry_is ptcri (iptcri (track sb)) RG_MINL s7.
Proof.
  intros Hc1 H1 Hc2 H2. destruct c1.
  - apply set_rg_base_ok in H1 as (Hs7 & He & Hsp). exists i1.
    split; [exact Hs7 |]. destruct c2; cbn in H2.
    + steps. exact He.
    + apply set_rg_base_ok in H2 as (Hs7' & He' & _).
      rewrite Hsp, Hs7 in Hs7'. injection Hs7' as <-. exact He'.
  - steps. rewrite Hc1 in Hc2. injection Hc2 as <-. cbn in H2.
    apply set_rg_base_ok in H2 as (Hs7 & He & _). eauto.
Qed.

(** X9.  Whatever its searches for the minimum of the luminosity find,
    [add_sg_rg_eeps] leaves RG_MINL at Sandro's RG_BASE, the eighth of
    his indices: of the two tests that follow the searches, one or the
    other stores it. *)
Theorem add_sg_rg_eeps_rg_base cfg ext ptcri s u s1 :
  add_sg_rg_eeps cfg ext ptcri s = Ok (u, s1) ->
  exists s7,
    np.index (sptcri (track s)) 7 = Some s7
    /\ entry_is ptcri (iptcri (track s1)) RG_MINL s7.
Proof.
  unfold add_sg_rg_eeps. intros H. steps.
  match goal with H : entry _ _ _ = Ok _ |- _ =>
    apply (frame_entry ptcri []) in H as [Hf0 _]; apply sb_sptcri in Hf0 end.
  match goal with H : add_rg_minl_eep _ _ _ _ _ _ ?s = Ok (_, ?s') |- _ =>
    apply frame_add_rg_minl in H as [Hf1 _]; apply sb_sptcri in Hf1 end.
  match goal with H : minl_loop1 _ _ _ _ _ _ ?s = Ok (_, ?s') |- _ =>
    apply frame_minl_loop1 in H as [Hf2 _]; apply sb_sptcri in Hf2 end.
  match goal with H : minl_loop2 _ _ _ _ _ _ ?s = Ok (_, ?s') |- _ =>
    apply frame_minl_loop2 in H as [Hf3 _]; apply sb_sptcri in Hf3 end.
  repeat match goal with H : check_minl _ _ ?s = Ok (_, ?s') |- _ =>
    pose proof (check_minl_ok _ _ _ _ _ H); subst s';
    revert H end.
  intros Hc2 Hc1.
  match goal with
  | Hm1 : add_sg_maxl_eep _ _ _ RG_MINL ?sa = Ok (_, ?sb),
    Hlast : (if _ =? -1 then _ else _) ?sc = Ok (_, _) |- _ =>
      assert (Hlate : same_but ptcri [SG_MAXL] (track sa) (track s1))
  end.
  { repeat match goal with
    | H : add_sg_maxl_eep _ _ _ _ _ = Ok _ |- _ =>
        apply frame_add_sg_maxl in H as [H _]
    | H : (if ?c then _ else _) _ = Ok _ |- _ =>
        destruct c; steps
    | H : check_for_monotonic_increase _ = Ok _ |- _ =>
        apply (frame_check ptcri [SG_MAXL]) in H as [H _]
    end; eauto using same_but_trans, same_but_refl. }
  assert (Hnot : RG_MINL ∉ [SG_MAXL])
    by (rewrite list_elem_of_singleton; discriminate).
  match goal with
  | Ha : (if _ then set_rg_base _ else _) _ = Ok _,
    Hb : (if negb _ then set_rg_base _ else _) _ = Ok _ |- _ =>
      destruct (rg_base_tests _ _ _ _ _ _ _ _ _ _ Hc2 Ha Hc1 Hb)
        as (s7 & Hs7 & He)
  end.
  exists s7. split; [congruence |]. eapply entry_is_kept; eauto.
Qed.

Lemma add_sg_rg_eeps_rg_base_im :
  add_sg_rg_eeps Example.thresholds Example.helpers Example.catalogue
    Example.im_loaded = Ok Example.im_sg_rg
  /\ exists s7,
       np.index (sptcri (track Example.im_loaded)) 7 = Some s7
       /\ entry_is Example.catalogue
            (iptcri (track (snd Example.im_sg_rg))) RG_MINL s7.
Proof.
  split; [vm_compute; reflexivity |].
  apply (add_sg_rg_eeps_rg_base Example.thresholds Example.helpers
           Example.catalogue Example.im_loaded tt (snd Example.im_sg_rg)).
  vm_compute. reflexivity.
Defined.

Lemma minl_loop1_exit cfg ext ptcri msto ps : forall i s i' rest s1,
  minl_loop1 cfg ext ptcri msto ps i s = Ok (i', rest, s1) ->
  rest = [] \/ check_minl i' msto s1 = Ok (false, s1).
Proof.
  induction ps as [| p ps IH]; intros i s i' rest s1 H;
    cbn [minl_loop1] in H; steps;
    match goal with H : check_minl _ _ ?s = Ok (?c, ?s') |- _ =>
      pose proof (check_minl_ok _ _ _ _ _ H); subst s'; destruct c
    end; steps; unpair; eauto.
Qed.

(** X10.  The second retry loop of [add_sg_rg_eeps] never retries.  It
    goes on from the counter the first loop ended with ([i == 0] before
    it assigns nothing), so either that counter is 3 and it breaks at
    once, or the first loop ended on a minimum that passes the test,
    which passes again: the loop returns the index it was given and
    leaves the track as it is. *)
Theorem minl_loop2_never_retries cfg ext ptcri msto ps i s i' rest s1 r s2 :
  minl_loop1 cfg ext ptcri msto ps i s = Ok (i', rest, s1) ->
  minl_loop2 cfg ext ptcri msto rest i' s1 = Ok (r, s2) ->
  r = i' /\ s2 = s1.
Proof.
  intros H1 H2. apply minl_loop1_exit in H1 as [-> | Hc].
  - cbn [minl_loop2] in H2. steps.
    match goal with H : check_minl _ _ ?s = Ok (?c, ?s') |- _ =>
      pose proof (check_minl_ok _ _ _ _ _ H); subst s'; destruct c
    end; steps; auto.
  - destruct rest; cbn [minl_loop2] in H2; unfold bind in H2;
      rewrite Hc in H2; steps; auto.
Qed.

Lemma minl_loop2_never_retries_im :
  minl_loop1 Example.thresholds Example.helpers Example.catalogue 0
    ["last"; "first"; "min of min"] (-1) Example.im_loaded
  = Ok Example.im_minl1
  /\ minl_loop2 Example.thresholds Example.helpers Example.catalogue 0
       (snd (fst Example.im_minl1)) (fst (fst Example.im_minl1))
       (snd Example.im_minl1)
     = Ok Example.im_minl2
  /\ fst Example.im_minl2 = fst (fst Example.im_minl1)
  /\ snd Example.im_minl2 = snd Example.im_minl1.
Proof.
  split; [vm_compute; reflexivity |].
  split; [vm_compute; reflexivity |].
  apply (minl_loop2_never_retries Example.thresholds Example.helpers
           Example.catalogue 0 ["last"; "first"; "min of min"] (-1)
           Example.im_loaded (fst (fst Example.im_minl1))
           (snd (fst Example.im_minl1)) (snd Example.im_minl1)
           (fst Example.im_minl2) (snd Example.im_minl2)).
  - vm_compute. reflexivity.
  - vm_compute. reflexivity.
Defined.

(** ** The high-mass branch *)

Lemma linspace_7 a b :
  np.round <$> np.linspace (inject_Z a) (inject_Z b) 7
  = [seventh a b 0; seventh a b 1; seventh a b 2; seventh a b 3;
     seventh a b 4; seventh a b 5; seventh a b 6].
Proof. reflexivity. Qed.

(** Solves [e ∉ W] for a name [e] and a list [W] of names that are all
    given. *)
Ltac not_in :=
  lazymatch goal with
  | |- _ ∉ ycens _ => apply not_ycen; discriminate
  | |- _ ∉ ycens _ ++ _ =>
      rewrite not_elem_of_app; split; [apply not_ycen; discriminate |];
      rewrite ?elem_of_cons, ?elem_of_nil; intuition discriminate
  | |- _ => rewrite ?elem_of_cons, ?elem_of_nil; intuition discriminate
  end.

(** Carries what is known of a table entry over the steps that leave its
    name alone. *)
Ltac carry H :=
  repeat match type of H with
  | entry_is ?p (iptcri (track ?s)) ?e ?v =>
      match goal with
      | Hs : same_but p ?W (track s) (track ?s') |- _ =>
          apply (entry_is_kept p W _ _ e v Hs) in H; [| not_in]
      end
  end.

Lemma high_mass_rest_entries ext ptcri a b c s l s1 :
  high_mass_rest ext ptcri a b c s = Ok (l, s1) ->
  exists he_beg,
    entry_is ptcri (iptcri (track s1)) HE_BEG he_beg
    /\ entry_is ptcri (iptcri (track s1)) TPAGB (len (data (track s)) - 1)
    /\ forall (k : nat) e,
         [SG_MAXL; RG_MINL; RG_BMP1; RG_BMP2; RG_TIP] !! k = Some e ->
         entry_is ptcri (iptcri (track s1)) e
           (seventh c he_beg (Z.of_nat k + 1)).
Proof.
  unfold high_mass_rest. intros H. steps.
  match goal with H : match _ with [] => _ | _ => _ end _ = Ok _ |- _ =>
    rewrite linspace_7 in H; cbv beta iota in H end.
  steps.
  replace (len (col logL (track s))) with (len (data (track s))) in *
    by (unfold col, len; now rewrite length_fmap).
  match goal with
  | H : add_quiesscent_he_eep _ _ (Raw _ _) _ = Ok (?h, _) |- _ =>
      exists h;
      pose proof (frame_add_quiesscent ext ptcri _ _ _ _ H) as [Hq _];
      apply add_quiesscent_he_eep_ok in H as [Hhe _]
  end.
  repeat match goal with
  | H : add_eep ptcri ?e ?v _ ?s = Ok (_, ?s') |- _ =>
      pose proof (add_eep_entry_is _ _ _ _ _ _ _ H);
      apply (frame_add_eep ptcri [e]) in H as [H _]; [| left]
  | H : add_agb_eeps _ _ _ = Ok _ |- _ =>
      apply frame_add_agb_eeps in H as [H _]
  | H : (if ?c then _ else _) ?s = Ok (_, ?s') |- _ =>
      lazymatch s with s' => fail | _ => idtac end;
      destruct c; steps
  | H : check_for_monotonic_increase _ = Ok _ |- _ =>
      apply (frame_check ptcri []) in H as [H _]
  | H : modify _ _ = Ok _ |- _ =>
      apply (frame_flag ptcri []) in H as [H _]
  end.
  all: repeat match goal with
       | H : entry_is _ _ _ _ |- _ => progress carry H
       end.
  all: split; [assumption |]; split; [assumption |].
  all: intros [| [| [| [| [| k]]]]] e Hk; try discriminate Hk;
    injection Hk as <-; assumption.
Qed.

(** X11.  On a high-mass track the five EEPs from SG_MAXL to RG_TIP
    mark no feature of the track: [add_high_mass_eeps] leaves them at the
    rounded inner points of a seven-point [linspace] from MS_TO to
    HE_BEG, and TPAGB at the last sample of the track. *)
Theorem add_high_mass_eeps_spacing ext ptcri s l s1 :
  add_high_mass_eeps ext ptcri s = Ok (l, s1) ->
  exists ms_to he_beg,
    entry_is ptcri (iptcri (track s1)) MS_TO ms_to
    /\ entry_is ptcri (iptcri (track s1)) HE_BEG he_beg
    /\ entry_is ptcri (iptcri (track s1)) TPAGB (len (data (track s)) - 1)
    /\ forall (k : nat) e,
         [SG_MAXL; RG_MINL; RG_BMP1; RG_BMP2; RG_TIP] !! k = Some e ->
         entry_is ptcri (iptcri (track s1)) e
           (seventh ms_to he_beg (Z.of_nat k + 1)).
Proof.
  unfold add_high_mass_eeps. intros H. steps.
  match goal with H : high_mass_ms_to _ _ = Ok (?i, ?sa) |- _ =>
    exists i;
    pose proof (frame_high_mass_ms_to ptcri _ _ _ H) as [Hf1 _];
    apply high_mass_ms_to_ok in H as (_ & k & Hk & Hent);
    assert (Hto : entry_is ptcri (iptcri (track sa)) MS_TO i)
      by (exists k; auto)
  end.
  match goal with H : high_mass_ms _ _ _ _ = Ok _ |- _ =>
    apply frame_high_mass_ms in H as [Hf2 _] end.
  match goal with H : high_mass_rest _ _ _ _ _ _ = Ok _ |- _ =>
    pose proof (frame_high_mass_rest ext ptcri _ _ _ _ _ _ H) as [Hf3 _];
    apply high_mass_rest_entries in H as (he_beg & Hhe & Htp & Hfive) end.
  exists he_beg. carry Hto.
  rewrite (sb_data _ _ _ _ Hf2), (sb_data _ _ _ _ Hf1) in Htp.
  auto.
Qed.

Lemma add_high_mass_eeps_spacing_hm :
  add_high_mass_eeps Example.helpers Example.catalogue
    (Example.hm_loaded (2 # 100)) = Ok (Example.hm_high (2 # 100))
  /\ exists ms_to he_beg,
       entry_is Example.catalogue
         (iptcri (track (snd (Example.hm_high (2 # 100))))) MS_TO ms_to
       /\ entry_is Example.catalogue
            (iptcri (track (snd (Example.hm_high (2 # 100))))) HE_BEG he_beg
       /\ entry_is Example.catalogue
            (iptcri (track (snd (Example.hm_high (2 # 100))))) TPAGB
            (len (data (track (Example.hm_loaded (2 # 100)))) - 1)
       /\ forall (k : nat) e,
            [SG_MAXL; RG_MINL; RG_BMP1; RG_BMP2; RG_TIP] !! k = Some e ->
            entry_is Example.catalogue
              (iptcri (track (snd (Example.hm_high (2 # 100))))) e
              (seventh ms_to he_beg (Z.of_nat k + 1)).
Proof.
  split; [vm_compute; reflexivity |].
  apply (add_high_mass_eeps_spacing Example.helpers Example.catalogue
           (Example.hm_loaded (2 # 100)) (fst (Example.hm_high (2 # 100)))
           (snd (Example.hm_high (2 # 100)))).
  vm_compute. reflexivity.
Defined.

(** ** EEPs set by age *)

Lemma entry_ok ptcri e s v s1 :
  entry ptcri e s = Ok (v, s1) ->
  s1 = s /\ entry_is ptcri (iptcri (track s)) e v.
Proof.
  unfold entry, get_ptcri_name. intros H. steps.
  split; [reflexivity |]. eexists. eauto.
Qed.

(** X12.  On a track heavier than [inte_mass], [add_sg_maxl_eep] searches
    for nothing: SG_MAXL is the first sample nearest in age to the mean
    of the ages at MS_TO and at RG_MINL. *)
Theorem add_sg_maxl_eep_mean_age cfg ext ptcri eep2 s i s1 :
  add_sg_maxl_eep cfg ext ptcri eep2 s = Ok (i, s1) ->
  (inte_mass cfg < mass (track s))%Q ->
  searches s1 = searches s
  /\ entry_is ptcri (iptcri (track s1)) SG_MAXL i
  /\ exists msto rg a1 a2,
       entry_is ptcri (iptcri (track s)) MS_TO msto
       /\ entry_is ptcri (iptcri (track s)) RG_MINL rg
       /\ np.index (col age (track s)) msto = Some a1
       /\ np.index (col age (track s)) rg = Some a2
       /\ nearest (col age (track s)) ((a1 + a2) / 2) i.
Proof.
  unfold add_sg_maxl_eep. intros H Hm. apply Qltb_lt in Hm. steps.
  rewrite Hm in *. steps.
  repeat match goal with H : entry _ _ _ = Ok _ |- _ =>
    apply entry_ok in H as [-> ?] end.
  match goal with H : np.argmin _ = Some _ |- _ =>
    apply argmin_nearest in H end.
  match goal with H : add_eep _ _ _ _ _ = Ok _ |- _ =>
    pose proof (quiet_add_eep _ _ _ _ _ _ _ H);
    apply add_eep_entry_is in H end.
  eauto 12.
Qed.

Lemma same_but_col ptcri W t t1 c :
  same_but ptcri W t t1 -> col c t1 = col c t.
Proof. intros Hsb. unfold col. now rewrite (sb_data _ _ _ _ Hsb). Qed.

Section HighMassMs.

Variable ext : collaborators.
Variable ptcri : critical_point.

Lemma add_mstmin_ok a b m s r s1 :
  add_mstmin ext ptcri a b m s = Ok (r, s1) ->
  entry_is ptcri (iptcri (track s1)) MS_TMIN r
  /\ same_but ptcri [MS_TMIN] (track s) (track s1)
  /\ exists c, searches s1 = searches s ++ [c]
               /\ tmin_search c = true /\ pf_result c = r.
Proof.
  intros H. pose proof (frame_add_mstmin ext ptcri _ _ _ _ _ _ H) as [Hsb _].
  unfold add_mstmin in H. steps.
  match goal with H : peak_finder _ _ _ _ _ _ _ = _ |- _ =>
    apply peak_finder_logs in H as [_ H] end.
  match goal with H : add_eep _ _ _ _ _ = _ |- _ =>
    pose proof (quiet_add_eep _ _ _ _ _ _ _ H);
    apply add_eep_entry_is in H end.
  split; [assumption |]. split; [exact Hsb |].
  eexists. split; [etransitivity; eassumption |]. split; reflexivity.
Qed.

Lemma add_msbeg_ok a b s r s1 :
  add_msbeg ext ptcri a b s = Ok (r, s1) ->
  entry_is ptcri (iptcri (track s1)) MS_BEG r
  /\ same_but ptcri [PMS_END; MS_BEG] (track s) (track s1)
  /\ exists new, searches s1 = searches s ++ new.
Proof.
  intros H. pose proof (frame_add_msbeg ext ptcri _ _ _ _ _ H) as [Hsb _].
  destruct (add_msbeg_logs ext ptcri _ _ _ _ _ H) as (new & Hnew & _).
  unfold add_msbeg in H. steps. unpair.
  split; [eapply add_eep_entry_is; eauto |]. eauto.
Qed.

End HighMassMs.

(** X13.  On a high-mass track MS_TMIN never keeps the sentinel -1.
    Among the searches [add_high_mass_eeps] makes for MS_BEG and
    MS_TMIN there is one for the minimum of the temperature; MS_TMIN is
    what that search returned, unless it returned -1: then MS_TMIN is
    the first sample nearest in age to halfway between the ages at MS_TO
    and at MS_BEG. *)
Theorem high_mass_ms_tmin ext ptcri ms_to s ms_beg ms_tmin s1 :
  high_mass_ms ext ptcri ms_to s = Ok (ms_beg, ms_tmin, s1) ->
  ms_tmin <> -1
  /\ entry_is ptcri (iptcri (track s1)) MS_BEG ms_beg
  /\ entry_is ptcri (iptcri (track s1)) MS_TMIN ms_tmin
  /\ exists pre c post,
       searches s1 = searches s ++ pre ++ c :: post
       /\ tmin_search c = true
       /\ (ms_tmin = pf_result c
           \/ pf_result c = -1
              /\ exists a1 a2,
                   np.index (col age (track s)) ms_to = Some a1
                   /\ np.index (col age (track s)) ms_beg = Some a2
                   /\ nearest (col age (track s)) ((a1 + a2) / 2) ms_tmin).
Proof.
  unfold high_mass_ms. intros H. steps. unpair.
  match goal with
  | H : (if np.Qltb _ _ then _ else _) s = Ok (?b, ?t, ?sa) |- _ =>
      assert (Hms : entry_is ptcri (iptcri (track sa)) MS_BEG b
                /\ entry_is ptcri (iptcri (track sa)) MS_TMIN t
                /\ col age (track sa) = col age (track s)
                /\ exists pre c post,
                     searches sa = searches s ++ pre ++ c :: post
                     /\ tmin_search c = true /\ pf_result c = t);
      [destruct (np.Qltb _ _); steps; unpair |]
  end.
  - match goal with H : add_mstmin _ _ _ _ _ _ = Ok _ |- _ =>
      apply add_mstmin_ok in H as (Ht & Hf1 & c & Hc & Hct & Hcr) end.
    match goal with H : add_msbeg _ _ _ _ _ = Ok _ |- _ =>
      apply add_msbeg_ok in H as (Hb & Hf2 & new & Hnew) end.
    carry Ht. split; [assumption |]. split; [assumption |]. split.
    + now rewrite (same_but_col _ _ _ _ age Hf2),
        (same_but_col _ _ _ _ age Hf1).
    + exists [], c, new. rewrite Hnew, Hc, <- app_assoc. auto.
  - match goal with H : add_msbeg _ _ _ _ _ = Ok _ |- _ =>
      apply add_msbeg_ok in H as (Hb & Hf1 & new & Hnew) end.
    match goal with H : add_mstmin _ _ _ _ _ _ = Ok _ |- _ =>
      apply add_mstmin_ok in H as (Ht & Hf2 & c & Hc & Hct & Hcr) end.
    carry Hb. split; [assumption |]. split; [assumption |]. split.
    + now rewrite (same_but_col _ _ _ _ age Hf2),
        (same_but_col _ _ _ _ age Hf1).
    + exists new, c, []. rewrite Hc, Hnew, <- app_assoc. auto.
  - destruct Hms as (Hb & Ht & Hage & pre & c & post & Hlog & Hct & Hcr).
    match goal with H : (if ?t =? -1 then _ else _) _ = Ok _ |- _ =>
      destruct (Z.eqb_spec t (-1)) as [-> | Hne]; steps end.
    + match goal with H : add_eep _ _ _ _ _ = Ok _ |- _ =>
        pose proof (quiet_add_eep _ _ _ _ _ _ _ H) as Hq;
        pose proof (add_eep_entry_is _ _ _ _ _ _ _ H) as Hnew;
        apply (frame_add_eep ptcri [MS_TMIN]) in H as [Hf _]; [| left] end.
      carry Hb.
      match goal with H : np.argmin _ = Some _ |- _ =>
        apply argmin_nearest in H end.
      rewrite Hage in *.
      split; [lia |]. split; [assumption |]. split; [assumption |].
      exists pre, c, post. rewrite Hq. split; [assumption |].
      split; [assumption |]. right. eauto 8.
    + split; [assumption |]. split; [assumption |]. split; [assumption |].
      exists pre, c, post. auto.
Qed.

Lemma add_sg_maxl_eep_mean_age_hm :
  add_sg_maxl_eep Example.thresholds Example.helpers Example.catalogue
    RG_MINL (snd (Example.hm_run (2 # 100))) = Ok Example.hm_sg_maxl
  /\ searches (snd Example.hm_sg_maxl)
     = searches (snd (Example.hm_run (2 # 100)))
  /\ entry_is Example.catalogue (iptcri (track (snd Example.hm_sg_maxl)))
       SG_MAXL (fst Example.hm_sg_maxl)
  /\ exists msto rg a1 a2,
       entry_is Example.catalogue
         (iptcri (track (snd (Example.hm_run (2 # 100))))) MS_TO msto
       /\ entry_is Example.catalogue
            (iptcri (track (snd (Example.hm_run (2 # 100))))) RG_MINL rg
       /\ np.index (col age (track (snd (Example.hm_run (2 # 100))))) msto
          = Some a1
       /\ np.index (col age (track (snd (Example.hm_run (2 # 100))))) rg
          = Some a2
       /\ nearest (col age (track (snd (Example.hm_run (2 # 100)))))
            ((a1 + a2) / 2) (fst Example.hm_sg_maxl).
Proof.
  split; [vm_compute; reflexivity |].
  apply (add_sg_maxl_eep_mean_age Example.thresholds Example.helpers
           Example.catalogue RG_MINL (snd (Example.hm_run (2 # 100)))
           (fst Example.hm_sg_maxl) (snd Example.hm_sg_maxl)).
  - vm_compute. reflexivity.
  - vm_compute. reflexivity.
Defined.

Lemma high_mass_ms_tmin_hm :
  high_mass_ms Example.helpers Example.catalogue 13
    (Example.hm_loaded (2 # 100)) = Ok Example.hm_ms
  /\ snd (fst Example.hm_ms) <> -1
  /\ entry_is Example.catalogue (iptcri (track (snd Example.hm_ms)))
       MS_BEG (fst (fst Example.hm_ms))
  /\ entry_is Example.catalogue (iptcri (track (snd Example.hm_ms)))
       MS_TMIN (snd (fst Example.hm_ms))
  /\ exists pre c post,
       searches (snd Example.hm_ms)
       = searches (Example.hm_loaded (2 # 100)) ++ pre ++ c :: post
       /\ tmin_search c = true
       /\ (snd (fst Example.hm_ms) = pf_result c
           \/ pf_result c = -1
              /\ exists a1 a2,
                   np.index (col age (track (Example.hm_loaded (2 # 100))))
                     13 = Some a1
                   /\ np.index
                        (col age (track (Example.hm_loaded (2 # 100))))
                        (fst (fst Example.hm_ms)) = Some a2
                   /\ nearest
                        (col age (track (Example.hm_loaded (2 # 100))))
                        ((a1 + a2) / 2) (snd (fst Example.hm_ms))).
Proof.
  split; [vm_compute; reflexivity |].
  apply (high_mass_ms_tmin Example.helpers Example.catalogue 13
           (Example.hm_loaded (2 # 100)) (fst (fst Example.hm_ms))
           (snd (fst Example.hm_ms)) (snd Example.hm_ms)).
  vm_compute. reflexivity.
Defined.

(** ** Properties kept by every update *)

Section KeepRules.

Variable ptcri : critical_point.
Variable P : Track -> Prop.
Hypothesis HP : kept_by_updates ptcri P.

Lemma keeps_ret {A} (a : A) : keeps P (ret a).
Proof. intros s b s1 H. now step. Qed.

Lemma keeps_raise {A} e : keeps P (@raise A e).
Proof. intros s b s1 H. discriminate. Qed.

Lemma keeps_bind {A B} (m : M A) (k : A -> M B) :
  keeps P m -> (forall a, keeps P (k a)) -> keeps P (bind m k).
Proof.
  intros Hm Hk s b s2 H HPs. step.
  match goal with
  | H1 : m _ = _, H2 : k _ _ = _ |- _ =>
      exact (Hk _ _ _ _ H2 (Hm _ _ _ H1 HPs))
  end.
Qed.

Lemma keeps_lift {A} (r : result A) : keeps P (lift r).
Proof. intros s b s1 H. now step. Qed.

Lemma keeps_gets {A} (f : Track -> A) : keeps P (gets f).
Proof. intros s b s1 H. now step. Qed.

Lemma keeps_log c : keeps P (log_search c).
Proof.
  intros s b s1 H. unfold log_search in H. now injection H as _ <-.
Qed.

Lemma keeps_flag f : keeps P (modify (fun t => with_flag t f)).
Proof.
  intros s b s1 H HPs. apply modify_ok in H as (-> & _).
  now apply kept_flag with ptcri.
Qed.

Lemma keeps_info f : keeps P (modify (fun t => with_info t (f t))).
Proof.
  intros s b s1 H HPs. apply modify_ok in H as (-> & _).
  now apply kept_info with ptcri.
Qed.

Lemma keeps_add_eep e ind m : keeps P (add_eep ptcri e ind m).
Proof.
  intros s b s1 H HPs. apply add_eep_ok in H as (k & Hk & Hlen & -> & _).
  now apply (kept_write ptcri P HP).
Qed.

Lemma keeps_for_each {A} (f : A -> M unit) l :
  (forall x, keeps P (f x)) -> keeps P (for_each f l).
Proof.
  intros Hf. induction l; cbn; [apply keeps_ret |].
  apply keeps_bind; auto.
Qed.

End KeepRules.

Create HintDb keeping discriminated.

Ltac keep_step :=
  lazymatch goal with
  | |- keeps _ (bind _ _) => apply keeps_bind; [| intros]
  | |- keeps _ (ret _) => apply keeps_ret
  | |- keeps _ (raise _) => apply keeps_raise
  | |- keeps _ (lift _) => apply keeps_lift
  | |- keeps _ (gets _) => apply keeps_gets
  | |- keeps _ (at_ _ _) => apply keeps_lift
  | |- keeps _ (at_nat _ _) => apply keeps_lift
  | |- keeps _ (takes _ _) => apply keeps_lift
  | |- keeps _ (argmin_ _) => apply keeps_lift
  | |- keeps _ (argmax_ _) => apply keeps_lift
  | |- keeps _ (log_search _) => apply keeps_log
  | |- keeps _ (modify (fun t => with_flag t _)) =>
      eapply keeps_flag; eassumption
  | |- keeps _ (add_eep _ _ _ _) => eapply keeps_add_eep; eassumption
  | |- keeps _ (for_each _ _) => apply keeps_for_each; intros
  | |- keeps _ (if ?c then _ else _) => destruct c
  | |- keeps _ (match ?x with _ => _ end) => destruct x
  end.

Ltac keep_go := repeat first [keep_step | solve [auto with keeping]].

Section Keeps.

Variable cfg : config.
Variable ext : collaborators.
Variable ptcri : critical_point.
Variable P : Track -> Prop.
Hypothesis HP : kept_by_updates ptcri P.

Lemma keeps_raw_index p sd : keeps P (raw_index ptcri p sd).
Proof. unfold raw_index. keep_go. Qed.

Lemma keeps_entry e : keeps P (entry ptcri e).
Proof. unfold entry, get_ptcri_name. keep_go. Qed.

Lemma keeps_attr e : keeps P (attr e).
Proof. unfold attr. keep_go. Qed.

Lemma keeps_get_ptcri_name e sd : keeps P (get_ptcri_name ptcri e sd).
Proof. unfold get_ptcri_name. keep_go. Qed.

Hint Resolve keeps_raw_index keeps_entry keeps_attr keeps_get_ptcri_name
  : keeping.

Lemma keeps_peak_finder c e1 e2 k : keeps P (peak_finder ext ptcri c e1 e2 k).
Proof. unfold peak_finder. keep_go. Qed.

Lemma keeps_inds_between n1 n2 sd :
  keeps P (inds_between_ptcris ext ptcri n1 n2 sd).
Proof. unfold inds_between_ptcris. keep_go. Qed.

Lemma keeps_second_derivative x inds gt :
  keeps P (second_derivative ext x inds gt).
Proof. unfold second_derivative. keep_go. Qed.

Lemma keeps_check : keeps P check_for_monotonic_increase.
Proof. unfold check_for_monotonic_increase. keep_go. Qed.

Lemma keeps_thirds : keeps P thirds.
Proof. unfold thirds. keep_go. Qed.

Lemma keeps_delta_te b a : keeps P (delta_te_eeps b a).
Proof. unfold delta_te_eeps. keep_go. Qed.

Lemma keeps_check_minl i m : keeps P (check_minl i m).
Proof. unfold check_minl. keep_go. Qed.

Hint Resolve keeps_peak_finder keeps_inds_between keeps_second_derivative
  keeps_check keeps_thirds keeps_delta_te keeps_check_minl : keeping.

Lemma keeps_cen_loop tol cens : forall inds,
  keeps P (cen_loop ptcri tol cens inds).
Proof. induction cens; intros; cbn [cen_loop]; keep_go. Qed.

Hint Resolve keeps_cen_loop : keeping.

Lemma keeps_add_cen_eeps hb_ tol istart :
  keeps P (add_cen_eeps ptcri hb_ tol istart).
Proof. unfold add_cen_eeps. keep_go. Qed.

Lemma keeps_add_eep_with_age e a : keeps P (add_eep_with_age ptcri e a).
Proof. unfold add_eep_with_age. keep_go. Qed.

Lemma keeps_add_ms_beg_eep x : keeps P (add_ms_beg_eep ptcri x).
Proof. unfold add_ms_beg_eep. keep_go. Qed.

Lemma keeps_check_pms_beg : keeps P (check_pms_beg ptcri).
Proof. unfold check_pms_beg. keep_go. Qed.

Lemma keeps_add_hb_beg : keeps P (add_hb_beg ptcri).
Proof. unfold add_hb_beg. keep_go. Qed.

Lemma keeps_add_tpagb_eeps : keeps P (add_tpagb_eeps ptcri).
Proof. unfold add_tpagb_eeps. keep_go. Qed.

Lemma keeps_add_quiesscent r : keeps P (add_quiesscent_he_eep ext ptcri r).
Proof. unfold add_quiesscent_he_eep. keep_go. Qed.

Lemma keeps_tp_loop in_tp second ex_inds diff_L i :
  (forall k, keeps P (in_tp k)) ->
  forall mins ly1 ly2 m1 m2,
    keeps P (tp_loop in_tp second ex_inds diff_L i mins ly1 ly2 m1 m2).
Proof.
  intros Hin. induction i; intros; cbn [tp_loop]; keep_go; auto.
Qed.

Lemma keeps_add_agb_eeps : keeps P (add_agb_eeps ext ptcri).
Proof.
  unfold add_agb_eeps. keep_go; apply keeps_tp_loop; intros; keep_go.
Qed.

Hint Resolve keeps_add_cen_eeps keeps_add_eep_with_age keeps_add_ms_beg_eep
  keeps_check_pms_beg keeps_add_hb_beg keeps_add_tpagb_eeps
  keeps_add_quiesscent keeps_add_agb_eeps : keeping.

Lemma keeps_add_ms_eeps : keeps P (add_ms_eeps cfg ext ptcri).
Proof. unfold add_ms_eeps, ms_to_search. keep_go. Qed.

Lemma keeps_add_rg_minl e1 e2 p :
  keeps P (add_rg_minl_eep cfg ext ptcri e1 e2 p).
Proof. unfold add_rg_minl_eep. keep_go. Qed.

Lemma keeps_add_sg_maxl e2 : keeps P (add_sg_maxl_eep cfg ext ptcri e2).
Proof. unfold add_sg_maxl_eep. keep_go. Qed.

Hint Resolve keeps_add_ms_eeps keeps_add_rg_minl keeps_add_sg_maxl : keeping.

Lemma keeps_minl_loop1 msto ps : forall i,
  keeps P (minl_loop1 cfg ext ptcri msto ps i).
Proof. induction ps; intros; cbn [minl_loop1]; keep_go. Qed.

Lemma keeps_minl_loop2 msto ps : forall i,
  keeps P (minl_loop2 cfg ext ptcri msto ps i).
Proof. induction ps; intros; cbn [minl_loop2]; keep_go. Qed.

Lemma keeps_set_rg_base : keeps P (set_rg_base ptcri).
Proof. unfold set_rg_base. keep_go. Qed.

Hint Resolve keeps_minl_loop1 keeps_minl_loop2 keeps_set_rg_base : keeping.

Lemma keeps_add_sg_rg_eeps : keeps P (add_sg_rg_eeps cfg ext ptcri).
Proof. unfold add_sg_rg_eeps. keep_go. Qed.

Lemma keeps_add_msbeg a b : keeps P (add_msbeg ext ptcri a b).
Proof. unfold add_msbeg. keep_go. Qed.

Lemma keeps_add_mstmin a b m : keeps P (add_mstmin ext ptcri a b m).
Proof. unfold add_mstmin. keep_go. Qed.

Hint Resolve keeps_add_sg_rg_eeps keeps_add_msbeg keeps_add_mstmin : keeping.

Lemma keeps_add_high_mass_eeps : keeps P (add_high_mass_eeps ext ptcri).
Proof.
  unfold add_high_mass_eeps, high_mass_ms_to, high_mass_ms, high_mass_rest.
  keep_go.
Qed.

Lemma keeps_hb_eeps : keeps P (hb_eeps ext ptcri).
Proof. unfold hb_eeps. keep_go. Qed.

Lemma keeps_ms_beg_warning : keeps P (ms_beg_warning cfg ptcri).
Proof.
  unfold ms_beg_warning. keep_go;
    try (apply (keeps_info ptcri P HP (fun t => _ :: info t))).
Qed.

Lemma keeps_low_mass_eeps : keeps P (low_mass_eeps cfg ptcri).
Proof. unfold low_mass_eeps. keep_go. Qed.

Lemma keeps_intermediate_eeps n :
  keeps P (intermediate_eeps cfg ext ptcri n).
Proof. unfold intermediate_eeps. keep_go. Qed.

Hint Resolve keeps_add_high_mass_eeps keeps_hb_eeps keeps_ms_beg_warning
  keeps_low_mass_eeps keeps_intermediate_eeps : keeping.

Lemma keeps_dispatch hb_ n : keeps P (dispatch cfg ext ptcri hb_ n).
Proof. unfold dispatch. keep_go. Qed.

Lemma keeps_define_eep_stages hb_ :
  keeps P (define_eep_stages cfg ext ptcri hb_).
Proof.
  unfold define_eep_stages. keep_go; [| apply keeps_dispatch].
  apply (keeps_info ptcri P HP (fun _ => [])).
Qed.

End Keeps.

Lemma agrees_kept ptcri e : kept_by_updates ptcri (fun t => agrees ptcri t e).
Proof.
  split.
  - intros t f H. exact H.
  - intros t i H. exact H.
  - intros t k ind e' m Hk Hlen (v & (k' & Hk' & Hv) & Ha).
    destruct (decide (e' = e)) as [-> | Hne].
    + exists ind. split.
      * exists k. split; [exact Hk |]. cbn. apply list_lookup_insert_eq. lia.
      * cbn [attrs with_iptcri]. apply assoc_cons_eq.
    + exists v. split.
      * exists k'. split; [exact Hk' |]. cbn.
        rewrite list_lookup_insert_ne; [exact Hv |].
        intros <-. apply Hne. eapply index_of_inj; eauto.
      * cbn [attrs with_iptcri]. rewrite assoc_cons_ne; auto.
Qed.

Lemma add_eep_agrees ptcri e ind m s u s1 :
  add_eep ptcri e ind m s = Ok (u, s1) -> agrees ptcri (track s1) e.
Proof.
  intros H. exists ind. split; [eapply add_eep_entry_is; eauto |].
  apply add_eep_ok in H as (k & Hk & Hlen & -> & _).
  cbn [attrs with_iptcri]. apply assoc_cons_eq.
Qed.

Lemma reset_agrees ptcri v m l : forall s u s1,
  for_each (fun cp => add_eep ptcri cp v m) l s = Ok (u, s1) ->
  forall e, e ∈ l \/ agrees ptcri (track s) e -> agrees ptcri (track s1) e.
Proof.
  induction l as [| x l IH]; intros s u s1 H e He; cbn [for_each] in H;
    steps.
  - destruct He as [He | He]; [now apply elem_of_nil in He | exact He].
  - eapply IH; [eassumption |].
    destruct He as [[-> | He]%elem_of_cons | He]; auto; right.
    + eapply add_eep_agrees; eauto.
    + eapply (keeps_add_eep ptcri _ (agrees_kept ptcri e)); eauto.
Qed.

(** X14.  [define_eep_stages] keeps the table and the attributes in
    step.  When it returns, every name of [please_define] has an entry in
    the table and the attribute [track.i<name>] holds the same index; and
    a name whose attribute agreed with its entry before the run has them
    agree after it. *)
Theorem define_eep_stages_attributes cfg ext ptcri hb_ s u s1 :
  define_eep_stages cfg ext ptcri hb_ s = Ok (u, s1) ->
  forall e, e ∈ please_define ptcri \/ agrees ptcri (track s) e ->
    agrees ptcri (track s1) e.
Proof.
  intros H e He.
  unfold define_eep_stages in H. steps.
  match goal with H : modify _ _ = Ok _ |- _ =>
    apply modify_ok in H as (Ht & _) end.
  match goal with H : for_each _ _ _ = Ok _ |- _ =>
    apply reset_agrees with (e := e) in H;
      [| rewrite Ht; exact He] end.
  match goal with H : agrees ptcri (track _) e |- _ => rename H into Ha end.
  match goal with
  | H : (if ?c then _ else _) _ = Ok _ |- _ =>
      destruct c; steps;
      [apply (keeps_add_tpagb_eeps ptcri _ (agrees_kept ptcri e) _ _ _ H)
         in Ha |]
  end.
  all: match goal with H : dispatch _ _ _ _ _ _ = Ok _ |- _ =>
         exact (keeps_dispatch cfg ext ptcri _ (agrees_kept ptcri e)
                  _ _ _ _ _ H Ha)
       end.
Qed.

Lemma define_eep_stages_attributes_hm :
  define_eep_stages Example.thresholds Example.helpers Example.catalogue
    false (Example.hm_loaded (2 # 100)) = Ok (Example.hm_run (2 # 100))
  /\ forall e,
       e ∈ please_define Example.catalogue
       \/ agrees Example.catalogue (track (Example.hm_loaded (2 # 100))) e ->
       agrees Example.catalogue (track (snd (Example.hm_run (2 # 100)))) e.
Proof.
  split; [vm_compute; reflexivity |].
  apply (define_eep_stages_attributes Example.thresholds Example.helpers
           Example.catalogue false (Example.hm_loaded (2 # 100)) tt
           (snd (Example.hm_run (2 # 100)))).
  vm_compute. reflexivity.
Defined.

(** ** The helium EEPs of a short intermediate-mass track *)

(** Resetting a list of names leaves each of them at the value written,
    and keeps that value where it stood already. *)
Lemma reset_keeps ptcri v m e l : forall s u s1,
  for_each (fun cp => add_eep ptcri cp v m) l s = Ok (u, s1) ->
  entry_is ptcri (iptcri (track s)) e v ->
  entry_is ptcri (iptcri (track s1)) e v.
Proof.
  induction l as [| x l IH]; intros s u s1 H He; cbn [for_each] in H; steps.
  - exact He.
  - eapply IH; [eassumption |].
    destruct (decide (x = e)) as [-> | Hne].
    + eapply add_eep_entry_is; eauto.
    + match goal with H : add_eep _ _ _ _ _ = Ok _ |- _ =>
        apply (frame_add_eep ptcri [x]) in H as [H _]; [| left] end.
      eapply entry_is_kept; [eassumption | | exact He].
      rewrite list_elem_of_singleton. congruence.
Qed.

Lemma reset_entries ptcri v m l : forall s u s1,
  for_each (fun cp => add_eep ptcri cp v m) l s = Ok (u, s1) ->
  forall e, e ∈ l -> entry_is ptcri (iptcri (track s1)) e v.
Proof.
  induction l as [| x l IH]; intros s u s1 H e He; cbn [for_each] in H;
    steps.
  - now apply elem_of_nil in He.
  - apply elem_of_cons in He as [-> | He]; [| eauto].
    eapply reset_keeps; [eassumption |]. eapply add_eep_entry_is; eauto.
Qed.

Lemma intermediate_eeps_zeroed cfg ext ptcri n s u s1 :
  intermediate_eeps cfg ext ptcri n s = Ok (u, s1) ->
  (n <= 10)%nat ->
  forall e, e ∈ drop 5 (please_define ptcri) ->
    e ∉ [SG_MAXL; RG_MINL; AGB_LY1; AGB_LY2] ->
    entry_is ptcri (iptcri (track s1)) e 0.
Proof.
  unfold intermediate_eeps. intros H Hn e He Hnot. steps.
  match goal with
  | H : (if _ || bool_decide (n <= 10)%nat then _ else _) _ = Ok _ |- _ =>
      rewrite (bool_decide_eq_true_2 _ Hn), orb_true_r in H;
      apply reset_entries with (e := e) in H; [rename H into Hz | exact He]
  end.
  match goal with H : add_sg_rg_eeps _ _ _ _ = Ok _ |- _ =>
    apply frame_add_sg_rg_eeps in H as [Hf1 _] end.
  match goal with H : add_agb_eeps _ _ _ = Ok _ |- _ =>
    apply frame_add_agb_eeps in H as [Hf2 _] end.
  rewrite !not_elem_of_cons in Hnot. destruct Hnot as (? & ? & ? & ? & _).
  eapply entry_is_kept; [exact Hf2 | not_in |].
  eapply entry_is_kept; [exact Hf1 | not_in | exact Hz].
Qed.

(** X15.  On a track below [high_mass] that is not a horizontal-branch
    track and has more than six of Sandro's indices, ten of them at most
    other than 0, [define_eep_stages] defines no helium-burning EEP: the
    names of [please_define] from the sixth on are left at 0, but for
    SG_MAXL, RG_MINL, AGB_LY1 and AGB_LY2, which are set afterwards. *)
Theorem define_eep_stages_no_he cfg ext ptcri s u s1 :
  define_eep_stages cfg ext ptcri false s = Ok (u, s1) ->
  Qle_bool (high_mass cfg) (mass (track s)) = false ->
  6 < len (sptcri (track s)) ->
  (nsandro_pts (track s) <= 10)%nat ->
  forall e, e ∈ drop 5 (please_define ptcri) ->
    e ∉ [SG_MAXL; RG_MINL; AGB_LY1; AGB_LY2] ->
    entry_is ptcri (iptcri (track s1)) e 0.
Proof.
  unfold define_eep_stages, dispatch, nsandro_pts.
  intros H Hmass Hsp Hn e He Hnot. steps.
  match goal with H : modify _ ?s = Ok (_, ?s') |- _ =>
    apply (frame_info ptcri [] (fun _ => [])) in H as [Hf1 _] end.
  match goal with H : for_each _ _ ?s = Ok (_, ?s') |- _ =>
    apply (frame_reset ptcri (please_define ptcri)) in H as [Hf2 _];
      [| reflexivity] end.
  match goal with H : (if agb ?t then _ else _) ?s = Ok (_, ?s') |- _ =>
    assert (Hf3 : same_but ptcri [TPAGB; TPAGB_n 1; TPAGB_n 2]
                    (track s) (track s'))
      by (destruct (agb t);
          [apply (frame_add_tpagb_eeps ptcri _ _ _ H)
          | apply ret_ok in H as [_ ->]; apply same_but_refl]);
    clear H end.
  match goal with H : check_pms_beg _ ?s = Ok (_, ?s') |- _ =>
    apply frame_check_pms_beg in H as [Hf4 _] end.
  match goal with H : ms_beg_warning _ _ ?s = Ok (_, ?s') |- _ =>
    apply frame_ms_beg_warning in H as [Hf5 _] end.
  rewrite (sb_mass _ _ _ _ Hf5), (sb_mass _ _ _ _ Hf4),
    (sb_mass _ _ _ _ Hf3), (sb_mass _ _ _ _ Hf2), (sb_mass _ _ _ _ Hf1),
    Hmass in *.
  rewrite (sb_sptcri _ _ _ _ Hf5), (sb_sptcri _ _ _ _ Hf4),
    (sb_sptcri _ _ _ _ Hf3) in *.
  rewrite (sb_sptcri _ _ _ _ Hf2), (sb_sptcri _ _ _ _ Hf1) in *.
  destruct (Z.leb_spec (len (sptcri (track s))) 6); [lia |]. steps.
  match goal with H : intermediate_eeps _ _ _ _ _ = Ok _ |- _ =>
    apply intermediate_eeps_zeroed with (e := e) in H; auto end.
  match goal with H : check_for_monotonic_increase _ = Ok _ |- _ =>
    apply (frame_check ptcri []) in H as [Hf6 _] end.
  eapply entry_is_kept; [exact Hf6 | apply not_elem_of_nil | assumption].
Qed.

Lemma define_eep_stages_no_he_im :
  define_eep_stages Example.thresholds Example.helpers Example.catalogue
    false Example.im_few = Ok Example.im_few_run
  /\ forall e, e ∈ drop 5 (please_define Example.catalogue) ->
       e ∉ [SG_MAXL; RG_MINL; AGB_LY1; AGB_LY2] ->
       entry_is Example.catalogue
         (iptcri (track (snd Example.im_few_run))) e 0.
Proof.
  split; [vm_compute; reflexivity |].
  apply (define_eep_stages_no_he Example.thresholds Example.helpers
           Example.catalogue Example.im_few tt (snd Example.im_few_run)).
  - vm_compute. reflexivity.
  - vm_compute. reflexivity.
  - vm_compute. reflexivity.
  - apply (bool_decide_unpack _). vm_compute. reflexivity.
Defined.

(** ** The two markers of the early AGB *)

Lemma round_ge x n : (inject_Z n <= x)%Q -> n <= np.round x.
Proof.
  intros H. apply Qfloor_resp_le in H. rewrite Qfloor_Z in H.
  unfold np.round. destruct (_ ?= _)%Q; [destruct (Z.even _) | |]; lia.
Qed.

Lemma round_le x n : (x <= inject_Z n)%Q -> np.round x <= n.
Proof.
  intros H. pose proof (Qfloor_resp_le _ _ H) as Hf. rewrite Qfloor_Z in Hf.
  assert (Hup : (0 < x - inject_Z (Qfloor x))%Q -> Qfloor x + 1 <= n).
  { intros Hr. assert (Hlt : (inject_Z (Qfloor x) < inject_Z n)%Q) by lra.
    rewrite <- Zlt_Qlt in Hlt. lia. }
  unfold np.round.
  destruct (_ ?= _)%Q eqn:Hc; [destruct (Z.even _) | |]; try lia.
  - apply Hup. apply Qeq_alt in Hc. lra.
  - apply Hup. apply Qgt_alt in Hc. lra.
Qed.

Lemma thirds_ok s a b s1 :
  thirds s = Ok (a, b, s1) ->
  s1 = s
  /\ exists y0 fin,
       assoc (YCEN 0) (attrs (track s)) = Some y0
       /\ np.index (iptcri (track s)) (-1) = Some fin
       /\ (y0 <= fin -> y0 <= a <= fin /\ y0 <= b <= fin).
Proof.
  unfold thirds, attr. intros H. steps.
  match goal with H : match _ with [] => _ | _ => _ end _ = Ok _ |- _ =>
    cbn [np.linspace fmap list_fmap seq] in H; steps; unpair end.
  split; [reflexivity |]. do 2 eexists. do 2 (split; [eassumption |]).
  intros Hle. rewrite Zle_Qle in Hle.
  repeat split; (apply round_ge || apply round_le);
    change (inject_Z (Z.of_nat 1)) with 1%Q;
    change (inject_Z (Z.of_nat 2)) with 2%Q;
    unfold Qdiv; change (/ inject_Z (Z.of_nat 3))%Q with (1 # 3)%Q;
    match goal with
    | Hle : (inject_Z ?y0 <= inject_Z ?fin)%Q |- _ =>
        generalize dependent (inject_Z y0); generalize (inject_Z fin)
    end;
    intros; lra.
Qed.

Lemma same_but_nil ptcri t t' :
  same_but ptcri [] t t' ->
  iptcri t' = iptcri t /\ forall e, assoc e (attrs t') = assoc e (attrs t).
Proof.
  intros Hsb. split.
  - apply list_eq. intros k. apply (sb_table _ _ _ _ Hsb).
    intros e He. now apply elem_of_nil in He.
  - intros e. apply (sb_attrs _ _ _ _ Hsb). apply not_elem_of_nil.
Qed.

(** X16.  [add_agb_eeps] returns the two indices it stores as AGB_LY1
    and AGB_LY2.  Neither lies past the last entry of the table (TPAGB in
    the catalogue of the module), provided the attribute
    [track.iycen_0000] does not: an index found past it is replaced by a
    third of the way from [iycen_0000] to it. *)
Theorem add_agb_eeps_before_last ext ptcri s ly1 ly2 s1 fin :
  add_agb_eeps ext ptcri s = Ok (ly1, ly2, s1) ->
  np.index (iptcri (track s)) (-1) = Some fin ->
  (forall y0, assoc (YCEN 0) (attrs (track s)) = Some y0 -> y0 <= fin) ->
  ly1 <= fin /\ ly2 <= fin
  /\ entry_is ptcri (iptcri (track s1)) AGB_LY1 ly1
  /\ entry_is ptcri (iptcri (track s1)) AGB_LY2 ly2.
Proof.
  unfold add_agb_eeps. intros H Hfin Hy0. steps. unpair.
  match goal with
  | H : (if bool_decide _ then _ else _) s = Ok (_, ?sa) |- _ =>
      assert (Hsame : same_but ptcri [] (track s) (track sa));
      [ revert H;
        match goal with |- ?m s = _ -> _ =>
          assert (Hfr : frame ptcri [] m)
            by (frame_go; try apply frame_thirds;
                apply frame_tp_loop; intros; frame_go; apply frame_thirds)
        end;
        intros H; apply (Hfr _ _ _ H)
      | clear H ]
  end.
  apply same_but_nil in Hsame as [Htbl Hattr].
  match goal with H : np.index (iptcri (track ?sa)) (-1) = Some _ |- _ =>
    rewrite Htbl, Hfin in H; injection H as <-;
    assert (Hthirds : forall st a b st',
              track st = track sa -> thirds st = Ok (a, b, st') ->
              st' = st /\ a <= fin /\ b <= fin)
  end.
  { intros st a b st' Hst Ht.
    apply thirds_ok in Ht as (-> & y0 & fin' & Hy & Hf & Hb).
    rewrite Hst, ?Hattr, ?Htbl in *. rewrite Hfin in Hf. injection Hf as <-.
    specialize (Hb (Hy0 _ Hy)). split; [reflexivity | lia]. }
  repeat match goal with
  | H : (if fin <? ?z then _ else _) ?sa = Ok (?r, _, ?sb) |- _ =>
      let Hl := fresh "Hl" in
      assert (Hl : r <= fin /\ sb = sa)
        by (destruct (Z.ltb_spec fin z); steps; unpair;
            [ match goal with H' : thirds _ = Ok _ |- _ =>
                apply Hthirds in H' as (-> & ? & ?); [| reflexivity] end;
              auto
            | split; [lia | auto] ]);
      clear H; destruct Hl as [? ->]
  end.
  do 2 (split; [assumption |]).
  match goal with H : add_eep _ AGB_LY1 _ _ _ = Ok _ |- _ =>
    apply add_eep_entry_is in H; rename H into He1 end.
  match goal with H : add_eep _ AGB_LY2 _ _ _ = Ok _ |- _ =>
    pose proof (add_eep_entry_is _ _ _ _ _ _ _ H) as He2;
    apply (frame_add_eep ptcri [AGB_LY2]) in H as [Hf _]; [| left] end.
  carry He1. auto.
Qed.

Lemma add_agb_eeps_before_last_hm :
  add_agb_eeps Example.helpers Example.catalogue
    (snd (Example.hm_run (2 # 100))) = Ok Example.hm_agb
  /\ fst (fst Example.hm_agb) <= 39 /\ snd (fst Example.hm_agb) <= 39
  /\ entry_is Example.catalogue (iptcri (track (snd Example.hm_agb)))
       AGB_LY1 (fst (fst Example.hm_agb))
  /\ entry_is Example.catalogue (iptcri (track (snd Example.hm_agb)))
       AGB_LY2 (snd (fst Example.hm_agb)).
Proof.
  split; [vm_compute; reflexivity |].
  apply (add_agb_eeps_before_last Example.helpers Example.catalogue
           (snd (Example.hm_run (2 # 100))) (fst (fst Example.hm_agb))
           (snd (fst Example.hm_agb)) (snd Example.hm_agb) 39).
  - vm_compute. reflexivity.
  - vm_compute. reflexivity.
  - intros y0 Hy. vm_compute in Hy. injection Hy as <-. lia.
Defined.

(** ** The table [load_critical_points] starts from *)

Lemma foldl_insert_length {B} (f : B -> nat * Z) l : forall a : list Z,
  length (foldl (fun acc p => <[fst (f p) := snd (f p)]> acc) a l)
  = length a.
Proof.
  induction l as [| x l IH]; intros a; cbn; [reflexivity |].
  now rewrite IH, length_insert.
Qed.

Lemma assign_length a inds vals r :
  assign a inds vals = Ok r -> length r = length a.
Proof.
  unfold assign. intros H.
  repeat case_bool_decide; try discriminate.
  - injection H as <-. apply (foldl_insert_length (fun p => p)).
  - destruct vals as [| v [| ? ?]]; try discriminate. injection H as <-.
    apply (foldl_insert_length (fun i => (i, v))).
Qed.

(** X17.  On an unflagged track whose mass has model numbers in the
    table, with EEPs left to define: when [load_critical_points] returns,
    the table of the track has one entry for each name of [eep_list], and
    the entry of a name that [define_eep_stages] never sets is not
    negative and not above the number of samples. *)
Theorem load_critical_points_table cfg ext ptcri hb_ s mptcri u s1 :
  flag (track s) = None ->
  data_dict s !! mass_key ext (mass (track s)) = Some mptcri ->
  (0 < length (please_define ptcri))%nat ->
  load_critical_points cfg ext ptcri hb_ s = Ok (u, s1) ->
  length (iptcri (track s1)) = length (eep_list ptcri)
  /\ forall e v, e ∉ all_names ptcri ->
       entry_is ptcri (iptcri (track s1)) e v ->
       0 <= v <= len (data (track s)).
Proof.
  intros Hflag Hkey Hpd H. unfold load_critical_points in H. steps.
  rewrite Hflag in *. steps.
  match goal with H : get_dict _ = Ok _ |- _ =>
    unfold get_dict in H; injection H as <- <- end.
  rewrite Hkey in *. steps.
  match goal with H : load_sandro _ _ _ _ _ = Ok _ |- _ =>
    apply load_sandro_ok in H as (Hd & _ & _ & _) end.
  case_bool_decide; [| lia]. steps.
  match goal with H : (if ?c then _ else _) ?x = Ok (?tbl, ?y) |- _ =>
    assert (y = x /\ length tbl = length (eep_list ptcri)) as [-> Hlen]
      by (destruct c; steps;
          [ match goal with H : assign _ _ _ = Ok _ |- _ =>
              apply assign_length in H; rewrite length_replicate in H end
          | rewrite length_replicate ]; auto);
    clear H end.
  match goal with H : modify _ _ = _ |- _ =>
    apply modify_ok in H as (Ht & _) end.
  match goal with H : define_eep_stages _ _ _ _ _ = _ |- _ =>
    apply frame_define_eep_stages in H as [Hsb _] end.
  rewrite Ht in Hsb. split.
  - rewrite (sb_length _ _ _ _ Hsb). cbn [iptcri with_table].
    now rewrite !length_fmap.
  - intros e v He (k & Hk & Hv).
    rewrite (same_but_entry _ _ _ _ e k Hsb He Hk) in Hv.
    cbn [iptcri with_table] in Hv. rewrite !list_lookup_fmap in Hv.
    destruct (_ !! k) as [w |]; [| discriminate]. cbn in Hv.
    injection Hv as <-. rewrite Hd.
    repeat match goal with
    | |- context [if ?a <? ?b then _ else _] => destruct (Z.ltb_spec a b)
    end; unfold len in *; lia.
Qed.

Lemma load_critical_points_table_cut :
  load_critical_points Example.thresholds Example.helpers Example.catalogue
    false (Example.cut_start Example.cut_by_one)
  = Ok (Example.cut_run Example.cut_by_one)
  /\ length (iptcri (track (snd (Example.cut_run Example.cut_by_one))))
     = length (eep_list Example.catalogue)
  /\ forall e v, e ∉ all_names Example.catalogue ->
       entry_is Example.catalogue
         (iptcri (track (snd (Example.cut_run Example.cut_by_one)))) e v ->
       0 <= v <= len (data (track (Example.cut_start Example.cut_by_one))).
Proof.
  split; [vm_compute; reflexivity |].
  apply (load_critical_points_table Example.thresholds Example.helpers
           Example.catalogue false (Example.cut_start Example.cut_by_one)
           Example.cut_by_one tt (snd (Example.cut_run Example.cut_by_one))).
  - reflexivity.
  - vm_compute. reflexivity.
  - vm_compute. lia.
  - vm_compute. reflexivity.
Defined.

Lemma foldl_insert_other (l : list (nat * Z)) p : forall a : list Z,
  p ∉ l.*1 ->
  foldl (fun acc x => <[fst x := snd x]> acc) a l !! p = a !! p.
Proof.
  induction l as [| [p0 v0] l IH]; intros a Hp; cbn; [reflexivity |].
  cbn in Hp. apply not_elem_of_cons in Hp as [Hne Hp].
  rewrite IH by exact Hp. now apply list_lookup_insert_ne.
Qed.

Lemma foldl_insert_lookup (l : list (nat * Z)) p v : forall a : list Z,
  NoDup l.*1 -> (p, v) ∈ l -> (p < length a)%nat ->
  foldl (fun acc x => <[fst x := snd x]> acc) a l !! p = Some v.
Proof.
  induction l as [| [p0 v0] l IH]; intros a Hnd Hin Hlen; cbn.
  - now apply elem_of_nil in Hin.
  - cbn in Hnd. apply NoDup_cons in Hnd as [Hp0 Hnd].
    apply elem_of_cons in Hin as [[= -> ->] | Hin].
    + rewrite foldl_insert_other by exact Hp0.
      now apply list_lookup_insert_eq.
    + apply IH; [exact Hnd | exact Hin | now rewrite length_insert].
Qed.

Lemma assign_lookup a inds vals r (k p : nat) v :
  assign a inds vals = Ok r ->
  length inds = length vals -> NoDup inds ->
  inds !! k = Some p -> vals !! k = Some v ->
  r !! p = Some v.
Proof.
  unfold assign. intros H Hlen Hnd Hp Hv.
  case_bool_decide as Hall; [| discriminate].
  case_bool_decide; [| congruence]. injection H as <-.
  apply foldl_insert_lookup.
  - rewrite fst_zip by lia. exact Hnd.
  - apply list_elem_of_lookup. exists k.
    rewrite lookup_zip_with, Hp. cbn. now rewrite Hv.
  - rewrite Forall_forall in Hall. apply Hall.
    apply list_elem_of_lookup. eauto.
Qed.

Lemma positions_in_NoDup l other : NoDup (positions_in l other).
Proof.
  unfold positions_in.
  apply (sublist_NoDup _ (zip (seq 0 (length l)) l).*1).
  - rewrite fst_zip by (rewrite length_seq; lia). apply NoDup_seq.
  - apply fmap_sublist, sublist_filter.
Qed.

(** X18.  What [load_critical_points] keeps of Sandro.  It pairs the
    positions of [eep_list] that hold one of Sandro's names with the
    positions of Sandro's names that are in [eep_list], in order.  When
    the two are as many, and the name at a position of [eep_list] is one
    that [define_eep_stages] never sets, its entry in the table is the
    model number paired with it minus 2, or 0 when that is negative or
    above the number of samples; the model numbers are those of the
    table, the last one repaired when the track was cut by a sample. *)
Theorem load_critical_points_sandro cfg ext ptcri hb_ s mptcri u s1 :
  flag (track s) = None ->
  data_dict s !! mass_key ext (mass (track s)) = Some mptcri ->
  (0 < length (please_define ptcri))%nat ->
  load_critical_points cfg ext ptcri hb_ s = Ok (u, s1) ->
  length (positions_in (eep_list ptcri) (sandro_eeps ptcri))
  = length (positions_in (sandro_eeps ptcri) (eep_list ptcri)) ->
  forall (k p q : nat) e m,
    positions_in (eep_list ptcri) (sandro_eeps ptcri) !! k = Some p ->
    positions_in (sandro_eeps ptcri) (eep_list ptcri) !! k = Some q ->
    index_of e (eep_list ptcri) = Some p ->
    e ∉ all_names ptcri ->
    repaired (data (track s)) mptcri !! q = Some m ->
    entry_is ptcri (iptcri (track s1)) e (clipped (data (track s)) (m - 2)).
Proof.
  intros Hflag Hkey Hpd H Hlens k p q e m Hp Hq He Hnot Hm.
  unfold load_critical_points in H. steps.
  rewrite Hflag in *. steps.
  match goal with H : get_dict _ = Ok _ |- _ =>
    unfold get_dict in H; injection H as <- <- end.
  rewrite Hkey in *. steps.
  match goal with H : load_sandro _ _ _ _ _ = Ok (?r, _) |- _ =>
    apply load_sandro_ok in H as (Hd & _ & _ & Hcase);
    assert (Hr : r = repaired (data (track s)) mptcri)
      by (unfold repaired; destruct (_ - _ =? 1);
          [| destruct (_ =? _)]; tauto);
    clear Hcase
  end.
  case_bool_decide; [| lia]. steps.
  assert (Hpos : (0 < length (positions_in (eep_list ptcri)
                                (sandro_eeps ptcri)))%nat)
    by (apply lookup_lt_Some in Hp; lia).
  rewrite (bool_decide_eq_true_2 _ Hpos) in *.
  rewrite <- Hlens in *. rewrite (bool_decide_eq_true_2 _ Hpos) in *.
  cbn [andb] in *. steps.
  match goal with H : mapM _ _ = Some ?vals |- _ =>
    apply mapM_Some in H;
    destruct (Forall2_lookup_l _ _ _ _ _ H Hq) as (m' & Hv & Hm');
    pose proof (Forall2_length _ _ _ H) as Hlv
  end.
  rewrite Hm in Hm'. injection Hm' as <-.
  match goal with H : assign _ _ _ = Ok ?tbl |- _ =>
    apply (assign_lookup _ _ _ _ k p (m - 2)) in H;
      [ rename H into Htbl
      | rewrite length_fmap; lia
      | apply positions_in_NoDup
      | exact Hp
      | rewrite list_lookup_fmap, Hv; reflexivity ]
  end.
  match goal with H : modify _ _ = _ |- _ =>
    apply modify_ok in H as (Ht & _) end.
  match goal with H : define_eep_stages _ _ _ _ _ = _ |- _ =>
    apply frame_define_eep_stages in H as [Hsb _] end.
  exists p. split; [exact He |].
  rewrite (same_but_entry _ _ _ _ e p Hsb Hnot He), Ht.
  cbn [iptcri with_table]. rewrite !list_lookup_fmap, Htbl, Hd.
  cbn [fmap option_fmap option_map]. unfold clipped. f_equal.
  repeat match goal with
  | |- context [if ?a <? ?b then _ else _] => destruct (Z.ltb_spec a b)
  end; unfold len in *; lia.
Qed.

Lemma load_critical_points_sandro_cut :
  load_critical_points Example.thresholds Example.helpers Example.catalogue
    false (Example.cut_start Example.cut_by_one)
  = Ok (Example.cut_run Example.cut_by_one)
  /\ forall (k p q : nat) e m,
       positions_in (eep_list Example.catalogue)
         (sandro_eeps Example.catalogue) !! k = Some p ->
       positions_in (sandro_eeps Example.catalogue)
         (eep_list Example.catalogue) !! k = Some q ->
       index_of e (eep_list Example.catalogue) = Some p ->
       e ∉ all_names Example.catalogue ->
       repaired (data (track (Example.cut_start Example.cut_by_one)))
         Example.cut_by_one !! q = Some m ->
       entry_is Example.catalogue
         (iptcri (track (snd (Example.cut_run Example.cut_by_one)))) e
         (clipped (data (track (Example.cut_start Example.cut_by_one)))
            (m - 2)).
Proof.
  split; [vm_compute; reflexivity |].
  apply (load_critical_points_sandro Example.thresholds Example.helpers
           Example.catalogue false (Example.cut_start Example.cut_by_one)
           Example.cut_by_one tt (snd (Example.cut_run Example.cut_by_one))).
  - reflexivity.
  - vm_compute. reflexivity.
  - vm_compute. lia.
  - vm_compute. reflexivity.
  - vm_compute. reflexivity.
Defined.

(** ** Horizontal-branch tracks *)

(** X19.  On a horizontal-branch track [define_eep_stages] sets HE_BEG,
    the central-helium EEPs and the two AGB markers, and nothing else of
    what it was asked for.  When it returns, HE_BEG is Sandro's first
    index, or the first sample older than 0.2 when that index is 0; and
    every other name of [please_define] that is no thermal-pulse marker
    is left at 0. *)
Theorem define_eep_stages_hb cfg ext ptcri s u s1 :
  define_eep_stages cfg ext ptcri true s = Ok (u, s1) ->
  (exists h i,
     np.index (sptcri (track s)) 0 = Some h
     /\ entry_is ptcri (iptcri (track s1)) HE_BEG i
     /\ (h <> 0 -> i = h)
     /\ (h = 0 ->
         first_such (fun x => np.Qltb (2 # 10) x) (col age (track s)) i))
  /\ forall e, e ∈ please_define ptcri ->
       e ∉ hb_names ptcri ++ [TPAGB; TPAGB_n 1; TPAGB_n 2] ->
       entry_is ptcri (iptcri (track s1)) e 0.
Proof.
  unfold define_eep_stages, dispatch. intros H. steps.
  match goal with H : modify _ ?s = Ok (_, ?s') |- _ =>
    apply (frame_info ptcri [] (fun _ => [])) in H as [Hf1 _] end.
  match goal with H : for_each _ _ ?s = Ok (_, ?s') |- _ =>
    pose proof (reset_entries _ _ _ _ _ _ _ H) as Hz;
    apply (frame_reset ptcri (please_define ptcri)) in H as [Hf2 _];
      [| reflexivity] end.
  match goal with H : (if agb ?t then _ else _) ?s = Ok (_, ?s') |- _ =>
    assert (Hf3 : same_but ptcri [TPAGB; TPAGB_n 1; TPAGB_n 2]
                    (track s) (track s'))
      by (destruct (agb t);
          [apply (frame_add_tpagb_eeps ptcri _ _ _ H)
          | apply ret_ok in H as [_ ->]; apply same_but_refl]);
    clear H end.
  match goal with H : check_for_monotonic_increase _ = Ok _ |- _ =>
    apply (frame_check ptcri []) in H as [Hf5 _] end.
  match goal with H : hb_eeps _ _ _ = Ok _ |- _ =>
    pose proof (frame_hb_eeps ext ptcri _ _ _ H) as [Hf4 _];
    unfold hb_eeps in H end.
  steps.
  match goal with H : add_hb_beg _ _ = Ok _ |- _ =>
    apply add_hb_beg_ok in H as (Hb & He & h & Hh & Hne & Hz0) end.
  match goal with H : add_cen_eeps _ _ _ _ _ = Ok _ |- _ =>
    apply frame_add_cen_eeps in H as [Hc _] end.
  match goal with H : add_agb_eeps _ _ _ = Ok _ |- _ =>
    apply frame_add_agb_eeps in H as [Ha _] end.
  split.
  - exists h. eexists. 
    rewrite (sb_sptcri _ _ _ _ Hf3), (sb_sptcri _ _ _ _ Hf2),
      (sb_sptcri _ _ _ _ Hf1) in Hh.
    rewrite (same_but_col _ _ _ _ age Hf3), (same_but_col _ _ _ _ age Hf2),
      (same_but_col _ _ _ _ age Hf1) in Hz0.
    clear Hf4. carry He. eauto.
  - intros e He' Hnot. specialize (Hz e He').
    unfold hb_names in *. rewrite !not_elem_of_app in Hnot.
    destruct Hnot as [[Hy Hn1] Hn2].
    eapply entry_is_kept; [exact Hf5 | apply not_elem_of_nil |].
    eapply entry_is_kept; [exact Hf4 | |].
    { rewrite not_elem_of_app. auto. }
    eapply entry_is_kept; [exact Hf3 | exact Hn2 | exact Hz].
Qed.

Lemma define_eep_stages_hb_hm :
  define_eep_stages Example.thresholds Example.helpers Example.catalogue
    true (Example.hm_loaded (2 # 100)) = Ok Example.hb_run
  /\ (exists h i,
        np.index (sptcri (track (Example.hm_loaded (2 # 100)))) 0 = Some h
        /\ entry_is Example.catalogue
             (iptcri (track (snd Example.hb_run))) HE_BEG i
        /\ (h <> 0 -> i = h)
        /\ (h = 0 ->
            first_such (fun x => np.Qltb (2 # 10) x)
              (col age (track (Example.hm_loaded (2 # 100)))) i))
  /\ forall e, e ∈ please_define Example.catalogue ->
       e ∉ hb_names Example.catalogue ++ [TPAGB; TPAGB_n 1; TPAGB_n 2] ->
       entry_is Example.catalogue (iptcri (track (snd Example.hb_run))) e 0.
Proof.
  split; [vm_compute; reflexivity |].
  apply (define_eep_stages_hb Example.thresholds Example.helpers
           Example.catalogue (Example.hm_loaded (2 # 100)) tt
           (snd Example.hb_run)).
  vm_compute. reflexivity.
Defined.

(** ** [check_sandros_eeps] on a table with too few entries *)

(** X20.  [check_sandros_eeps] returns only on a table with two
    positive entries at least: with fewer there is no difference between
    neighbours to take the minimum of, and the call fails. *)
Theorem check_sandros_eeps_needs_two ptcri depth s u s1 :
  check_sandros_eeps ptcri depth s = Ok (u, s1) ->
  (2 <= length (np.nonzero (fun v => (0 <? v)%Z) (iptcri (track s))))%nat.
Proof.
  destruct depth as [| depth]; [discriminate |].
  cbn [check_sandros_eeps]. unfold sandro_move. intros H. steps.
  match goal with H : np.take _ _ = Some ?l, H' : np.minZ (np.diff ?l) = _
    |- _ => apply length_take in H; rewrite <- H;
            destruct l as [| a [| b l']]; try discriminate H' end.
  cbn. lia.
Qed.

Lemma check_sandros_eeps_needs_two_close :
  check_sandros_eeps Example.catalogue 5
    (Example.close [10; 18; 20; 21; 23; 40])
  = Ok (Example.close_run [10; 18; 20; 21; 23; 40])
  /\ (2 <= length
             (np.nonzero (fun v => (0 <? v)%Z)
                (iptcri (track
                   (Example.close [10; 18; 20; 21; 23; 40]%Z)))))%nat.
Proof.
  split; [vm_compute; reflexivity |].
  apply (check_sandros_eeps_needs_two Example.catalogue 5
           (Example.close [10; 18; 20; 21; 23; 40]) tt
           (snd (Example.close_run [10; 18; 20; 21; 23; 40]))).
  vm_compute. reflexivity.
Defined.

(** ** The last sample of a high-mass track *)

Lemma index_last {A} (l : list A) x : np.index (l ++ [x]) (-1) = Some x.
Proof.
  unfold np.index. cbn [Z.leb Z.compare]. rewrite length_app. cbn [length].
  destruct (Z.leb_spec (- Z.of_nat (length l + 1)) (-1)); [| lia].
  replace (Z.to_nat (Z.of_nat (length l + 1) + -1)) with (length l) by lia.
  rewrite lookup_app_r, Nat.sub_diag by lia. reflexivity.
Qed.

Lemma index_before_last {A} (pre l : list A) c x :
  np.index l (-1) = Some c -> np.index (pre ++ l ++ [x]) (-2) = Some c.
Proof.
  unfold np.index. cbn [Z.leb Z.compare]. rewrite !length_app. cbn [length].
  intros H.
  destruct (Z.leb_spec (- Z.of_nat (length l)) (-1)); [| discriminate].
  destruct (Z.leb_spec
              (- Z.of_nat (length pre + (length l + 1))) (-2)); [| lia].
  replace (Z.to_nat (Z.of_nat (length pre + (length l + 1)) + -2))
    with (length pre + Z.to_nat (Z.of_nat (length l) + -1))%nat by lia.
  rewrite lookup_app_r by lia.
  replace (length pre + Z.to_nat (Z.of_nat (length l) + -1) - length pre)%nat
    with (Z.to_nat (Z.of_nat (length l) + -1)) by lia.
  rewrite lookup_app_l by lia. exact H.
Qed.

(** X21.  The list [add_high_mass_eeps] returns ends with the last
    central-helium index and the last sample of the track.  When that
    index is not before the last sample, the track leaves flagged as cut
    before the final ycen, whatever its flag was. *)
Theorem add_high_mass_eeps_final_point ext ptcri s l s1 :
  add_high_mass_eeps ext ptcri s = Ok (l, s1) ->
  exists clast,
    np.index l (-1) = Some (len (data (track s)) - 1)
    /\ np.index l (-2) = Some clast
    /\ (len (data (track s)) - 1 <= clast ->
        flag (track s1) = cut_before_ycen (mass (track s1))).
Proof.
  unfold add_high_mass_eeps. intros H. steps.
  match goal with H : high_mass_ms_to _ _ = Ok _ |- _ =>
    apply frame_high_mass_ms_to in H as [Hf1 _] end.
  match goal with H : high_mass_ms _ _ _ _ = Ok _ |- _ =>
    apply frame_high_mass_ms in H as [Hf2 _] end.
  match goal with H : high_mass_rest _ _ _ _ _ ?sa = Ok _ |- _ =>
    assert (Hdata : data (track sa) = data (track s))
      by (now rewrite (sb_data _ _ _ _ Hf2), (sb_data _ _ _ _ Hf1));
    unfold high_mass_rest in H
  end.
  steps.
  match goal with H : match _ with [] => _ | _ => _ end _ = Ok _ |- _ =>
    rewrite linspace_7 in H; cbv beta iota in H end.
  steps.
  replace (len (col logL (track _))) with (len (data (track s))) in *
    by (unfold col, len; now rewrite length_fmap, Hdata).
  match goal with H : np.index ?cens (-1) = Some ?c |- _ =>
    exists c; rename H into Hc end.
  change ([?a; ?b; ?c; ?d] ++ ?cens ++ [?f])
    with ([a; b; c; d] ++ cens ++ [f]).
  split; [rewrite app_assoc; apply index_last |].
  split; [now apply index_before_last |].
  intros Hle.
  match goal with H : (if ?f <=? ?c then _ else _) _ = Ok _ |- _ =>
    destruct (Z.leb_spec f c); [| lia];
    apply modify_ok in H as (Ht & _) end.
  rewrite Ht. reflexivity.
Qed.

Lemma add_high_mass_eeps_final_point_hm :
  add_high_mass_eeps Example.helpers Example.catalogue
    (Example.hm_loaded (2 # 100)) = Ok (Example.hm_high (2 # 100))
  /\ exists clast,
       np.index (fst (Example.hm_high (2 # 100))) (-1)
       = Some (len (data (track (Example.hm_loaded (2 # 100)))) - 1)
       /\ np.index (fst (Example.hm_high (2 # 100))) (-2) = Some clast
       /\ (len (data (track (Example.hm_loaded (2 # 100)))) - 1 <= clast ->
           flag (track (snd (Example.hm_high (2 # 100))))
           = cut_before_ycen
               (mass (track (snd (Example.hm_high (2 # 100)))))).
Proof.
  split; [vm_compute; reflexivity |].
  apply (add_high_mass_eeps_final_point Example.helpers Example.catalogue
           (Example.hm_loaded (2 # 100)) (fst (Example.hm_high (2 # 100)))
           (snd (Example.hm_high (2 # 100)))).
  vm_compute. reflexivity.
Defined.

(** ** Nothing left to define *)

(** X22.  With nothing in [please_define], [load_critical_points]
    defines no EEP and makes no search: the table of the track becomes
    the entry of its mass in the dictionary of model numbers as it then
    stands, model numbers and not sample indices.  When the model
    numbers match the samples, or miss them by the one of a track cut by
    a sample, these are the model numbers given, the last one repaired
    in the second case. *)
Theorem load_critical_points_copies cfg ext ptcri hb_ s mptcri u s1 :
  flag (track s) = None ->
  data_dict s !! mass_key ext (mass (track s)) = Some mptcri ->
  please_define ptcri = [] ->
  load_critical_points cfg ext ptcri hb_ s = Ok (u, s1) ->
  data_dict s1 !! mass_key ext (mass (track s)) = Some (iptcri (track s1))
  /\ searches s1 = searches s
  /\ (len (matched (data (track s)) mptcri) = len (valid mptcri)
      \/ len (valid mptcri) - len (matched (data (track s)) mptcri) = 1 ->
      iptcri (track s1) = repaired (data (track s)) mptcri).
Proof.
  intros Hflag Hkey Hpd H. unfold load_critical_points in H. steps.
  rewrite Hflag in *. steps.
  match goal with H : get_dict _ = Ok _ |- _ =>
    unfold get_dict in H; injection H as <- <- end.
  rewrite Hkey, Hpd in *. steps.
  match goal with H : load_sandro _ _ _ _ _ = Ok _ |- _ =>
    apply load_sandro_ok in H as (_ & _ & Hs & Hcase) end.
  match goal with H : (if bool_decide _ then _ else _) _ = Ok _ |- _ =>
    rewrite bool_decide_eq_false_2 in H by (cbn; lia) end.
  steps.
  match goal with H : get_dict _ = Ok _ |- _ =>
    unfold get_dict in H; injection H as <- <- end.
  match goal with H : modify _ _ = _ |- _ =>
    apply modify_ok in H as (Ht & Hdd & Hse) end.
  rewrite Ht, Hdd, Hse. cbn [iptcri with_table].
  split; [assumption |]. split; [exact Hs |].
  intros Hcount. unfold repaired.
  destruct (Z.eqb_spec (len (valid mptcri)
                        - len (matched (data (track s)) mptcri)) 1).
  - destruct Hcase as (_ & _ & -> & Hd). rewrite Hd, lookup_insert_eq in *.
    congruence.
  - destruct (Z.eqb_spec (len (matched (data (track s)) mptcri))
                (len (valid mptcri))); [| lia].
    destruct Hcase as (_ & _ & -> & Hd). rewrite Hd in *. congruence.
Qed.

Lemma load_critical_points_copies_cut :
  load_critical_points Example.thresholds Example.helpers
    Example.catalogue_done false (Example.cut_start Example.cut_by_one)
  = Ok Example.copied
  /\ data_dict (snd Example.copied) !! "M20.000"
     = Some (iptcri (track (snd Example.copied)))
  /\ searches (snd Example.copied)
     = searches (Example.cut_start Example.cut_by_one)
  /\ (len (matched (data (track (Example.cut_start Example.cut_by_one)))
             Example.cut_by_one)
      = len (valid Example.cut_by_one)
      \/ len (valid Example.cut_by_one)
         - len (matched (data (track (Example.cut_start Example.cut_by_one)))
                  Example.cut_by_one) = 1 ->
      iptcri (track (snd Example.copied))
      = repaired (data (track (Example.cut_start Example.cut_by_one)))
          Example.cut_by_one).
Proof.
  split; [vm_compute; reflexivity |].
  apply (load_critical_points_copies Example.thresholds Example.helpers
           Example.catalogue_done false
           (Example.cut_start Example.cut_by_one) Example.cut_by_one tt
           (snd Example.copied)).
  - reflexivity.
  - vm_compute. reflexivity.
  - reflexivity.
  - vm_compute. reflexivity.
Defined.

(** ** What is kept of Sandro below [high_mass] *)

(** Solves [e ∉ W] for a given name [e] that is not asked for and a list
    [W] made of [please_define], the central-helium names and given
    names. *)
Ltac not_written :=
  repeat (rewrite not_elem_of_app; split);
  first
    [ assumption
    | apply not_ycen; discriminate
    | rewrite ?elem_of_cons, ?elem_of_nil; intuition discriminate ].

Lemma dispatch_sandro_kept cfg ext ptcri hb_ n s u s1 e v :
  dispatch cfg ext ptcri hb_ n s = Ok (u, s1) ->
  e ∉ please_define ptcri ->
  (hb_ = true \/ Qle_bool (high_mass cfg) (mass (track s)) = false)
  /\ e ∈ [PMS_END; RG_BMP1; RG_BMP2; RG_TIP]
  \/ e = PMS_END /\ np.Qltb (Z_ (track s)) (4 # 1000) = false ->
  entry_is ptcri (iptcri (track s)) e v ->
  entry_is ptcri (iptcri (track s1)) e v.
Proof.
  unfold dispatch. intros H Hpd Hcase He.
  assert (Hname : e ∈ [PMS_END; RG_BMP1; RG_BMP2; RG_TIP])
    by (destruct Hcase as [[_ ?] | [-> _]]; [assumption | left]).
  destruct hb_; steps.
  - match goal with H : hb_eeps _ _ _ = Ok _ |- _ =>
      apply frame_hb_eeps in H as [Hf1 _] end.
    match goal with H : check_for_monotonic_increase _ = Ok _ |- _ =>
      apply (frame_check ptcri []) in H as [Hf2 _] end.
    eapply entry_is_kept; [exact Hf2 | apply not_elem_of_nil |].
    eapply entry_is_kept; [exact Hf1 | | exact He].
    unfold hb_names. rewrite !elem_of_cons, elem_of_nil in Hname.
    destruct Hname as [-> | [-> | [-> | [-> | []]]]]; not_written.
  - match goal with H : check_pms_beg _ _ = Ok _ |- _ =>
      apply frame_check_pms_beg in H as [Hf1 _] end.
    match goal with H : ms_beg_warning _ _ _ = Ok _ |- _ =>
      apply frame_ms_beg_warning in H as [Hf2 _] end.
    match goal with H : (if Qle_bool _ (mass (track ?sa)) then _ else _) _ = _
      |- _ =>
        assert (He2 : entry_is ptcri (iptcri (track sa)) e v);
        [| assert (Hm : mass (track sa) = mass (track s))
             by (now rewrite (sb_mass _ _ _ _ Hf2), (sb_mass _ _ _ _ Hf1));
           assert (Hz : Z_ (track sa) = Z_ (track s))
             by (now rewrite (sb_Z _ _ _ _ Hf2), (sb_Z _ _ _ _ Hf1));
           rewrite Hm in H ]
    end.
    { eapply entry_is_kept; [exact Hf2 | |].
      { rewrite !elem_of_cons, elem_of_nil in Hname.
        destruct Hname as [-> | [-> | [-> | [-> | []]]]]; not_written. }
      eapply entry_is_kept; [exact Hf1 | | exact He].
      rewrite !elem_of_cons, elem_of_nil in Hname.
      destruct Hname as [-> | [-> | [-> | [-> | []]]]]; not_written. }
    assert (Hlast : forall sa, check_for_monotonic_increase sa = Ok (u, s1) ->
              entry_is ptcri (iptcri (track sa)) e v ->
              entry_is ptcri (iptcri (track s1)) e v).
    { intros sa Hc Hsa. apply (frame_check ptcri []) in Hc as [Hc _].
      eapply entry_is_kept; [exact Hc | apply not_elem_of_nil | exact Hsa]. }
    destruct (Qle_bool (high_mass cfg) (mass (track s))) eqn:Hhigh.
    + destruct Hcase as [[[? | ?] _] | [-> Hlow]]; try discriminate.
      steps. eapply Hlast; [eassumption |].
      match goal with H : add_high_mass_eeps _ _ _ = Ok _ |- _ =>
        apply (framez_add_high_mass_eeps ext ptcri _ _ _ _ Hz) in H end.
      eapply entry_is_kept; [eassumption | | exact He2].
      unfold high_names, pms_end_names. rewrite Hlow. not_written.
    + destruct (_ <=? 6); steps; (eapply Hlast; [eassumption |]).
      * match goal with H : low_mass_eeps _ _ _ = Ok _ |- _ =>
          apply frame_low_mass_eeps in H as [H _] end.
        eapply entry_is_kept; [eassumption | | exact He2].
        unfold low_names. rewrite !elem_of_cons, elem_of_nil in Hname.
        destruct Hname as [-> | [-> | [-> | [-> | []]]]]; not_written.
      * match goal with H : intermediate_eeps _ _ _ _ _ = Ok _ |- _ =>
          apply frame_intermediate_eeps in H as [H _] end.
        eapply entry_is_kept; [eassumption | | exact He2].
        unfold int_names. rewrite !elem_of_cons, elem_of_nil in Hname.
        destruct Hname as [-> | [-> | [-> | [-> | []]]]]; not_written.
Qed.

(** X23.  Of Sandro's PMS_END, RG_BMP1, RG_BMP2 and RG_TIP, when the
    catalogue does not ask to define them, [define_eep_stages] changes
    none on a horizontal-branch track or on a track below [high_mass];
    and it leaves PMS_END alone on every track of metallicity 0.004 or
    more. *)
Theorem define_eep_stages_sandro_kept cfg ext ptcri hb_ s u s1 :
  define_eep_stages cfg ext ptcri hb_ s = Ok (u, s1) ->
  forall e v,
    e ∉ please_define ptcri ->
    (hb_ = true \/ Qle_bool (high_mass cfg) (mass (track s)) = false)
    /\ e ∈ [PMS_END; RG_BMP1; RG_BMP2; RG_TIP]
    \/ e = PMS_END /\ np.Qltb (Z_ (track s)) (4 # 1000) = false ->
    entry_is ptcri (iptcri (track s)) e v ->
    entry_is ptcri (iptcri (track s1)) e v.
Proof.
  unfold define_eep_stages. intros H e v Hpd Hcase He. steps.
  match goal with H : modify _ ?s = Ok (_, ?s') |- _ =>
    apply (frame_info ptcri [] (fun _ => [])) in H as [Hf1 _] end.
  match goal with H : for_each _ _ ?s = Ok (_, ?s') |- _ =>
    apply (frame_reset ptcri (please_define ptcri)) in H as [Hf2 _];
      [| reflexivity] end.
  match goal with H : (if agb ?t then _ else _) ?s = Ok (_, ?s') |- _ =>
    assert (Hf3 : same_but ptcri [TPAGB; TPAGB_n 1; TPAGB_n 2]
                    (track s) (track s'))
      by (destruct (agb t);
          [apply (frame_add_tpagb_eeps ptcri _ _ _ H)
          | apply ret_ok in H as [_ ->]; apply same_but_refl]);
    clear H end.
  assert (Hname : e ∈ [PMS_END; RG_BMP1; RG_BMP2; RG_TIP])
    by (destruct Hcase as [[_ ?] | [-> _]]; [assumption | left]).
  match goal with H : dispatch _ _ _ _ _ _ = Ok _ |- _ =>
    apply (dispatch_sandro_kept _ _ _ _ _ _ _ _ e v) in H; auto end.
  - now rewrite (sb_mass _ _ _ _ Hf3), (sb_mass _ _ _ _ Hf2),
      (sb_mass _ _ _ _ Hf1), (sb_Z _ _ _ _ Hf3), (sb_Z _ _ _ _ Hf2),
      (sb_Z _ _ _ _ Hf1).
  - eapply entry_is_kept; [exact Hf3 | |].
    { rewrite !elem_of_cons, elem_of_nil in Hname.
      destruct Hname as [-> | [-> | [-> | [-> | []]]]]; not_written. }
    eapply entry_is_kept; [exact Hf2 | exact Hpd |].
    eapply entry_is_kept; [exact Hf1 | apply not_elem_of_nil | exact He].
Qed.

Lemma define_eep_stages_sandro_kept_im :
  define_eep_stages Example.thresholds Example.helpers Example.catalogue
    false Example.im_loaded = Ok Example.im_run
  /\ forall e v,
       e ∉ please_define Example.catalogue ->
       (false = true
        \/ Qle_bool (high_mass Example.thresholds)
             (mass (track Example.im_loaded)) = false)
       /\ e ∈ [PMS_END; RG_BMP1; RG_BMP2; RG_TIP]
       \/ e = PMS_END
          /\ np.Qltb (Z_ (track Example.im_loaded)) (4 # 1000) = false ->
       entry_is Example.catalogue (iptcri (track Example.im_loaded)) e v ->
       entry_is Example.catalogue (iptcri (track (snd Example.im_run))) e v.
Proof.
  split; [vm_compute; reflexivity |].
  apply (define_eep_stages_sandro_kept Example.thresholds Example.helpers
           Example.catalogue false Example.im_loaded tt
           (snd Example.im_run)).
  vm_compute. reflexivity.
Defined.

(** ** SG_MAXL against MS_TO *)

Lemma entry_is_fun ptcri tbl e v w :
  entry_is ptcri tbl e v -> entry_is ptcri tbl e w -> v = w.
Proof. intros (k & Hk & Hv) (k' & Hk' & Hw). congruence. Qed.

(** X24.  On a track of at most [inte_mass], [add_sg_maxl_eep] never
    returns the index of MS_TO: when its searches end on the turn-off
    itself it stores and returns -1 instead. *)
Theorem add_sg_maxl_eep_not_ms_to cfg ext ptcri eep2 s r s1 msto :
  add_sg_maxl_eep cfg ext ptcri eep2 s = Ok (r, s1) ->
  (mass (track s) <= inte_mass cfg)%Q ->
  entry_is ptcri (iptcri (track s)) MS_TO msto ->
  msto <> -1 ->
  r <> msto.
Proof.
  unfold add_sg_maxl_eep. intros H Hm Hto Hne. apply Qltb_ge in Hm. steps.
  rewrite Hm in *. steps.
  repeat match goal with
  | H : peak_finder _ _ _ _ _ _ ?sa = Ok (_, ?sb) |- _ =>
      apply (frame_peak_finder ext ptcri []) in H as [H _];
      apply same_but_nil in H as [H _]
  | H : entry _ _ ?sa = Ok (_, ?sb) |- _ =>
      apply entry_ok in H as [-> H]
  | H : (if _ then _ else _) ?sa = Ok (_, ?sb) |- _ =>
      lazymatch type of H with
      | (if _ =? _ then _ else _) _ = _ => fail
      | _ => idtac
      end;
      let Hfr := fresh "Hfr" in
      revert H;
      match goal with |- ?m sa = _ -> _ =>
        assert (Hfr : frame ptcri [] m)
          by (frame_go;
              first [apply frame_peak_finder | apply frame_inds_between])
      end;
      intros H; apply Hfr in H as [H _]; clear Hfr;
      apply same_but_nil in H as [H _]
  end.
  match goal with H : entry_is _ (iptcri (track ?sa)) MS_TO ?m |- _ =>
    lazymatch sa with s => fail | _ => idtac end;
    assert (m = msto)
      by (apply (entry_is_fun ptcri (iptcri (track s)) MS_TO);
          [congruence | exact Hto]);
    subst m
  end.
  match goal with H : (if ?a =? msto then _ else _) _ = Ok _ |- _ =>
    destruct (Z.eqb_spec a msto); steps; unpair end.
  - lia.
  - assumption.
Qed.

Lemma add_sg_maxl_eep_not_ms_to_im :
  add_sg_maxl_eep Example.thresholds Example.helpers Example.catalogue
    RG_MINL (snd Example.im_run) = Ok Example.im_sg_maxl
  /\ fst Example.im_sg_maxl <> 11.
Proof.
  split; [vm_compute; reflexivity |].
  apply (add_sg_maxl_eep_not_ms_to Example.thresholds Example.helpers
           Example.catalogue RG_MINL (snd Example.im_run)
           (fst Example.im_sg_maxl) (snd Example.im_sg_maxl) 11).
  - vm_compute. reflexivity.
  - apply Qle_bool_iff. vm_compute. reflexivity.
  - exists 5%nat. split; vm_compute; reflexivity.
  - lia.
Defined.
